(** * sd-prompt-generator: the prompt assembler and the interview engine

    A shallow embedding of [src/services/promptAssembler.ts] and of
    [src/hooks/useInterviewEngine.ts], followed by the properties of
    the two modules.

    Conventions of the embedding.
    - A JavaScript string is a Rocq [string]: a sequence of code units
      below 256, read as Latin-1 (the first 256 code points of Unicode).
      [toLowerCase] and [trim] are JavaScript's on that range.
    - A JavaScript number is a rational [Q] (every finite double is one);
      NaN, the infinities and magnitudes from 10^21 on, where [toFixed]
      changes notation, are outside the model ([inFixedRange]).
    - A tag is a key of the rule table or of no property at all: the
      names that the table inherits from [Object.prototype] are outside
      the model ([ownTags]). [modelledWeights] collects the two
      conditions for the weights of an input.
    - An optional field is an [option]; a test such as [if (x)] on an
      optional string is [truthy], which also rejects the empty string.
    - A [Map] is an insertion-ordered association list ([jsmap]).
    - The React state of the hook is one record, [EngineState]; every
      callback is a function from the state it closes over to the next
      state. *)

From Stdlib Require Import List String Ascii Bool Arith NArith ZArith QArith Lia.
From Stdlib Require Import DecimalString.
Import ListNotations.
Close Scope Q_scope.
Open Scope list_scope.
Open Scope string_scope.

(* ================================================================= *)
(** ** JavaScript strings *)

Definition lowerChar (c : ascii) : ascii :=
  let n := N_of_ascii c in
  if ((65 <=? n) && (n <=? 90))%N
     || ((192 <=? n) && (n <=? 222) && negb (n =? 215))%N
  then ascii_of_N (n + 32) else c.

Fixpoint toLowerCase (s : string) : string :=
  match s with
  | EmptyString => EmptyString
  | String c r => String (lowerChar c) (toLowerCase r)
  end.

(** White space and line terminators below 256: TAB, LF, VT, FF, CR, SP, NBSP. *)
Definition isWhiteSpace (c : ascii) : bool :=
  let n := N_of_ascii c in
  ((9 <=? n) && (n <=? 13) || (n =? 32) || (n =? 160))%N.

Fixpoint trimStart (s : string) : string :=
  match s with
  | EmptyString => EmptyString
  | String c r => if isWhiteSpace c then trimStart r else s
  end.

Definition isEmpty (s : string) : bool :=
  match s with EmptyString => true | String _ _ => false end.

Fixpoint trimEnd (s : string) : string :=
  match s with
  | EmptyString => EmptyString
  | String c r =>
      let r' := trimEnd r in
      if isWhiteSpace c && isEmpty r' then EmptyString else String c r'
  end.

Definition trim (s : string) : string := trimEnd (trimStart s).

Fixpoint startsWith (s k : string) : bool :=
  match k with
  | EmptyString => true
  | String a k' =>
      match s with
      | EmptyString => false
      | String b s' => Ascii.eqb a b && startsWith s' k'
      end
  end.

(** [s.includes(k)]: [k] occurs in [s] at some position. *)
Fixpoint includes (s k : string) : bool :=
  startsWith s k
  || match s with
     | EmptyString => false
     | String _ r => includes r k
     end.

Fixpoint dropChars (n : nat) (s : string) : string :=
  match n, s with
  | O, _ => s
  | S _, EmptyString => EmptyString
  | S m, String _ r => dropChars m r
  end.

(** [xs.includes(x)] on an array of strings. *)
Definition arrayIncludes (xs : list string) (x : string) : bool :=
  existsb (String.eqb x) xs.

(** [xs.join(sep)]. *)
Definition join (sep : string) (xs : list string) : string :=
  String.concat sep xs.

(** JavaScript truthiness of an optional string: present and not empty. *)
Definition truthy (o : option string) : bool :=
  match o with
  | Some s => negb (isEmpty s)
  | None => false
  end.

(** [a || b] on optional strings. *)
Definition orElse (a b : option string) : option string :=
  if truthy a then a else b.

(* ================================================================= *)
(** ** promptAssembler.ts: the abstract-answer expander *)

Definition ABSTRACT_ANSWERS : list string :=
  [ "subtle"; "moderate"; "pronounced"; "strong"; "focused"; "natural";
    "intense"; "slight"; "minimal"; "extreme"; "soft"; "hard" ].

Definition BREAST_SHAPE_KEYWORDS : list string :=
  [ "round"; "teardrop"; "full"; "shallow"; "athletic";
    "wide-set"; "close-set"; "asymmetrical"; "augmented"; "natural" ].

(** The test on the lower-cased question text [q]. *)
Definition isBreastContext (q : string) : bool :=
  includes q "breast" || includes q "bust" || includes q "chest anatomy"
  || includes q "upper torso" || includes q "torso shape".

(** The lookup inside the anatomical branch; [answer] is the fallback. *)
Definition breastExpansion (a answer : string) : string :=
  if a =? "subtle" then "subtle breast definition with gentle anatomical silhouette"
  else if a =? "moderate" then "moderate breast definition with balanced curvature and natural proportions"
  else if a =? "pronounced" then "pronounced breast curvature with clearly defined upper-torso silhouette"
  else if a =? "soft" then "soft breast contours with smooth anatomical transitions"
  else if a =? "hard" then "firm breast contours with sculpted anatomical form"
  else if a =? "minimal" then "minimal breast projection with understated chest anatomy"
  else if a =? "extreme" then "highly emphasized breast curvature with dramatic anatomical silhouette"
  else if a =? "strong" then "strongly defined breast shape with enhanced anatomical contour"
  else if a =? "intense" then "intensely emphasized upper-torso anatomy and curvature"
  else if a =? "round" then "round breast shape with balanced fullness"
  else if a =? "teardrop" then "teardrop breast shape with lower-fullness profile"
  else if a =? "full" then "full, evenly distributed breast volume"
  else if a =? "shallow" then "shallow breast projection with gentle slope"
  else if a =? "athletic" then "athletic chest anatomy with minimal projection"
  else if (a =? "wide-set") || (a =? "wide set") || (a =? "east-west") || (a =? "east_west")
       then "wide-set breast placement with visible sternum spacing"
  else if (a =? "close-set") || (a =? "close set") || (a =? "side-set") || (a =? "side_set")
       then "close-set breast placement with narrow anatomical spacing"
  else if (a =? "asymmetric") || (a =? "asymmetrical")
       then "naturally asymmetrical breast proportions"
  else if a =? "augmented" then "augmented breast shape with structured curvature"
  else if a =? "natural" then "natural breast shape with organic anatomical silhouette"
  else if (a =? "bell") || (a =? "bell shape")
       then "bell-shaped breast profile with wider base and tapered top"
  else if a =? "slender" then "slender breast profile with elongated anatomical form"
  else if a =? "relaxed" then "relaxed breast tissue with natural downward contour"
  else if a =? "conical" then "conical breast shape with pointed anatomical structure"
  else answer.

(** The topic rules tried, in order, after the otherworldly block. *)
Definition topicExpansion (a q : string) : string :=
  if includes q "intensity" || includes q "strength" then a ++ " intensity level"
  else if includes q "mood" || includes q "emotion" || includes q "personality"
       then a ++ " emotional expression"
  else if includes q "style" || includes q "art style" then a ++ " stylistic effect"
  else if includes q "camera" || includes q "perspective" || includes q "angle"
       then a ++ " camera perspective adjustment"
  else if includes q "light" || includes q "illumination" then a ++ " lighting effect"
  else if includes q "hair" then a ++ " hair appearance"
  else if includes q "body" || includes q "build" || includes q "shape"
       then a ++ " physical trait"
  else a ++ " visual effect".

Definition genericExpansion (a q : string) : string :=
  if includes q "otherworld" || includes q "supernatural" || includes q "non-human" then
    if a =? "subtle" then "subtle otherworldly presence"
    else if a =? "moderate" then "moderate degree of otherworldly traits"
    else if a =? "pronounced" then "strongly pronounced supernatural features"
    else if a =? "extreme" then "extremely vivid otherworldly appearance"
    else topicExpansion a q
  else topicExpansion a q.

Definition expandAbstractAnswer (answer question : string) : string :=
  let a := trim (toLowerCase answer) in
  let q := toLowerCase question in
  let breast := isBreastContext q in
  if negb (breast && arrayIncludes BREAST_SHAPE_KEYWORDS a)
     && (negb (arrayIncludes ABSTRACT_ANSWERS a)
         && negb (arrayIncludes BREAST_SHAPE_KEYWORDS a))
  then answer
  else if breast then breastExpansion a answer
  else genericExpansion a q.

(* ================================================================= *)
(** ** promptAssembler.ts: the template normalizer *)

(** [NORMALIZATION_RULES[tag]]: the rule of a tag of the table, [None]
    for a tag that names no property. The table is a plain object, so
    for a name it inherits from [Object.prototype] the lookup of the
    source finds the inherited property, which is truthy, and the loop
    calls it: "toString" gives "[object Undefined]", "valueOf" throws.
    Those names are outside the model; [ownTags] below excludes them. *)
Definition NORMALIZATION_RULES (tag : string) : option (string -> string) :=
  if tag =? "hair" then Some (fun t =>
    if includes t "wave" then "soft loose waves in the hair"
    else if includes t "curl" then "defined hair curls"
    else if includes t "volume" then "voluminous hairstyle"
    else if includes t "texture" then "hair texture detailing"
    else "hairstyle with " ++ t)
  else if tag =? "eyes" then Some (fun t =>
    if negb (includes t "eye") then "eye " ++ t else t)
  else if tag =? "face" then Some (fun t =>
    if negb (includes t "face") then "facial " ++ t else t)
  else if tag =? "environment" then Some (fun t =>
    if includes t "depth" then "environment depth layering"
    else if negb (includes t "environment") then "environment " ++ t else t)
  else if tag =? "lighting" then Some (fun t =>
    if negb (includes t "light") then "lighting " ++ t else t)
  else if tag =? "camera" then Some (fun t =>
    if negb (includes t "camera") then "camera " ++ t else t)
  else if tag =? "color" then Some (fun t =>
    if negb (includes t "color") then "color style " ++ t else t)
  else if tag =? "materials" then Some (fun t => t ++ " material texture")
  else if tag =? "clothing" then Some (fun t =>
    if negb (includes t "clothing") then "clothing " ++ t else t)
  else if tag =? "fabric" then Some (fun t =>
    if negb (includes t "fabric") then "fabric " ++ t else t)
  else if tag =? "armor" then Some (fun t =>
    if negb (includes t "armor") then "armor " ++ t else t)
  else if tag =? "magic" then Some (fun t =>
    if negb (includes t "magic") then "magical " ++ t else t)
  else if tag =? "expression" then Some (fun t =>
    if negb (includes t "expression") then "expression " ++ t else t)
  else if tag =? "pose" then Some (fun t =>
    if negb (includes t "pose") then "pose " ++ t else t)
  else None.

(** One turn of the loop over the tags. *)
Definition applyRule (t tag : string) : string :=
  match NORMALIZATION_RULES tag with
  | Some rule => rule t
  | None => t
  end.

Definition normalizeTemplate (template : string) (tags : list string) : string :=
  fold_left applyRule tags (trim (toLowerCase template)).

(** The property names of [Object.prototype] (ECMAScript, with the
    legacy accessors of its annex B). *)
Definition OBJECT_PROTOTYPE_NAMES : list string :=
  [ "constructor"; "hasOwnProperty"; "isPrototypeOf"; "propertyIsEnumerable";
    "toLocaleString"; "toString"; "valueOf"; "__proto__";
    "__defineGetter__"; "__defineSetter__"; "__lookupGetter__";
    "__lookupSetter__" ].

(** No tag is an inherited name: the tags on which [normalizeTemplate]
    above is the function of the source. *)
Definition ownTags (tags : list string) : bool :=
  forallb (fun tag => negb (arrayIncludes OBJECT_PROTOTYPE_NAMES tag)) tags.

(* ================================================================= *)
(** ** promptAssembler.ts: the records *)

Record SelectedAnswer := {
  sa_id : string;
  sa_nodeId : string;
  sa_answerId : string;
  sa_label : string;
  sa_questionText : option string
}.

Record SelectedRefinement := {
  sr_id : string;
  sr_refinementId : string;
  sr_answerId : string;
  sr_label : string;
  sr_questionText : option string
}.

Record WeightValue := {
  w_id : string;
  w_attrId : string;
  w_value : Q;
  w_template : string;
  w_tags : option (list string);
  w_associatedAnswerId : option string;
  w_answerLabel : option string
}.

Inductive ElementType := TypePrompt | TypeNegative.

Record CustomElement := {
  ce_text : string;
  ce_enabled : bool;
  ce_type : ElementType
}.

Record Prompts := {
  prompt : string;
  negativePrompt : string
}.

Definition optString (o : option string) : string :=
  match o with Some s => s | None => EmptyString end.

Definition optStringEq (a b : option string) : bool :=
  match a, b with
  | Some x, Some y => x =? y
  | None, None => true
  | _, _ => false
  end.

(** [w.tags || []]. *)
Definition tagsOrEmpty (w : WeightValue) : list string :=
  match w_tags w with Some ts => ts | None => [] end.

(* ================================================================= *)
(** ** Number.prototype.toFixed(2)

    For a magnitude below 10^21 [toFixed(2)] prints the nearest multiple
    of 0.01 in decimal notation; from 10^21 on it prints what
    [toString] prints ("1e+21"), which [toFixed2] does not follow:
    [inFixedRange] delimits the values on which it is the function of
    the source. *)

(** The integer nearest to [100 * |x|], the larger one on a tie. *)
Definition hundredths (x : Q) : Z :=
  let den := Z.pos (Qden x) in
  ((200 * Z.abs (Qnum x) + den) / (2 * den))%Z.

Definition digitChar (d : Z) : ascii := ascii_of_N (48 + Z.to_N d).

Definition toFixed2 (x : Q) : string :=
  let n := hundredths x in
  (if (Qnum x <? 0)%Z then "-" else "")
  ++ NilZero.string_of_uint (N.to_uint (Z.to_N (n / 100)))
  ++ "."
  ++ String (digitChar ((n mod 100) / 10)) (String (digitChar (n mod 10)) "").

(** [|x| < 10^21]. *)
Definition inFixedRange (x : Q) : bool :=
  (Z.abs (Qnum x) <? 10 ^ 21 * Z.pos (Qden x))%Z.

(** The weights on which the embedding is the source: no inherited name
    among the tags, and a value that [toFixed] prints in decimal
    notation. *)
Definition modelledWeight (w : WeightValue) : bool :=
  ownTags (tagsOrEmpty w) && inFixedRange (w_value w).

Definition modelledWeights (ws : list WeightValue) : bool :=
  forallb modelledWeight ws.

(* ================================================================= *)
(** ** The two regular expressions of the subject extraction

    [/what (?:are|is) (?:the )?(.+?) (?:like|like\?)$/] and
    [/what (?:are|is) (?:the )?(.+?)\?$/], searched from the left with
    the backtracking order of a JavaScript regular expression: "are"
    before "is", "the " taken before it is given up, and the lazy group
    grown one character at a time. [tail] recognises what must follow
    the group up to the end of the input. *)

Definition isLineTerminator (c : ascii) : bool :=
  let n := N_of_ascii c in ((n =? 10) || (n =? 13))%N.

Fixpoint lazyGroup (tail : string -> bool) (s : string) : option string :=
  match s with
  | EmptyString => None
  | String c r =>
      if isLineTerminator c then None
      else if tail r then Some (String c EmptyString)
      else option_map (String c) (lazyGroup tail r)
  end.

Definition firstSome {A} (a b : option A) : option A :=
  match a with Some _ => a | None => b end.

Definition afterVerb (tail : string -> bool) (s : string) : option string :=
  if startsWith s " " then
    let r := dropChars 1 s in
    firstSome (if startsWith r "the " then lazyGroup tail (dropChars 4 r) else None)
              (lazyGroup tail r)
  else None.

Definition matchHere (tail : string -> bool) (s : string) : option string :=
  if startsWith s "what " then
    let r := dropChars 5 s in
    firstSome (if startsWith r "are" then afterVerb tail (dropChars 3 r) else None)
              (if startsWith r "is" then afterVerb tail (dropChars 2 r) else None)
  else None.

Fixpoint regexSearch (tail : string -> bool) (s : string) : option string :=
  firstSome (matchHere tail s)
            match s with
            | EmptyString => None
            | String _ r => regexSearch tail r
            end.

Definition likeTail (r : string) : bool := (r =? " like") || (r =? " like?").
Definition questionTail (r : string) : bool := r =? "?".

(** [match[1]] of the first pattern, or of the second when the first fails. *)
Definition matchSubject (question : string) : option string :=
  firstSome (regexSearch likeTail question) (regexSearch questionTail question).

(* ================================================================= *)
(** ** promptAssembler.ts: assemblePrompt *)

Definition NEGATIVE_BASE : list string :=
  [ "deformed"; "distorted"; "extra limbs"; "low detail"; "low quality"; "bad anatomy" ].

(** The part pushed for one committed answer. *)
Definition answerPart (a : SelectedAnswer) : string :=
  let label :=
    if truthy (sa_questionText a)
    then expandAbstractAnswer (sa_label a) (optString (sa_questionText a))
    else sa_label a in
  if sa_nodeId a =? "character-build" then toLowerCase label ++ " body type"
  else if truthy (sa_questionText a)
          && negb (arrayIncludes ABSTRACT_ANSWERS (trim (toLowerCase (sa_label a))))
  then
    match matchSubject (toLowerCase (optString (sa_questionText a))) with
    | Some m1 =>
        if negb (isEmpty m1) then toLowerCase label ++ " " ++ trim m1 else label
    | None => label
    end
  else label.

(** The part pushed for one committed refinement. *)
Definition refinementPart (r : SelectedRefinement) : string :=
  if truthy (sr_questionText r)
  then expandAbstractAnswer (sr_label r) (optString (sr_questionText r))
  else sr_label r.

(** [answers.some(a => a.id === w.associatedAnswerId && a.nodeId === 'root')]. *)
Definition isRootAnswer (answers : list SelectedAnswer) (w : WeightValue) : bool :=
  existsb (fun a => optStringEq (Some (sa_id a)) (w_associatedAnswerId w)
                    && (sa_nodeId a =? "root")) answers.

Definition fragment (text : string) (v : Q) : string :=
  "(" ++ text ++ ":" ++ toFixed2 v ++ ")".

(** The template of a weight that is not an intensity, with its answer
    label put in front unless the template already contains it. *)
Definition prefixedTemplate (w : WeightValue) : string :=
  if truthy (w_answerLabel w) then
    let answerLower := toLowerCase (optString (w_answerLabel w)) in
    if negb (includes (toLowerCase (w_template w)) answerLower)
    then answerLower ++ " " ++ w_template w
    else w_template w
  else w_template w.

Section Assembler.

(** [sanitizeTemplate({template, tags})] of [./templateSanitizer], which
    the assembler imports: any function will do. *)
Variable sanitizeTemplate : string -> list string -> string.

(** The body of [weights.forEach], on the set [seen] and the array [parts]. *)
Definition weightStep (answers : list SelectedAnswer)
    (acc : list string * list string) (w : WeightValue)
    : list string * list string :=
  let '(seen, parts) := acc in
  if (w_attrId w =? "intensity") && truthy (w_answerLabel w) then
    if isRootAnswer answers w then acc
    else
      let safeLabel :=
        sanitizeTemplate (toLowerCase (optString (w_answerLabel w))) (tagsOrEmpty w) in
      if arrayIncludes seen safeLabel then acc
      else ((seen ++ [safeLabel])%list,
            (parts ++ [fragment safeLabel (w_value w)])%list)
  else if (w_attrId w =? "intensity") && negb (truthy (w_answerLabel w)) then acc
  else
    let normalizedTemplate := normalizeTemplate (prefixedTemplate w) (tagsOrEmpty w) in
    let safeTemplate := sanitizeTemplate normalizedTemplate (tagsOrEmpty w) in
    if arrayIncludes seen safeTemplate then acc
    else ((seen ++ [safeTemplate])%list,
          (parts ++ [fragment safeTemplate (w_value w)])%list).

Definition customPromptElements (cs : list CustomElement) : list string :=
  map ce_text
      (filter (fun e => ce_enabled e
                        && match ce_type e with TypePrompt => true | TypeNegative => false end) cs).

Definition customNegativeElements (cs : list CustomElement) : list string :=
  map ce_text
      (filter (fun e => ce_enabled e
                        && match ce_type e with TypePrompt => false | TypeNegative => true end) cs).

(** The array [parts] just before it is joined. *)
Definition promptParts (answers : list SelectedAnswer)
    (refinements : list SelectedRefinement) (weights : list WeightValue)
    (customElements : list CustomElement) : list string :=
  let parts := (map answerPart answers ++ map refinementPart refinements)%list in
  let parts := snd (fold_left (weightStep answers) weights ([], parts)) in
  (parts ++ customPromptElements customElements)%list.

Definition assemblePrompt (answers : list SelectedAnswer)
    (refinements : list SelectedRefinement) (weights : list WeightValue)
    (customElements : list CustomElement) : Prompts :=
  {| prompt := join ", " (promptParts answers refinements weights customElements);
     negativePrompt :=
       join ", " (NEGATIVE_BASE ++ customNegativeElements customElements)%list |}.

End Assembler.

(* ================================================================= *)
(** ** JavaScript Map and Set *)

(** A [Map] with string keys, in insertion order. The operations keep
    the keys distinct, as a [Map] does. *)
Definition jsmap (V : Type) : Type := list (string * V).

Fixpoint mapGet {V} (m : jsmap V) (k : string) : option V :=
  match m with
  | [] => None
  | (k', v) :: r => if k' =? k then Some v else mapGet r k
  end.

Definition mapHas {V} (m : jsmap V) (k : string) : bool :=
  match mapGet m k with Some _ => true | None => false end.

(** [m.set(k, v)]: a present key keeps its place, a new one goes last. *)
Fixpoint mapSet {V} (m : jsmap V) (k : string) (v : V) : jsmap V :=
  match m with
  | [] => [(k, v)]
  | (k', v') :: r => if k' =? k then (k, v) :: r else (k', v') :: mapSet r k v
  end.

Fixpoint mapDelete {V} (m : jsmap V) (k : string) : jsmap V :=
  match m with
  | [] => []
  | (k', v') :: r => if k' =? k then r else (k', v') :: mapDelete r k
  end.

Definition mapValues {V} (m : jsmap V) : list V := map snd m.

(** A [Set] of strings, in insertion order. *)
Definition setAdd (s : list string) (x : string) : list string :=
  if arrayIncludes s x then s else (s ++ [x])%list.

Definition setDelete (s : list string) (x : string) : list string :=
  filter (fun y => negb (y =? x)) s.

(* ================================================================= *)
(** ** The node graph *)

(** Modelled from the spec: [types/interview.ts] is not among the
    sources. The records have the fields the hook reads, with the
    shapes section 3 of the spec gives ([next], [tags] and the three
    arrays of a node are optional). *)
Record Answer := {
  ans_id : string;
  ans_label : string;
  ans_next : option string
}.

Record WeightAttr := {
  wa_id : string;
  wa_label : string;
  wa_template : string;
  wa_min : Q;
  wa_max : Q;
  wa_step : Q;
  wa_default : Q;
  wa_tags : option (list string)
}.

Record RefinementNode := {
  rn_id : string;
  rn_question : string;
  rn_answers : option (list Answer);
  rn_weights : option (list WeightAttr)
}.

Record InterviewNode := {
  n_id : string;
  n_question : string;
  n_answers : option (list Answer);
  n_weights : option (list WeightAttr);
  n_refinements : option (list RefinementNode)
}.

(** The module-level [nodeMap]: built once from the JSON files, which
    are data and not part of the sources; the engine takes it as an
    argument. *)
Definition NodeMap : Type := jsmap InterviewNode.

Definition orEmpty {A} (o : option (list A)) : list A :=
  match o with Some l => l | None => [] end.

(* ================================================================= *)
(** ** useInterviewEngine.ts: the state *)

Record EngineState := {
  currentNodeId : string;
  history : list string;
  tempAnswers : jsmap SelectedAnswer;
  tempRefinements : jsmap SelectedRefinement;
  committedAnswers : list SelectedAnswer;
  committedRefinements : list SelectedRefinement;
  weightValues : jsmap WeightValue;
  tempIntensities : jsmap Q;
  touchedWeights : list string;
  enabledSliders : jsmap bool;
  customElements : list CustomElement
}.

(** The values [useState] starts from, which [reset] restores. *)
Definition initialState : EngineState :=
  {| currentNodeId := "root";
     history := ["root"];
     tempAnswers := [];
     tempRefinements := [];
     committedAnswers := [];
     committedRefinements := [];
     weightValues := [];
     tempIntensities := [];
     touchedWeights := [];
     enabledSliders := [];
     customElements := [] |}.

Definition setCurrentNodeId (x : string) (s : EngineState) : EngineState :=
  {| currentNodeId := x; history := history s;
     tempAnswers := tempAnswers s; tempRefinements := tempRefinements s;
     committedAnswers := committedAnswers s;
     committedRefinements := committedRefinements s;
     weightValues := weightValues s; tempIntensities := tempIntensities s;
     touchedWeights := touchedWeights s; enabledSliders := enabledSliders s;
     customElements := customElements s |}.

Definition setHistory (x : list string) (s : EngineState) : EngineState :=
  {| currentNodeId := currentNodeId s; history := x;
     tempAnswers := tempAnswers s; tempRefinements := tempRefinements s;
     committedAnswers := committedAnswers s;
     committedRefinements := committedRefinements s;
     weightValues := weightValues s; tempIntensities := tempIntensities s;
     touchedWeights := touchedWeights s; enabledSliders := enabledSliders s;
     customElements := customElements s |}.

Definition setTempAnswers (x : jsmap SelectedAnswer) (s : EngineState) : EngineState :=
  {| currentNodeId := currentNodeId s; history := history s;
     tempAnswers := x; tempRefinements := tempRefinements s;
     committedAnswers := committedAnswers s;
     committedRefinements := committedRefinements s;
     weightValues := weightValues s; tempIntensities := tempIntensities s;
     touchedWeights := touchedWeights s; enabledSliders := enabledSliders s;
     customElements := customElements s |}.

Definition setTempRefinements (x : jsmap SelectedRefinement) (s : EngineState) : EngineState :=
  {| currentNodeId := currentNodeId s; history := history s;
     tempAnswers := tempAnswers s; tempRefinements := x;
     committedAnswers := committedAnswers s;
     committedRefinements := committedRefinements s;
     weightValues := weightValues s; tempIntensities := tempIntensities s;
     touchedWeights := touchedWeights s; enabledSliders := enabledSliders s;
     customElements := customElements s |}.

Definition setCommittedAnswers (x : list SelectedAnswer) (s : EngineState) : EngineState :=
  {| currentNodeId := currentNodeId s; history := history s;
     tempAnswers := tempAnswers s; tempRefinements := tempRefinements s;
     committedAnswers := x;
     committedRefinements := committedRefinements s;
     weightValues := weightValues s; tempIntensities := tempIntensities s;
     touchedWeights := touchedWeights s; enabledSliders := enabledSliders s;
     customElements := customElements s |}.

Definition setCommittedRefinements (x : list SelectedRefinement) (s : EngineState) : EngineState :=
  {| currentNodeId := currentNodeId s; history := history s;
     tempAnswers := tempAnswers s; tempRefinements := tempRefinements s;
     committedAnswers := committedAnswers s;
     committedRefinements := x;
     weightValues := weightValues s; tempIntensities := tempIntensities s;
     touchedWeights := touchedWeights s; enabledSliders := enabledSliders s;
     customElements := customElements s |}.

Definition setWeightValues (x : jsmap WeightValue) (s : EngineState) : EngineState :=
  {| currentNodeId := currentNodeId s; history := history s;
     tempAnswers := tempAnswers s; tempRefinements := tempRefinements s;
     committedAnswers := committedAnswers s;
     committedRefinements := committedRefinements s;
     weightValues := x; tempIntensities := tempIntensities s;
     touchedWeights := touchedWeights s; enabledSliders := enabledSliders s;
     customElements := customElements s |}.

Definition setTempIntensities (x : jsmap Q) (s : EngineState) : EngineState :=
  {| currentNodeId := currentNodeId s; history := history s;
     tempAnswers := tempAnswers s; tempRefinements := tempRefinements s;
     committedAnswers := committedAnswers s;
     committedRefinements := committedRefinements s;
     weightValues := weightValues s; tempIntensities := x;
     touchedWeights := touchedWeights s; enabledSliders := enabledSliders s;
     customElements := customElements s |}.

Definition setTouchedWeights (x : list string) (s : EngineState) : EngineState :=
  {| currentNodeId := currentNodeId s; history := history s;
     tempAnswers := tempAnswers s; tempRefinements := tempRefinements s;
     committedAnswers := committedAnswers s;
     committedRefinements := committedRefinements s;
     weightValues := weightValues s; tempIntensities := tempIntensities s;
     touchedWeights := x; enabledSliders := enabledSliders s;
     customElements := customElements s |}.

Definition setEnabledSliders (x : jsmap bool) (s : EngineState) : EngineState :=
  {| currentNodeId := currentNodeId s; history := history s;
     tempAnswers := tempAnswers s; tempRefinements := tempRefinements s;
     committedAnswers := committedAnswers s;
     committedRefinements := committedRefinements s;
     weightValues := weightValues s; tempIntensities := tempIntensities s;
     touchedWeights := touchedWeights s; enabledSliders := x;
     customElements := customElements s |}.

Definition setCustomElements (x : list CustomElement) (s : EngineState) : EngineState :=
  {| currentNodeId := currentNodeId s; history := history s;
     tempAnswers := tempAnswers s; tempRefinements := tempRefinements s;
     committedAnswers := committedAnswers s;
     committedRefinements := committedRefinements s;
     weightValues := weightValues s; tempIntensities := tempIntensities s;
     touchedWeights := touchedWeights s; enabledSliders := enabledSliders s;
     customElements := x |}.

(* ================================================================= *)
(** ** useInterviewEngine.ts: selection and commit *)

(** The three [m.delete(currentNodeId)] updates that every navigation
    and the commit end with. *)
Definition clearTemp (s : EngineState) : EngineState :=
  let cur := currentNodeId s in
  setTempIntensities (mapDelete (tempIntensities s) cur)
    (setTempRefinements (mapDelete (tempRefinements s) cur)
      (setTempAnswers (mapDelete (tempAnswers s) cur) s)).

Definition findAnswer (node : InterviewNode) (answerId : string) : option Answer :=
  find (fun a => ans_id a =? answerId) (orEmpty (n_answers node)).

Definition selectTempAnswer (g : NodeMap) (answerId : string) (s : EngineState)
    : EngineState :=
  let cur := currentNodeId s in
  match mapGet g cur with
  | None => s
  | Some currentNode =>
      match findAnswer currentNode answerId with
      | None => s
      | Some answer =>
          setTempAnswers
            (mapSet (tempAnswers s) cur
               {| sa_id := "temp-" ++ cur ++ "-" ++ answerId;
                  sa_nodeId := cur;
                  sa_answerId := ans_id answer;
                  sa_label := ans_label answer;
                  sa_questionText := Some (n_question currentNode) |}) s
      end
  end.

Definition selectTempRefinement (g : NodeMap) (answerId : string) (s : EngineState)
    : EngineState :=
  let cur := currentNodeId s in
  match mapGet g cur with
  | None => s
  | Some currentNode =>
      match findAnswer currentNode answerId with
      | None => s
      | Some answer =>
          setTempIntensities
            (if mapHas (tempIntensities s) cur then tempIntensities s
             else mapSet (tempIntensities s) cur 1%Q)
            (setTempRefinements
               (mapSet (tempRefinements s) cur
                  {| sr_id := "temp-" ++ cur ++ "-" ++ answerId;
                     sr_refinementId := cur;
                     sr_answerId := ans_id answer;
                     sr_label := ans_label answer;
                     sr_questionText := Some (n_question currentNode) |}) s)
      end
  end.

(** What [Date.now()] and [Math.random()] contribute to one commit: the
    stamp of the answer's identifier, that of the refinement's, and one
    for each weight committed standalone, by its place among the weights
    of the node. *)
Record Stamps := {
  answerStamp : string;
  refinementStamp : string;
  standaloneStamp : nat -> string
}.

(** The backward walk over [history], from the entry before the last:
    the first visited node with a committed answer, or else a committed
    refinement, gives the identifier and the label. *)
Fixpoint contextWalk (answers : list SelectedAnswer)
    (refinements : list SelectedRefinement) (visited : list string)
    : option (string * string) :=
  match visited with
  | [] => None
  | prevNodeId :: earlier =>
      match find (fun a => sa_nodeId a =? prevNodeId) answers with
      | Some prevAnswer => Some (sa_id prevAnswer, sa_label prevAnswer)
      | None =>
          match find (fun r => sr_refinementId r =? prevNodeId) refinements with
          | Some prevRefinement => Some (sr_id prevRefinement, sr_label prevRefinement)
          | None => contextWalk answers refinements earlier
          end
      end
  end.

Definition contextualAnswer (s : EngineState) : option (string * string) :=
  if (1 <? List.length (history s))%nat
  then contextWalk (committedAnswers s) (committedRefinements s)
                   (rev (removelast (history s)))
  else None.

(** [weightValues.get(id)], or else the first weight of that attribute
    that is bound to no selection. *)
Definition currentWeightOf (s : EngineState) (attrId : string) : option WeightValue :=
  firstSome (mapGet (weightValues s) attrId)
            (option_map snd
               (find (fun kw => (w_attrId (snd kw) =? attrId)
                                && negb (truthy (w_associatedAnswerId (snd kw))))
                     (weightValues s))).

(** The body of [allWeights.forEach]: [s] is the state the callback
    closed over, the accumulator the place of the weight and the map the
    chained updates have built. *)
Definition commitWeight (s : EngineState) (st : Stamps)
    (finalAnswerId finalAnswerLabel : option string)
    (acc : nat * jsmap WeightValue) (weightAttr : WeightAttr)
    : nat * jsmap WeightValue :=
  let '(i, m) := acc in
  let isEnabled :=
    match mapGet (enabledSliders s) (wa_id weightAttr) with
    | Some true => true
    | _ => false
    end in
  if negb isEnabled then (S i, m)
  else if negb (arrayIncludes (touchedWeights s) (wa_id weightAttr)
                || truthy finalAnswerId) then (S i, m)
  else
    let currentWeight := currentWeightOf s (wa_id weightAttr) in
    let weightValue :=
      match currentWeight with Some cw => w_value cw | None => wa_default weightAttr end in
    let weightTags :=
      match currentWeight with Some cw => w_tags cw | None => wa_tags weightAttr end in
    if truthy finalAnswerId && truthy finalAnswerLabel then
      let weightId := "weight-" ++ optString finalAnswerId ++ "-" ++ wa_id weightAttr in
      (S i, mapSet m weightId
               {| w_id := weightId;
                  w_attrId := wa_id weightAttr;
                  w_value := weightValue;
                  w_template := wa_template weightAttr;
                  w_tags := weightTags;
                  w_associatedAnswerId := finalAnswerId;
                  w_answerLabel := finalAnswerLabel |})
    else
      let standaloneWeightId :=
        "weight-standalone-" ++ standaloneStamp st i ++ "-" ++ wa_id weightAttr in
      (S i, mapSet m standaloneWeightId
               {| w_id := standaloneWeightId;
                  w_attrId := wa_id weightAttr;
                  w_value := weightValue;
                  w_template := wa_template weightAttr;
                  w_tags := weightTags;
                  w_associatedAnswerId := None;
                  w_answerLabel := None |}).

Definition commitCurrentSelections (g : NodeMap) (st : Stamps) (s : EngineState)
    : EngineState :=
  let cur := currentNodeId s in
  let currentNode := mapGet g cur in
  let tempAnswer := mapGet (tempAnswers s) cur in
  let tempRefinement := mapGet (tempRefinements s) cur in
  let committedAnswerId :=
    match tempAnswer with
    | Some _ => Some ("sel-" ++ answerStamp st)
    | None => None
    end in
  let answerLabel :=
    let fromAnswer := option_map sa_label tempAnswer in
    match tempRefinement with
    | Some r => if truthy fromAnswer then fromAnswer else Some (sr_label r)
    | None => fromAnswer
    end in
  let answers' :=
    match tempAnswer with
    | Some a =>
        (committedAnswers s ++
           [ {| sa_id := "sel-" ++ answerStamp st;
                sa_nodeId := sa_nodeId a;
                sa_answerId := sa_answerId a;
                sa_label := sa_label a;
                sa_questionText := sa_questionText a |} ])%list
    | None => committedAnswers s
    end in
  let refinements' :=
    match tempRefinement with
    | Some r =>
        (committedRefinements s ++
           [ {| sr_id := "sel-" ++ refinementStamp st;
                sr_refinementId := sr_refinementId r;
                sr_answerId := sr_answerId r;
                sr_label := sr_label r;
                sr_questionText := sr_questionText r |} ])%list
    | None => committedRefinements s
    end in
  (* the intensity of the answer, never at the root *)
  let weights1 :=
    if negb (cur =? "root")
       && match mapGet (enabledSliders s) "intensity" with
          | Some true => true
          | _ => false
          end
       && truthy committedAnswerId && truthy answerLabel
    then
      let intensity :=
        match mapGet (tempIntensities s) cur with Some v => v | None => 1%Q end in
      let intensityWeightId := "weight-" ++ optString committedAnswerId ++ "-intensity" in
      mapSet (weightValues s) intensityWeightId
        {| w_id := intensityWeightId;
           w_attrId := "intensity";
           w_value := intensity;
           w_template := "intensity";
           w_tags := None;
           w_associatedAnswerId := committedAnswerId;
           w_answerLabel := answerLabel |}
    else weightValues s in
  (* the weights of the node *)
  let weights2 :=
    match currentNode with
    | None => weights1
    | Some node =>
        let nodeWeights := orEmpty (n_weights node) in
        let refinementWeights :=
          (flat_map (fun r => orEmpty (rn_weights r)) (orEmpty (n_refinements node))
           ++ (if startsWith cur "refine-" then orEmpty (n_weights node) else []))%list in
        let allWeights := (nodeWeights ++ refinementWeights)%list in
        let context :=
          match committedAnswerId with
          | Some _ => None
          | None => contextualAnswer s
          end in
        let finalAnswerId := orElse committedAnswerId (option_map fst context) in
        let finalAnswerLabel := orElse answerLabel (option_map snd context) in
        snd (fold_left (commitWeight s st finalAnswerId finalAnswerLabel)
                       allWeights (O, weights1))
    end in
  let touched' :=
    match currentNode with
    | None => touchedWeights s
    | Some node =>
        fold_left (fun t w => setDelete t (wa_id w)) (orEmpty (n_weights node))
                  (touchedWeights s)
    end in
  setTouchedWeights touched'
    (clearTemp
       (setWeightValues weights2
          (setCommittedRefinements refinements'
             (setCommittedAnswers answers' s)))).

(* ================================================================= *)
(** ** useInterviewEngine.ts: navigation *)

(** [setHistory(prev => [...prev, nextId]); setCurrentNodeId(nextId)] and
    the clearing of the temporary slots of the node that is left. *)
Definition moveTo (nextId : string) (s : EngineState) : EngineState :=
  setCurrentNodeId nextId
    (setHistory (history s ++ [nextId])%list (clearTemp s)).

Definition hasNoAnswers (node : InterviewNode) : bool :=
  match n_answers node with
  | None => true
  | Some l => (List.length l =? 0)%nat
  end.

Definition isWeightOnlyNsfw (node : InterviewNode) (cur : string) : bool :=
  hasNoAnswers node && startsWith cur "nsfw-" && negb (cur =? "nsfw-options").

Definition goToNext (g : NodeMap) (s : EngineState) : EngineState :=
  let cur := currentNodeId s in
  match mapGet g cur with
  | None => s
  | Some currentNode =>
      if isWeightOnlyNsfw currentNode cur && mapHas g "nsfw-options"
      then moveTo "nsfw-options" s
      else if hasNoAnswers currentNode then s
      else
        let committedForNode :=
          find (fun a => sa_nodeId a =? cur) (committedAnswers s) in
        let temp := mapGet (tempAnswers s) cur in
        match firstSome committedForNode temp with
        | None => s
        | Some navAnswerSource =>
            match findAnswer currentNode (sa_answerId navAnswerSource) with
            | None => s
            | Some answer =>
                if truthy (ans_next answer)
                then moveTo (optString (ans_next answer)) s
                else s
            end
        end
  end.

Definition skipToNext (g : NodeMap) (s : EngineState) : EngineState :=
  let cur := currentNodeId s in
  match mapGet g cur with
  | None => s
  | Some currentNode =>
      if isWeightOnlyNsfw currentNode cur then moveTo "nsfw-options" s
      else
        match
          match orEmpty (n_answers currentNode) with
          | firstAnswer :: _ =>
              if truthy (ans_next firstAnswer) then ans_next firstAnswer else None
          | [] => None
          end
        with
        | Some nextId => moveTo nextId s
        | None =>
            match orEmpty (n_refinements currentNode) with
            | firstRefinement :: _ =>
                if negb (isEmpty (rn_id firstRefinement))
                then moveTo (rn_id firstRefinement) s
                else s
            | [] => s
            end
        end
  end.

Definition previous (s : EngineState) : EngineState :=
  if (List.length (history s) <=? 1)%nat then s
  else
    let newHistory := removelast (history s) in
    let prevNodeId := last newHistory EmptyString in
    setCurrentNodeId prevNodeId (setHistory newHistory (clearTemp s)).

(** [if (!history.includes(nodeId)) setHistory(prev => [...prev, nodeId])]. *)
Definition visit (nodeId : string) (s : EngineState) : EngineState :=
  if arrayIncludes (history s) nodeId then s
  else setHistory (history s ++ [nodeId])%list s.

Definition jumpTo (g : NodeMap) (nodeId : string) (s : EngineState) : EngineState :=
  if negb (mapHas g nodeId) then s
  else visit nodeId (setCurrentNodeId nodeId (clearTemp s)).

Definition jumpToCategory (g : NodeMap) (nodeId : string) (s : EngineState)
    : EngineState :=
  if negb (mapHas g nodeId) then s
  else visit nodeId (setCurrentNodeId nodeId s).

Definition reset (s : EngineState) : EngineState := initialState.

(* ================================================================= *)
(** ** useInterviewEngine.ts: sliders, custom elements, removal, preview *)

Definition setIntensity (nodeId : string) (value : Q) (s : EngineState) : EngineState :=
  setTempIntensities (mapSet (tempIntensities s) nodeId value) s.

Definition setSliderEnabled (attrId : string) (enabled : bool) (s : EngineState)
    : EngineState :=
  setEnabledSliders (mapSet (enabledSliders s) attrId enabled) s.

Definition setWeight (attrId : string) (value : Q) (template : string)
    (tags : option (list string)) (s : EngineState) : EngineState :=
  let existingWeight :=
    find (fun kw => (w_attrId (snd kw) =? attrId)
                    && negb (truthy (w_associatedAnswerId (snd kw))))
         (weightValues s) in
  let weights :=
    match existingWeight with
    | Some (key, w) =>
        mapSet (weightValues s) key
          {| w_id := w_id w; w_attrId := w_attrId w; w_value := value;
             w_template := template; w_tags := tags;
             w_associatedAnswerId := w_associatedAnswerId w;
             w_answerLabel := w_answerLabel w |}
    | None =>
        mapSet (weightValues s) attrId
          {| w_id := "temp-" ++ attrId; w_attrId := attrId; w_value := value;
             w_template := template; w_tags := tags;
             w_associatedAnswerId := None; w_answerLabel := None |}
    end in
  setTouchedWeights (setAdd (touchedWeights s) attrId) (setWeightValues weights s).

(** [xs.map((item, i) => i === index ? f(item) : item)]. *)
Fixpoint updateAt {A} (f : A -> A) (index : nat) (xs : list A) : list A :=
  match xs, index with
  | [], _ => []
  | x :: r, O => f x :: r
  | x :: r, S i => x :: updateAt f i r
  end.

(** [xs.filter((_, i) => i !== index)]. *)
Fixpoint removeAt {A} (index : nat) (xs : list A) : list A :=
  match xs, index with
  | [], _ => []
  | _ :: r, O => r
  | x :: r, S i => x :: removeAt i r
  end.

Definition addCustomElement (element : string) (s : EngineState) : EngineState :=
  setCustomElements
    (customElements s ++
       [ {| ce_text := element; ce_enabled := false; ce_type := TypePrompt |} ])%list s.

Definition setCustomElementType (index : nat) (ty : ElementType) (s : EngineState)
    : EngineState :=
  setCustomElements
    (updateAt (fun item => {| ce_text := ce_text item; ce_enabled := ce_enabled item;
                              ce_type := ty |}) index (customElements s)) s.

Definition removeCustomElement (index : nat) (s : EngineState) : EngineState :=
  setCustomElements (removeAt index (customElements s)) s.

Definition toggleCustomElement (index : nat) (s : EngineState) : EngineState :=
  setCustomElements
    (updateAt (fun item => {| ce_text := ce_text item;
                              ce_enabled := negb (ce_enabled item);
                              ce_type := ce_type item |}) index (customElements s)) s.

(** [weight.associatedAnswerId === selectionId]. *)
Definition boundTo (selectionId : string) (w : WeightValue) : bool :=
  optStringEq (w_associatedAnswerId w) (Some selectionId).

Definition removeSelection (selectionId : string) (s : EngineState) : EngineState :=
  setWeightValues
    (filter (fun kw => negb (boundTo selectionId (snd kw))) (weightValues s))
    (setCommittedRefinements
       (filter (fun r => negb (sr_id r =? selectionId)) (committedRefinements s))
       (setCommittedAnswers
          (filter (fun a => negb (sa_id a =? selectionId)) (committedAnswers s)) s)).

(** The filter of [getPreviewPrompt]:
    [!w.associatedAnswerId || committedAnswerIds.has(w.associatedAnswerId)]. *)
Definition previewKeeps (answers : list SelectedAnswer) (w : WeightValue) : bool :=
  negb (truthy (w_associatedAnswerId w))
  || arrayIncludes (map sa_id answers) (optString (w_associatedAnswerId w)).

Definition previewWeights (s : EngineState) : list WeightValue :=
  filter (previewKeeps (committedAnswers s)) (mapValues (weightValues s)).

Definition getPreviewPrompt (sanitizeTemplate : string -> list string -> string)
    (s : EngineState) : Prompts :=
  assemblePrompt sanitizeTemplate (committedAnswers s) (committedRefinements s)
                 (previewWeights s) (customElements s).

(* ================================================================= *)
(** ** The operations of the hook as events *)

Inductive Operation :=
| OpSelectTempAnswer (answerId : string)
| OpSelectTempRefinement (answerId : string)
| OpSetIntensity (nodeId : string) (value : Q)
| OpCommitCurrentSelections (st : Stamps)
| OpRemoveSelection (selectionId : string)
| OpGoToNext
| OpSkipToNext
| OpPrevious
| OpJumpTo (nodeId : string)
| OpJumpToCategory (nodeId : string)
| OpSetWeight (attrId : string) (value : Q) (template : string)
              (tags : option (list string))
| OpSetWeightValues (weights : jsmap WeightValue)
| OpSetSliderEnabled (attrId : string) (enabled : bool)
| OpAddCustomElement (element : string)
| OpRemoveCustomElement (index : nat)
| OpToggleCustomElement (index : nat)
| OpSetCustomElementType (index : nat) (ty : ElementType)
| OpReset.

Definition perform (g : NodeMap) (op : Operation) (s : EngineState) : EngineState :=
  match op with
  | OpSelectTempAnswer a => selectTempAnswer g a s
  | OpSelectTempRefinement a => selectTempRefinement g a s
  | OpSetIntensity n v => setIntensity n v s
  | OpCommitCurrentSelections st => commitCurrentSelections g st s
  | OpRemoveSelection i => removeSelection i s
  | OpGoToNext => goToNext g s
  | OpSkipToNext => skipToNext g s
  | OpPrevious => previous s
  | OpJumpTo n => jumpTo g n s
  | OpJumpToCategory n => jumpToCategory g n s
  | OpSetWeight a v t ts => setWeight a v t ts s
  | OpSetWeightValues m => setWeightValues m s
  | OpSetSliderEnabled a e => setSliderEnabled a e s
  | OpAddCustomElement e => addCustomElement e s
  | OpRemoveCustomElement i => removeCustomElement i s
  | OpToggleCustomElement i => toggleCustomElement i s
  | OpSetCustomElementType i ty => setCustomElementType i ty s
  | OpReset => reset s
  end.

(** The state after a sequence of operations, the first one first. *)
Definition run (g : NodeMap) (ops : list Operation) (s : EngineState) : EngineState :=
  fold_left (fun st op => perform g op st) ops s.

(** The states a session can be in. *)
Inductive reachable (g : NodeMap) : EngineState -> Prop :=
| reach_start : reachable g initialState
| reach_step s op : reachable g s -> reachable g (perform g op s).

(** [n] calls of [previous]. *)
Fixpoint previousTimes (n : nat) (s : EngineState) : EngineState :=
  match n with
  | O => s
  | S m => previousTimes m (previous s)
  end.

(** [goToNext] moved: it pushed a node on the history. *)
Definition advances (g : NodeMap) (s : EngineState) : Prop :=
  exists nextId, goToNext g s = moveTo nextId s.

(** [n] successful advances lead from [s] to [s']; between two of them
    the session may do anything that keeps the position (select, commit,
    move a slider). *)
Inductive advancedBy (g : NodeMap) : nat -> EngineState -> EngineState -> Prop :=
| advanced_0 s : advancedBy g O s s
| advanced_S n s m s' :
    history m = history s ->
    currentNodeId m = currentNodeId s ->
    advances g m ->
    advancedBy g n (goToNext g m) s' ->
    advancedBy g (S n) s s'.

(* ================================================================= *)
(** ** Notions the statements use *)

(** A string that is not empty and that [toLowerCase] and [trim] leave alone. *)
Definition settled (s : string) : Prop :=
  s <> "" /\ toLowerCase s = s /\ trimStart s = s /\ trimEnd s = s.

(** A prefix that keeps a settled string settled. *)
Definition goodPrefix (p : string) : bool :=
  match p with
  | String c _ => negb (isWhiteSpace c) && (toLowerCase p =? p)
  | EmptyString => false
  end.

(** The tags whose rule looks for its keyword before it prefixes, and
    whose prefix contains that keyword. The table has three more:
    "hair" and "materials" rewrite without such a test, and the prefix
    "facial " of "face" does not contain "face". *)
Definition guardedTags : list string :=
  [ "eyes"; "environment"; "lighting"; "camera"; "color"; "clothing";
    "fabric"; "armor"; "magic"; "expression"; "pose" ].

Definition keywordOf (tag : string) : string :=
  if tag =? "eyes" then "eye"
  else if tag =? "lighting" then "light"
  else tag.

Definition prefixOf (tag : string) : string :=
  if tag =? "eyes" then "eye "
  else if tag =? "color" then "color style "
  else if tag =? "magic" then "magical "
  else tag ++ " ".

(** The one rewrite among the guarded rules that replaces the template. *)
Definition depthCase (t tag : string) : bool :=
  (tag =? "environment") && includes t "depth".

Definition normalizeLoop (tags : list string) (t : string) : string :=
  fold_left applyRule tags t.

(** No rule of [tags] will take the "depth" branch on [t]. *)
Definition plainFor (tags : list string) (t : string) : Prop :=
  includes t "depth" = false \/ ~ In "environment" tags.

(** What the topic rules append to the label, and the four phrases of
    the otherworldly block. *)
Definition topicSuffixes : list string :=
  [ " intensity level"; " emotional expression"; " stylistic effect";
    " camera perspective adjustment"; " lighting effect"; " hair appearance";
    " physical trait"; " visual effect" ].

Definition otherworldPhrases : list string :=
  [ "subtle otherworldly presence"; "moderate degree of otherworldly traits";
    "strongly pronounced supernatural features";
    "extremely vivid otherworldly appearance" ].

(** None of the phrases the generic rules can return for the label [a]
    lower-cases and trims to [a]. *)
Definition rewrittenAway (a : string) : bool :=
  forallb (fun phrase => negb (trim (toLowerCase phrase) =? a))
          (otherworldPhrases ++ map (append a) topicSuffixes).

(** The text under which the loop over the weights remembers a weight
    in [seen], which is also the text of its fragment; [None] for a
    weight the loop returns from before it sanitizes anything (an
    intensity bound to a root answer, or without a label). *)
Definition weightKey (sanitizeTemplate : string -> list string -> string)
    (answers : list SelectedAnswer) (w : WeightValue) : option string :=
  if w_attrId w =? "intensity" then
    if truthy (w_answerLabel w) && negb (isRootAnswer answers w)
    then Some (sanitizeTemplate (toLowerCase (optString (w_answerLabel w))) (tagsOrEmpty w))
    else None
  else Some (sanitizeTemplate (normalizeTemplate (prefixedTemplate w) (tagsOrEmpty w))
                              (tagsOrEmpty w)).

(** The set [seen] and the fragments pushed, after the loop has run
    over [ws] from a given [seen]. *)
Definition seenFrom (sanitizeTemplate : string -> list string -> string)
    (answers : list SelectedAnswer) (seen : list string) (ws : list WeightValue)
    : list string :=
  fst (fold_left (weightStep sanitizeTemplate answers) ws (seen, [])).

Definition partsFrom (sanitizeTemplate : string -> list string -> string)
    (answers : list SelectedAnswer) (seen : list string) (ws : list WeightValue)
    : list string :=
  snd (fold_left (weightStep sanitizeTemplate answers) ws (seen, [])).

(** The fragments of the weights in the assembled prompt. *)
Definition weightParts (sanitizeTemplate : string -> list string -> string)
    (answers : list SelectedAnswer) (ws : list WeightValue) : list string :=
  partsFrom sanitizeTemplate answers [] ws.

Definition seenAfter (sanitizeTemplate : string -> list string -> string)
    (answers : list SelectedAnswer) (ws : list WeightValue) : list string :=
  seenFrom sanitizeTemplate answers [] ws.

(** The weight normalizes and sanitizes to the text [t]. *)
Definition hasText (sanitizeTemplate : string -> list string -> string)
    (answers : list SelectedAnswer) (t : string) (w : WeightValue) : bool :=
  optStringEq (weightKey sanitizeTemplate answers w) (Some t).

(** The first weight of the collection with the text [t], the weights
    before it and the weights after it. *)
Definition firstWithText (sanitizeTemplate : string -> list string -> string)
    (answers : list SelectedAnswer) (t : string) (ws : list WeightValue)
    : option WeightValue :=
  find (hasText sanitizeTemplate answers t) ws.

Fixpoint beforeText (sanitizeTemplate : string -> list string -> string)
    (answers : list SelectedAnswer) (t : string) (ws : list WeightValue)
    : list WeightValue :=
  match ws with
  | [] => []
  | w :: r =>
      if hasText sanitizeTemplate answers t w then []
      else w :: beforeText sanitizeTemplate answers t r
  end.

Fixpoint afterText (sanitizeTemplate : string -> list string -> string)
    (answers : list SelectedAnswer) (t : string) (ws : list WeightValue)
    : list WeightValue :=
  match ws with
  | [] => []
  | w :: r =>
      if hasText sanitizeTemplate answers t w then r
      else afterText sanitizeTemplate answers t r
  end.

Definition isDigit (c : ascii) : bool :=
  let n := N_of_ascii c in ((48 <=? n) && (n <=? 57))%N.

Fixpoint allChars (p : ascii -> bool) (s : string) : bool :=
  match s with
  | EmptyString => true
  | String c r => p c && allChars p r
  end.

(** The characters before the point: digits and the sign. *)
Definition isWholeChar (c : ascii) : bool := isDigit c || Ascii.eqb c "-".

Definition notColon (c : ascii) : bool := negb (Ascii.eqb c ":").

(** What the subject extraction finds in a stored question text. *)
Definition questionSubject (questionText : option string) : option string :=
  if truthy questionText
  then matchSubject (toLowerCase (optString questionText))
  else None.

(** The current node is the last entry of the history. *)
Definition currentOnTop (s : EngineState) : Prop :=
  exists earlier, history s = (earlier ++ [currentNodeId s])%list.

(* ================================================================= *)
(** ** A small graph and a sanitizer to run the engine on *)

(** A sanitizer that changes nothing, for the runs below. *)
Definition plainSanitizer (template : string) (tags : list string) : string :=
  template.

Definition shineWeight : WeightAttr :=
  {| wa_id := "shine"; wa_label := "Shine"; wa_template := "shine";
     wa_min := 0; wa_max := 2; wa_step := 1 # 100; wa_default := 1;
     wa_tags := Some ["lighting"] |}.

Definition demoGraph : NodeMap :=
  [ ("root",
     {| n_id := "root"; n_question := "Who is the subject?";
        n_answers := Some [ {| ans_id := "male"; ans_label := "Male"; ans_next := None |};
                            {| ans_id := "styled"; ans_label := "Styled";
                               ans_next := Some "refine-hair" |} ];
        n_weights := None; n_refinements := None |});
    ("refine-hair",
     {| n_id := "refine-hair"; n_question := "What is the hair length?";
        n_answers := Some [ {| ans_id := "long"; ans_label := "Long";
                               ans_next := Some "hair-detail" |};
                            {| ans_id := "short"; ans_label := "Short"; ans_next := None |} ];
        n_weights := None; n_refinements := None |});
    ("hair-detail",
     {| n_id := "hair-detail"; n_question := "Hair details";
        n_answers := None; n_weights := Some [shineWeight]; n_refinements := None |}) ].

Definition stamps (a r : string) : Stamps :=
  {| answerStamp := a; refinementStamp := r; standaloneStamp := fun _ => "0" |}.

Definition maleAtRoot (id answerId : string) (questionText : option string)
    : SelectedAnswer :=
  {| sa_id := id; sa_nodeId := "root"; sa_answerId := answerId;
     sa_label := "Male"; sa_questionText := questionText |}.

(** A weight of the slider "shine", bound to no selection. *)
Definition shineAt (id : string) (value : Q) : WeightValue :=
  {| w_id := id; w_attrId := "shine"; w_value := value; w_template := "shine";
     w_tags := Some ["lighting"]; w_associatedAnswerId := None;
     w_answerLabel := None |}.

(** Two committed answers with the same label at two nodes, each with
    its intensity weight, as two commits with the intensity slider
    enabled leave them. *)
Definition longHair : SelectedAnswer :=
  {| sa_id := "sel-1"; sa_nodeId := "character-hair"; sa_answerId := "long";
     sa_label := "Long"; sa_questionText := None |}.

Definition longLegs : SelectedAnswer :=
  {| sa_id := "sel-2"; sa_nodeId := "character-legs"; sa_answerId := "long";
     sa_label := "Long"; sa_questionText := None |}.

Definition intensityOf (a : SelectedAnswer) (value : Q) : WeightValue :=
  {| w_id := "weight-" ++ sa_id a ++ "-intensity";
     w_attrId := "intensity";
     w_value := value;
     w_template := "intensity";
     w_tags := None;
     w_associatedAnswerId := Some (sa_id a);
     w_answerLabel := Some (sa_label a) |}.

(** The demo session after an advance from the root and a jump back to
    it, with an answer selected again. *)
Definition afterJumpBack : EngineState :=
  run demoGraph
      [ OpSelectTempAnswer "styled"; OpGoToNext; OpJumpTo "root";
        OpSelectTempAnswer "styled" ] initialState.

(** The demo session after an answer committed at the root, a refinement
    committed at "refine-hair" and, at "hair-detail", a commit with the
    slider of "shine" enabled and nothing selected. *)
Definition afterSliderCommit : EngineState :=
  run demoGraph
      [ OpSelectTempAnswer "styled"; OpCommitCurrentSelections (stamps "1" "2");
        OpGoToNext;
        OpSelectTempRefinement "long"; OpCommitCurrentSelections (stamps "3" "4");
        OpSkipToNext;
        OpSetSliderEnabled "shine" true; OpCommitCurrentSelections (stamps "5" "6") ]
      initialState.

(** The refinement and the weight that [afterSliderCommit] holds. *)
Definition longRefinement : SelectedRefinement :=
  {| sr_id := "sel-4"; sr_refinementId := "refine-hair"; sr_answerId := "long";
     sr_label := "Long"; sr_questionText := Some "What is the hair length?" |}.

Definition shineOnLong : WeightValue :=
  {| w_id := "weight-sel-4-shine"; w_attrId := "shine"; w_value := 1;
     w_template := "shine"; w_tags := Some ["lighting"];
     w_associatedAnswerId := Some "sel-4"; w_answerLabel := Some "Long" |}.

(* ================================================================= *)
(** ** useInterviewEngine.ts: the node map and the queries *)

(** What one JSON file of the interview contributes: an array of nodes,
    one node (kept when its id is not empty), or anything else. *)
Inductive InterviewFile :=
| FileArray (nodes : list InterviewNode)
| FileObject (node : InterviewNode)
| FileOther.

(** The loop that fills [nodeMap] from the files, in their order. *)
Definition loadFile (m : NodeMap) (file : InterviewFile) : NodeMap :=
  match file with
  | FileArray nodes => fold_left (fun m' node => mapSet m' (n_id node) node) nodes m
  | FileObject node => if negb (isEmpty (n_id node)) then mapSet m (n_id node) node else m
  | FileOther => m
  end.

Definition buildNodeMap (files : list InterviewFile) : NodeMap :=
  fold_left loadFile files [].

Definition categoryHasCommittedSelections (s : EngineState)
    (categoryNodes : list string) : bool :=
  existsb
    (fun nodeId =>
       existsb (fun a => sa_nodeId a =? nodeId) (committedAnswers s)
       || existsb (fun r => sr_refinementId r =? nodeId) (committedRefinements s)
       || existsb
            (fun w =>
               let associatedAnswer :=
                 find (fun a => optStringEq (Some (sa_id a)) (w_associatedAnswerId w))
                      (committedAnswers s) in
               let associatedRefinement :=
                 find (fun r => optStringEq (Some (sr_id r)) (w_associatedAnswerId w))
                      (committedRefinements s) in
               match associatedAnswer with
               | Some a => sa_nodeId a =? nodeId
               | None => false
               end
               || match associatedRefinement with
                  | Some r => sr_refinementId r =? nodeId
                  | None => false
                  end)
            (mapValues (weightValues s)))
    categoryNodes.

(** [isFinished]; where the source returns [undefined] (a refinement
    node without an array of answers) the model returns [false]. *)
Definition isFinished (g : NodeMap) (s : EngineState) : bool :=
  let cur := currentNodeId s in
  match mapGet g cur with
  | None => true
  | Some currentNode =>
      if startsWith cur "refine-" then
        let hasSelectedRefinement :=
          existsb (fun r => sr_refinementId r =? cur) (committedRefinements s)
          || mapHas (tempRefinements s) cur in
        if negb hasSelectedRefinement then false
        else
          match n_answers currentNode with
          | Some answers => forallb (fun a => negb (truthy (ans_next a))) answers
          | None => false
          end
      else if hasNoAnswers currentNode then true
      else
        forallb
          (fun a => negb (truthy (ans_next a))
                    && match n_refinements currentNode with
                       | None => true
                       | Some rs => (List.length rs =? 0)%nat
                       end)
          (orEmpty (n_answers currentNode))
  end.

(** A node of the map read as a refinement node, as the cast of the
    source does. *)
Definition asRefinement (node : InterviewNode) : RefinementNode :=
  {| rn_id := n_id node; rn_question := n_question node;
     rn_answers := n_answers node; rn_weights := n_weights node |}.

Definition getCurrentRefinement (g : NodeMap) (s : EngineState)
    : option RefinementNode :=
  let cur := currentNodeId s in
  let direct :=
    match mapGet g cur with
    | Some node =>
        if startsWith cur "refine-"
           && negb (existsb (fun a => truthy (ans_next a)) (orEmpty (n_answers node)))
        then Some (asRefinement node)
        else None
    | None => None
    end in
  match direct with
  | Some r => Some r
  | None =>
      match mapGet g cur with
      | None => None
      | Some currentNode =>
          find (fun refinement =>
                  negb (existsb (fun r => sr_refinementId r =? rn_id refinement)
                                (committedRefinements s))
                  && negb (mapHas (tempRefinements s) (rn_id refinement)))
               (orEmpty (n_refinements currentNode))
      end
  end.

(** [{...weight, value: currentValue?.value ?? weight.default}]. *)
Definition activeWeight (s : EngineState) (weight : WeightAttr) : WeightAttr * Q :=
  (weight,
   match mapGet (weightValues s) (wa_id weight) with
   | Some currentValue => w_value currentValue
   | None => wa_default weight
   end).

Definition getActiveWeights (g : NodeMap) (s : EngineState) : list (WeightAttr * Q) :=
  (map (activeWeight s)
       match mapGet g (currentNodeId s) with
       | Some currentNode => orEmpty (n_weights currentNode)
       | None => []
       end
   ++ map (activeWeight s)
        match getCurrentRefinement g s with
        | Some currentRefinement => orEmpty (rn_weights currentRefinement)
        | None => []
        end)%list.

Definition stepCount (s : EngineState) : nat := List.length (history s).

Record SummaryEntry := {
  se_id : string;
  se_nodeId : string;
  se_question : string;
  se_answerLabel : string
}.

(** [committedAnswers.map(...).filter(Boolean)]. *)
Definition getSelectionSummary (g : NodeMap) (s : EngineState) : list SummaryEntry :=
  flat_map
    (fun ans =>
       match mapGet g (sa_nodeId ans) with
       | None => []
       | Some node =>
           [ {| se_id := sa_id ans; se_nodeId := sa_nodeId ans;
                se_question := n_question node; se_answerLabel := sa_label ans |} ]
       end)
    (committedAnswers s).

Definition hasTempSelectionForCurrentNode (s : EngineState) : bool :=
  mapHas (tempAnswers s) (currentNodeId s)
  || mapHas (tempRefinements s) (currentNodeId s).

Definition hasCommittedSelectionForCurrentNode (s : EngineState) : bool :=
  existsb (fun a => sa_nodeId a =? currentNodeId s) (committedAnswers s)
  || existsb (fun r => sr_refinementId r =? currentNodeId s) (committedRefinements s).

(* ================================================================= *)
(** ** More notions for the statements *)

(** [s.endsWith(k)]. *)
Fixpoint endsWith (s k : string) : bool :=
  (s =? k)
  || match s with
     | EmptyString => false
     | String _ r => endsWith r k
     end.

Definition notLineTerminator (c : ascii) : bool := negb (isLineTerminator c).

(** The tags of the rule table. *)
Definition tableTags : list string :=
  [ "hair"; "eyes"; "face"; "environment"; "lighting"; "camera"; "color";
    "materials"; "clothing"; "fabric"; "armor"; "magic"; "expression"; "pose" ].

(** The keys of a map are distinct, as those of a [Map] are. *)
Definition distinctKeys {V} (m : jsmap V) : Prop := NoDup (map fst m).

(** The nodes that the loading loop sets, in the order it sets them. *)
Definition loadedNodes (files : list InterviewFile) : list InterviewNode :=
  flat_map (fun file =>
              match file with
              | FileArray nodes => nodes
              | FileObject node => if negb (isEmpty (n_id node)) then [node] else []
              | FileOther => []
              end) files.

(** A selection is an answer of its node: the node is in the graph, the
    answer is one of its answers, and the label and the question text
    are the answer's and the node's. *)
Definition answerOfGraph (g : NodeMap) (nodeId answerId label : string)
    (questionText : option string) : Prop :=
  exists node answer,
    mapGet g nodeId = Some node
    /\ findAnswer node answerId = Some answer
    /\ ans_id answer = answerId
    /\ label = ans_label answer
    /\ questionText = Some (n_question node).

(** Every weight bound to a selection is bound to a committed one. *)
Definition weightsBound (s : EngineState) : Prop :=
  forall w, In w (mapValues (weightValues s)) ->
    truthy (w_associatedAnswerId w) = true ->
    (exists a, In a (committedAnswers s) /\ w_associatedAnswerId w = Some (sa_id a))
    \/ (exists r, In r (committedRefinements s)
                  /\ w_associatedAnswerId w = Some (sr_id r)).

(** The operations of the interface proper: all but the raw setter of
    the weight map, which the hook also returns. *)
Definition isRawSetter (op : Operation) : bool :=
  match op with
  | OpSetWeightValues _ => true
  | _ => false
  end.

(** No slider is enabled. *)
Definition noSliderEnabled (s : EngineState) : Prop :=
  forall attrId, mapGet (enabledSliders s) attrId <> Some true.

(** The first weight of an attribute that is bound to no selection,
    which [setWeight] updates and the commit falls back on. *)
Definition uncommittedWeight (m : jsmap WeightValue) (attrId : string)
    : option (string * WeightValue) :=
  find (fun kw => (w_attrId (snd kw) =? attrId)
                  && negb (truthy (w_associatedAnswerId (snd kw)))) m.

(** The node is a weight-only node of the NSFW branch and the hub it
    returns to exists: the one case in which [goToNext] moves without
    an answer. *)
Definition nsfwDetour (g : NodeMap) (s : EngineState) : bool :=
  match mapGet g (currentNodeId s) with
  | Some node => isWeightOnlyNsfw node (currentNodeId s) && mapHas g "nsfw-options"
  | None => false
  end.

(** The labels for which the anatomical branch has a phrase and which
    can reach it: the shape keywords and nine of the twelve intensity
    adjectives. *)
Definition anatomicalKeys : list string :=
  (BREAST_SHAPE_KEYWORDS
   ++ [ "subtle"; "moderate"; "pronounced"; "strong"; "intense"; "minimal";
        "extreme"; "soft"; "hard" ])%list.

(** The phrase of the anatomical branch for [a] does not lower-case and
    trim to [a] (the fallback of the branch is replaced by a marker). *)
Definition anatomicalPhraseDiffers (a : string) : bool :=
  negb (trim (toLowerCase (breastExpansion a "?")) =? a).

(** The sessions of the interface proper. *)
Inductive uiReachable (g : NodeMap) : EngineState -> Prop :=
| ui_start : uiReachable g initialState
| ui_step s op :
    isRawSetter op = false -> uiReachable g s -> uiReachable g (perform g op s).

(** The temporary answers are answers of the graph, each under the id
    of its node. *)
Definition tempAnswersSound (g : NodeMap) (s : EngineState) : Prop :=
  forall k a, In (k, a) (tempAnswers s) ->
    sa_nodeId a = k
    /\ answerOfGraph g k (sa_answerId a) (sa_label a) (sa_questionText a).

Definition tempRefinementsSound (g : NodeMap) (s : EngineState) : Prop :=
  forall k r, In (k, r) (tempRefinements s) ->
    sr_refinementId r = k
    /\ answerOfGraph g k (sr_answerId r) (sr_label r) (sr_questionText r).

(** The row of the summary for a committed answer. *)
Definition summaryOf (a : SelectedAnswer) : SummaryEntry :=
  {| se_id := sa_id a; se_nodeId := sa_nodeId a;
     se_question := optString (sa_questionText a); se_answerLabel := sa_label a |}.

(** A committed answer at a hair node. *)
Definition curlyHair : SelectedAnswer :=
  {| sa_id := "sel-1"; sa_nodeId := "character-hair";
     sa_answerId := "curly"; sa_label := "Curly";
     sa_questionText := Some "What is the hair texture?" |}.

(** The operations that leave a node, and clear its temporary slots:
    next, skip, previous and the plain jump. *)
Definition isNavigation (op : Operation) : bool :=
  match op with
  | OpGoToNext | OpSkipToNext | OpPrevious | OpJumpTo _ => true
  | _ => false
  end.

(** The three temporary maps of a state. *)
Definition tempSlots (s : EngineState)
    : jsmap SelectedAnswer * jsmap SelectedRefinement * jsmap Q :=
  (tempAnswers s, tempRefinements s, tempIntensities s).

(** The demo session with an answer selected at the root. *)
Definition styledSelected : EngineState :=
  run demoGraph [ OpSelectTempAnswer "styled" ] initialState.

(** The selection a commit binds the weights of the node to: the answer
    it commits, or else the one the backward walk finds. *)
Definition commitBinding (st : Stamps) (s : EngineState) : option string :=
  match mapGet (tempAnswers s) (currentNodeId s) with
  | Some _ => Some ("sel-" ++ answerStamp st)
  | None => option_map fst (contextualAnswer s)
  end.

(** The committed selections are answers of the graph and carry ids
    made by a commit. *)
Definition committedSound (g : NodeMap) (s : EngineState) : Prop :=
  (forall a, In a (committedAnswers s) ->
     answerOfGraph g (sa_nodeId a) (sa_answerId a) (sa_label a) (sa_questionText a)
     /\ startsWith (sa_id a) "sel-" = true)
  /\ (forall r, In r (committedRefinements s) ->
        answerOfGraph g (sr_refinementId r) (sr_answerId r) (sr_label r)
                      (sr_questionText r)
        /\ startsWith (sr_id r) "sel-" = true).

(** The operations that change the committed selections. *)
Definition changesCommitted (op : Operation) : bool :=
  match op with
  | OpCommitCurrentSelections _ | OpRemoveSelection _ | OpReset => true
  | _ => false
  end.

(** The operations that change the weight map. *)
Definition changesWeights (op : Operation) : bool :=
  match op with
  | OpSetWeight _ _ _ _ | OpSetWeightValues _ => true
  | _ => changesCommitted op
  end.

(** The demo session just before the commit of the slider. *)
Definition sliderReady : EngineState :=
  run demoGraph
      [ OpSelectTempAnswer "styled"; OpCommitCurrentSelections (stamps "1" "2");
        OpGoToNext;
        OpSelectTempRefinement "long"; OpCommitCurrentSelections (stamps "3" "4");
        OpSkipToNext;
        OpSetSliderEnabled "shine" true ]
      initialState.

(** The node has a committed answer or a committed refinement. *)
Definition hasCommittedAt (s : EngineState) (nodeId : string) : bool :=
  existsb (fun a => sa_nodeId a =? nodeId) (committedAnswers s)
  || existsb (fun r => sr_refinementId r =? nodeId) (committedRefinements s).

(** The operations that can change the preview: those that change the
    committed selections or the weights, and those of the custom
    elements. *)
Definition changesPreview (op : Operation) : bool :=
  match op with
  | OpAddCustomElement _ | OpRemoveCustomElement _ | OpToggleCustomElement _
  | OpSetCustomElementType _ _ => true
  | _ => changesWeights op
  end.

(** [allWeights] of the commit: the sliders of the node, those of its
    refinements and, at a refinement node, those of the node again. *)
Definition nodeSliders (node : InterviewNode) (cur : string) : list WeightAttr :=
  (orEmpty (n_weights node)
   ++ (flat_map (fun r => orEmpty (rn_weights r)) (orEmpty (n_refinements node))
       ++ (if startsWith cur "refine-" then orEmpty (n_weights node) else [])))%list.

(** The intensity weight that a commit stores for the answer it commits. *)
Definition committedIntensity (st : Stamps) (a : SelectedAnswer) (value : Q)
    : WeightValue :=
  {| w_id := "weight-sel-" ++ answerStamp st ++ "-intensity";
     w_attrId := "intensity";
     w_value := value;
     w_template := "intensity";
     w_tags := None;
     w_associatedAnswerId := Some ("sel-" ++ answerStamp st);
     w_answerLabel := Some (sa_label a) |}.

(** The demo session at "refine-hair", with the intensity slider
    enabled and the answer "Long" selected. *)
Definition longSelected : EngineState :=
  run demoGraph
      [ OpSelectTempAnswer "styled"; OpCommitCurrentSelections (stamps "1" "2");
        OpGoToNext; OpSetSliderEnabled "intensity" true;
        OpSelectTempAnswer "long" ]
      initialState.

(** A graph whose root leads to a last refinement node with a slider,
    and the session that has moved there. *)
Definition glossGraph : NodeMap :=
  [ ("root",
     {| n_id := "root"; n_question := "Who is the subject?";
        n_answers := Some [ {| ans_id := "styled"; ans_label := "Styled";
                               ans_next := Some "refine-gloss" |} ];
        n_weights := None; n_refinements := None |});
    ("refine-gloss",
     {| n_id := "refine-gloss"; n_question := "What is the finish like?";
        n_answers := Some [ {| ans_id := "matte"; ans_label := "Matte";
                               ans_next := None |} ];
        n_weights := Some [shineWeight]; n_refinements := None |}) ].

Definition atGloss : EngineState :=
  run glossGraph [ OpSelectTempAnswer "styled"; OpGoToNext ] initialState.

(* ================================================================= *)
(** * Properties *)

(** Split a conjunction into its parts, and nothing else. *)
Ltac split_all := repeat match goal with |- _ /\ _ => split end.

(* ================================================================= *)
(** ** Strings *)

Lemma lowerChar_idem c : lowerChar (lowerChar c) = lowerChar c.
Proof.
  destruct c as [[] [] [] [] [] [] [] []]; reflexivity.
Qed.

Lemma isWhiteSpace_lowerChar c : isWhiteSpace (lowerChar c) = isWhiteSpace c.
Proof.
  destruct c as [[] [] [] [] [] [] [] []]; reflexivity.
Qed.

Lemma toLowerCase_idem s : toLowerCase (toLowerCase s) = toLowerCase s.
Proof.
  induction s as [|c r IH]; simpl; [reflexivity|].
  now rewrite lowerChar_idem, IH.
Qed.

Lemma toLowerCase_app s t : toLowerCase (s ++ t) = toLowerCase s ++ toLowerCase t.
Proof.
  induction s as [|c r IH]; simpl; [reflexivity|]. now rewrite IH.
Qed.

Lemma isEmpty_toLowerCase s : isEmpty (toLowerCase s) = isEmpty s.
Proof. destruct s; reflexivity. Qed.

Lemma toLowerCase_trimStart s : toLowerCase (trimStart s) = trimStart (toLowerCase s).
Proof.
  induction s as [|c r IH]; simpl; [reflexivity|].
  rewrite isWhiteSpace_lowerChar.
  destruct (isWhiteSpace c); [exact IH | reflexivity].
Qed.

Lemma toLowerCase_trimEnd s : toLowerCase (trimEnd s) = trimEnd (toLowerCase s).
Proof.
  induction s as [|c r IH]; simpl; [reflexivity|].
  rewrite isWhiteSpace_lowerChar, <- IH, isEmpty_toLowerCase.
  destruct (isWhiteSpace c && isEmpty (trimEnd r)); reflexivity.
Qed.

Lemma toLowerCase_trim s : toLowerCase (trim s) = trim (toLowerCase s).
Proof.
  unfold trim. now rewrite toLowerCase_trimEnd, toLowerCase_trimStart.
Qed.

Lemma isEmpty_false s : s <> "" -> isEmpty s = false.
Proof. destruct s; [congruence | reflexivity]. Qed.

Lemma trimEnd_idem s : trimEnd (trimEnd s) = trimEnd s.
Proof.
  induction s as [|c r IH]; simpl; [reflexivity|].
  destruct (isWhiteSpace c && isEmpty (trimEnd r)) eqn:E; [reflexivity|].
  simpl. now rewrite IH, E.
Qed.

Lemma trimStart_length s : (String.length (trimStart s) <= String.length s)%nat.
Proof.
  induction s as [|c r IH]; simpl; [lia|].
  destruct (isWhiteSpace c); simpl; lia.
Qed.

Lemma trimStart_fixed_head c r :
  trimStart (String c r) = String c r -> isWhiteSpace c = false.
Proof.
  simpl. destruct (isWhiteSpace c); [|reflexivity].
  intros E. pose proof (trimStart_length r) as L.
  rewrite E in L. simpl in L. lia.
Qed.

Lemma trimStart_idem s : trimStart (trimStart s) = trimStart s.
Proof.
  induction s as [|c r IH]; simpl; [reflexivity|].
  destruct (isWhiteSpace c) eqn:E; [exact IH|].
  simpl. now rewrite E.
Qed.

Lemma trimStart_trimEnd s : trimStart s = s -> trimStart (trimEnd s) = trimEnd s.
Proof.
  destruct s as [|c r]; [reflexivity|].
  intros E. apply trimStart_fixed_head in E.
  simpl. rewrite E. simpl. now rewrite E.
Qed.

Lemma trimEnd_app p s : trimEnd s = s -> s <> "" -> trimEnd (p ++ s) = p ++ s.
Proof.
  intros E N. induction p as [|c r IH]; simpl; [exact E|].
  rewrite IH. rewrite (isEmpty_false (r ++ s)).
  - now rewrite andb_false_r.
  - destruct r; simpl; [exact N | discriminate].
Qed.

Lemma settled_trim s : settled s -> trim (toLowerCase s) = s.
Proof.
  intros (_ & L & S & E). unfold trim. now rewrite L, S, E.
Qed.

Lemma settled_trim_toLowerCase t :
  trim (toLowerCase t) <> "" -> settled (trim (toLowerCase t)).
Proof.
  intros N. repeat split.
  - exact N.
  - now rewrite toLowerCase_trim, toLowerCase_idem.
  - unfold trim. apply trimStart_trimEnd, trimStart_idem.
  - unfold trim. apply trimEnd_idem.
Qed.

Lemma settled_prefix c p s :
  isWhiteSpace c = false -> toLowerCase (String c p) = String c p ->
  settled s -> settled (String c p ++ s).
Proof.
  intros W L (N & Ls & S & E). repeat split.
  - discriminate.
  - now rewrite toLowerCase_app, L, Ls.
  - simpl. now rewrite W.
  - now apply trimEnd_app.
Qed.

Lemma settled_goodPrefix p s :
  goodPrefix p = true -> settled s -> settled (p ++ s).
Proof.
  destruct p as [|c r]; [discriminate|].
  unfold goodPrefix. intros H S.
  apply andb_true_iff in H as [W L].
  apply negb_true_iff in W. apply String.eqb_eq in L.
  now apply settled_prefix.
Qed.

Lemma includes_app_r p s k : includes s k = true -> includes (p ++ s) k = true.
Proof.
  intros H. induction p as [|c r IH]; simpl; [exact H|].
  rewrite IH. apply orb_true_r.
Qed.

(* ================================================================= *)
(** ** The normalizer *)

(** One case for each guarded tag. *)
Ltac each_guarded H :=
  unfold guardedTags in H; simpl in H;
  repeat (destruct H as [H | H]; [subst | ]); [ .. | contradiction].

Lemma rule_shape t tag :
  In tag guardedTags ->
  applyRule t tag =
    if depthCase t tag then "environment depth layering"
    else if includes t (keywordOf tag) then t else prefixOf tag ++ t.
Proof.
  intros H. each_guarded H; unfold applyRule, depthCase; cbn;
    try (destruct (includes t _); reflexivity).
  destruct (includes t "depth"); [reflexivity|].
  destruct (includes t "environment"); reflexivity.
Qed.

Lemma prefix_settled t tag :
  In tag guardedTags -> settled t -> settled (prefixOf tag ++ t).
Proof.
  intros H S. each_guarded H; now apply settled_goodPrefix.
Qed.

Lemma prefix_has_keyword t tag :
  In tag guardedTags -> includes (prefixOf tag ++ t) (keywordOf tag) = true.
Proof.
  intros H. each_guarded H; reflexivity.
Qed.

Lemma prefix_depth t tag :
  In tag guardedTags -> includes (prefixOf tag ++ t) "depth" = includes t "depth".
Proof.
  intros H. each_guarded H; reflexivity.
Qed.

Lemma rule_settled t tag :
  In tag guardedTags -> settled t -> settled (applyRule t tag).
Proof.
  intros H S. rewrite (rule_shape t tag H).
  destruct (depthCase t tag).
  - repeat split; try reflexivity. discriminate.
  - destruct (includes t (keywordOf tag)); [exact S | now apply prefix_settled].
Qed.

Lemma rule_depth t tag :
  In tag guardedTags ->
  includes (applyRule t tag) "depth" = includes t "depth".
Proof.
  intros H. rewrite (rule_shape t tag H). unfold depthCase.
  destruct (tag =? "environment"); simpl.
  - destruct (includes t "depth") eqn:D; [reflexivity|].
    destruct (includes t (keywordOf tag)); [exact D|].
    now rewrite prefix_depth.
  - destruct (includes t (keywordOf tag)); [reflexivity|].
    now rewrite prefix_depth.
Qed.

Lemma loop_settled tags : forall t,
  Forall (fun tag => In tag guardedTags) tags -> settled t ->
  settled (normalizeLoop tags t).
Proof.
  induction tags as [|g r IH]; intros t F S; [exact S|].
  inversion F; subst. apply IH; [assumption|]. now apply rule_settled.
Qed.

Lemma loop_depth tags : forall t,
  Forall (fun tag => In tag guardedTags) tags ->
  includes (normalizeLoop tags t) "depth" = includes t "depth".
Proof.
  induction tags as [|g r IH]; intros t F; [reflexivity|].
  inversion F; subst. simpl. unfold normalizeLoop in IH. rewrite IH by assumption.
  now apply rule_depth.
Qed.

(** With "depth" in the template, the environment rule erases what came
    before it: the result depends on the tags alone. *)
Lemma loop_depth_environment tags : forall x y,
  Forall (fun tag => In tag guardedTags) tags ->
  In "environment" tags ->
  includes x "depth" = true -> includes y "depth" = true ->
  normalizeLoop tags x = normalizeLoop tags y.
Proof.
  induction tags as [|g r IH]; intros x y F E Dx Dy; [contradiction|].
  inversion F as [|? ? G F']; subst. simpl.
  destruct (in_dec string_dec "environment" r) as [I|I].
  - apply IH; try assumption; now rewrite rule_depth.
  - destruct E as [E|E]; [subst g | contradiction].
    unfold applyRule. cbn. now rewrite Dx, Dy.
Qed.

(** Away from that case a guarded rule leaves the template or prefixes it. *)
Lemma plain_rule t tag r :
  In tag guardedTags -> plainFor (tag :: r) t ->
  applyRule t tag = if includes t (keywordOf tag) then t else prefixOf tag ++ t.
Proof.
  intros H P. rewrite (rule_shape t tag H). unfold depthCase.
  destruct P as [D|N].
  - now rewrite D, andb_false_r.
  - destruct (String.eqb_spec tag "environment") as [E|E]; [|reflexivity].
    exfalso. apply N. now left.
Qed.

Lemma plain_tail t tag r :
  In tag guardedTags -> plainFor (tag :: r) t -> plainFor r (applyRule t tag).
Proof.
  intros H [D|N].
  - left. now rewrite rule_depth.
  - right. intros I. apply N. now right.
Qed.

Lemma loop_keeps_keyword tags k : forall t,
  Forall (fun tag => In tag guardedTags) tags -> plainFor tags t ->
  includes t k = true -> includes (normalizeLoop tags t) k = true.
Proof.
  induction tags as [|g r IH]; intros t F P K; [exact K|].
  inversion F as [|? ? G F']; subst. simpl.
  apply IH; [assumption | now apply plain_tail |].
  rewrite (plain_rule t g r G P).
  destruct (includes t (keywordOf g)); [exact K | now apply includes_app_r].
Qed.

Lemma loop_gains_keywords tags : forall t,
  Forall (fun tag => In tag guardedTags) tags -> plainFor tags t ->
  forall g, In g tags -> includes (normalizeLoop tags t) (keywordOf g) = true.
Proof.
  induction tags as [|h r IH]; intros t F P g I; [contradiction|].
  inversion F as [|? ? G F']; subst. simpl.
  destruct (in_dec string_dec g r) as [J|J].
  - apply IH; [assumption | now apply plain_tail | assumption].
  - destruct I as [I|I]; [subst h | contradiction].
    apply loop_keeps_keyword; [assumption | now apply plain_tail |].
    rewrite (plain_rule t g r G P).
    destruct (includes t (keywordOf g)) eqn:K; [exact K | now apply prefix_has_keyword].
Qed.

Lemma loop_fixed tags s :
  (forall g, In g tags -> applyRule s g = s) -> normalizeLoop tags s = s.
Proof.
  induction tags as [|g r IH]; intros H; [reflexivity|].
  simpl. rewrite (H g) by now left. apply IH. intros; apply H; now right.
Qed.

Lemma loop_idempotent tags t :
  Forall (fun tag => In tag guardedTags) tags ->
  normalizeLoop tags (normalizeLoop tags t) = normalizeLoop tags t.
Proof.
  intros F.
  destruct (includes t "depth") eqn:D.
  - destruct (in_dec string_dec "environment" tags) as [E|E].
    + apply loop_depth_environment; try assumption.
      now rewrite loop_depth.
    + apply loop_fixed. intros g I.
      assert (G : In g guardedTags) by (rewrite Forall_forall in F; now apply F).
      rewrite (plain_rule _ g [] G).
      * rewrite loop_gains_keywords; try assumption; [reflexivity | now right].
      * right. intros [X|[]]. subst g. now apply E.
  - apply loop_fixed. intros g I.
    assert (G : In g guardedTags) by (rewrite Forall_forall in F; now apply F).
    rewrite (plain_rule _ g [] G).
    + rewrite loop_gains_keywords; try assumption; [reflexivity | now left].
    + left. now rewrite loop_depth.
Qed.

(** C1, as the code has it. For every template that is not blank and
    every list of tags drawn from the guarded rules of the table (eyes,
    environment, lighting, camera, color, clothing, fabric, armor,
    magic, expression, pose), normalizing a second time with the same
    tags changes nothing. *)
Theorem normalizeTemplate_idempotent_guarded (t : string) (tags : list string) :
  Forall (fun tag => In tag guardedTags) tags ->
  trim (toLowerCase t) <> "" ->
  normalizeTemplate (normalizeTemplate t tags) tags = normalizeTemplate t tags.
Proof.
  intros F N. unfold normalizeTemplate.
  fold (normalizeLoop tags (trim (toLowerCase t))).
  rewrite (settled_trim (normalizeLoop tags (trim (toLowerCase t)))).
  - apply loop_idempotent, F.
  - apply loop_settled; [exact F | now apply settled_trim_toLowerCase].
Qed.

Lemma normalizeTemplate_idempotent_guarded_witness :
  normalizeTemplate
    (normalizeTemplate " Depth of Field " ["camera"; "environment"; "lighting"])
    ["camera"; "environment"; "lighting"]
  = normalizeTemplate " Depth of Field " ["camera"; "environment"; "lighting"].
Proof.
  apply normalizeTemplate_idempotent_guarded.
  - apply Forall_forall. intros x [<-|[<-|[<-|[]]]]; simpl; tauto.
  - vm_compute. discriminate.
Defined.

(** C1 as stated fails: the rule of "materials" appends its suffix on
    every pass. *)
Lemma normalizeTemplate_materials_repeats :
  normalizeTemplate "Shine" ["materials"] = "shine material texture"
  /\ normalizeTemplate (normalizeTemplate "Shine" ["materials"]) ["materials"]
     = "shine material texture material texture".
Proof. split_all; vm_compute; reflexivity. Qed.

(** The same for the fallback of "hair", for "face" (whose prefix
    "facial " does not contain the "face" its guard looks for) and, for
    any prefixing rule, for a blank template (the prefix ends in a space
    that the second pass trims). *)
Example normalizeTemplate_other_repeats :
  normalizeTemplate (normalizeTemplate "shine" ["hair"]) ["hair"]
    = "hairstyle with hairstyle with shine"
  /\ normalizeTemplate (normalizeTemplate "glow" ["face"]) ["face"]
     = "facial facial glow"
  /\ normalizeTemplate "" ["eyes"] = "eye "
  /\ normalizeTemplate (normalizeTemplate "" ["eyes"]) ["eyes"] = "eye".
Proof. split_all; vm_compute; reflexivity. Qed.

(* ================================================================= *)
(** ** The expander *)

Lemma arrayIncludes_In xs x : arrayIncludes xs x = true <-> In x xs.
Proof.
  unfold arrayIncludes. rewrite existsb_exists. split.
  - intros (y & I & E). apply String.eqb_eq in E. now subst.
  - intros I. exists x. split; [exact I | apply String.eqb_refl].
Qed.

(** A label in neither catalogue is returned as it is, whatever the question. *)
Lemma expandAbstractAnswer_unlisted answer question :
  arrayIncludes ABSTRACT_ANSWERS (trim (toLowerCase answer)) = false ->
  arrayIncludes BREAST_SHAPE_KEYWORDS (trim (toLowerCase answer)) = false ->
  expandAbstractAnswer answer question = answer.
Proof.
  intros A B. unfold expandAbstractAnswer.
  now rewrite A, B, andb_false_r.
Qed.

Lemma topicExpansion_cases a q :
  In (topicExpansion a q) (map (append a) topicSuffixes).
Proof.
  unfold topicExpansion, topicSuffixes.
  repeat match goal with
         | |- context [if ?b then _ else _] => destruct b; [simpl; tauto|]
         end.
  simpl; tauto.
Qed.

Lemma genericExpansion_cases a q :
  In (genericExpansion a q) (otherworldPhrases ++ map (append a) topicSuffixes)%list.
Proof.
  unfold genericExpansion.
  destruct (includes q "otherworld" || includes q "supernatural"
            || includes q "non-human").
  - repeat match goal with
           | |- context [if ?b then _ else _] =>
               destruct b; [apply in_or_app; left; simpl; tauto|]
           end.
    apply in_or_app. right. apply topicExpansion_cases.
  - apply in_or_app. right. apply topicExpansion_cases.
Qed.

(** No phrase that the generic rules can produce for [a] is a spelling of [a]. *)
Lemma catalogue_rewritten a :
  In a (ABSTRACT_ANSWERS ++ BREAST_SHAPE_KEYWORDS)%list -> rewrittenAway a = true.
Proof.
  intros I. cbn in I.
  repeat (destruct I as [I | I]; [subst a; vm_compute; reflexivity | ]).
  contradiction.
Qed.

Lemma rewrittenAway_In a phrase :
  rewrittenAway a = true ->
  In phrase (otherworldPhrases ++ map (append a) topicSuffixes)%list ->
  trim (toLowerCase phrase) <> a.
Proof.
  unfold rewrittenAway. rewrite forallb_forall. intros F I E.
  specialize (F phrase I). apply negb_true_iff, String.eqb_neq in F. contradiction.
Qed.

(** Outside the anatomical context a label of either catalogue is rewritten. *)
Lemma genericExpansion_rewrites answer q :
  In (trim (toLowerCase answer)) (ABSTRACT_ANSWERS ++ BREAST_SHAPE_KEYWORDS)%list ->
  genericExpansion (trim (toLowerCase answer)) q <> answer.
Proof.
  intros I E.
  remember (trim (toLowerCase answer)) as a eqn:A.
  apply (rewrittenAway_In a (genericExpansion a q)).
  - now apply catalogue_rewritten.
  - apply genericExpansion_cases.
  - now rewrite E.
Qed.

(** What the expander does outside the anatomical context: it returns
    the label unchanged exactly when the lower-cased, trimmed label is
    neither an intensity adjective nor an anatomical-shape keyword. Its
    first test lets a shape keyword through in the anatomical context,
    and its second, which returns the label, asks in every context that
    the label be in neither catalogue: a shape keyword outside the
    anatomical context is a case that neither test returns on. *)
Theorem expandAbstractAnswer_unchanged_iff (answer question : string) :
  isBreastContext (toLowerCase question) = false ->
  (expandAbstractAnswer answer question = answer <->
   arrayIncludes ABSTRACT_ANSWERS (trim (toLowerCase answer)) = false
   /\ arrayIncludes BREAST_SHAPE_KEYWORDS (trim (toLowerCase answer)) = false).
Proof.
  intros C. split.
  - intros E.
    destruct (arrayIncludes ABSTRACT_ANSWERS (trim (toLowerCase answer))) eqn:A;
      destruct (arrayIncludes BREAST_SHAPE_KEYWORDS (trim (toLowerCase answer))) eqn:B;
      try (split; reflexivity); exfalso;
      unfold expandAbstractAnswer in E; rewrite C, A, B in E; cbn in E;
      apply (genericExpansion_rewrites answer (toLowerCase question));
      try exact E; apply in_or_app;
      first [ left; now apply arrayIncludes_In | right; now apply arrayIncludes_In ].
  - intros [A B]. now apply expandAbstractAnswer_unlisted.
Qed.

Lemma expandAbstractAnswer_unchanged_iff_witness :
  expandAbstractAnswer "Curly" "What is the hair texture?" = "Curly".
Proof.
  apply (proj2 (expandAbstractAnswer_unchanged_iff
                  "Curly" "What is the hair texture?" eq_refl)).
  split; reflexivity.
Defined.

(** C2 on the code. "round" and "teardrop" are anatomical-shape
    keywords and not intensity adjectives; for a question outside the
    anatomical context the expander should return them unchanged, and
    it returns them with the suffix of the generic fallback. *)
Lemma expandAbstractAnswer_shape_keyword_outside_context :
  isBreastContext (toLowerCase "What is the face like?") = false
  /\ arrayIncludes ABSTRACT_ANSWERS (trim (toLowerCase "round")) = false
  /\ arrayIncludes ABSTRACT_ANSWERS (trim (toLowerCase "teardrop")) = false
  /\ expandAbstractAnswer "round" "What is the face like?" = "round visual effect"
  /\ expandAbstractAnswer "teardrop" "What is the face like?" = "teardrop visual effect".
Proof. split_all; vm_compute; reflexivity. Qed.

(* ================================================================= *)
(** ** The subject extraction and the scenario of the root answer *)

Lemma lazyGroup_nonempty tail s m : lazyGroup tail s = Some m -> m <> "".
Proof.
  destruct s as [|c r]; simpl; [discriminate|].
  destruct (isLineTerminator c); [discriminate|].
  destruct (tail r); [intros [= <-]; discriminate|].
  destruct (lazyGroup tail r); simpl; [intros [= <-]; discriminate | discriminate].
Qed.

Lemma firstSome_cases {A} (a b : option A) (x : A) :
  firstSome a b = Some x -> a = Some x \/ b = Some x.
Proof. destruct a; simpl; auto. Qed.

Lemma afterVerb_nonempty tail s m : afterVerb tail s = Some m -> m <> "".
Proof.
  unfold afterVerb. destruct (startsWith s " "); [|discriminate].
  intros H. apply firstSome_cases in H as [H|H].
  - destruct (startsWith _ "the "); [|discriminate]. now apply lazyGroup_nonempty in H.
  - now apply lazyGroup_nonempty in H.
Qed.

Lemma matchHere_nonempty tail s m : matchHere tail s = Some m -> m <> "".
Proof.
  unfold matchHere. destruct (startsWith s "what "); [|discriminate].
  intros H. apply firstSome_cases in H as [H|H].
  - destruct (startsWith _ "are"); [|discriminate]. now apply afterVerb_nonempty in H.
  - destruct (startsWith _ "is"); [|discriminate]. now apply afterVerb_nonempty in H.
Qed.

Lemma regexSearch_nonempty tail s m : regexSearch tail s = Some m -> m <> "".
Proof.
  induction s as [|c r IH]; intros H.
  - discriminate H.
  - change (firstSome (matchHere tail (String c r)) (regexSearch tail r) = Some m) in H.
    apply firstSome_cases in H as [H|H];
      [now apply matchHere_nonempty in H | now apply IH].
Qed.

Lemma matchSubject_nonempty q m : matchSubject q = Some m -> m <> "".
Proof.
  unfold matchSubject. intros H.
  apply firstSome_cases in H as [H|H]; now apply regexSearch_nonempty in H.
Qed.

Lemma join_single sep x : join sep [x] = x.
Proof. reflexivity. Qed.

(** The part of the root answer "Male". *)
Lemma answerPart_maleAtRoot id answerId questionText :
  answerPart (maleAtRoot id answerId questionText) =
    match questionSubject questionText with
    | Some subject => "male " ++ trim subject
    | None => "Male"
    end.
Proof.
  unfold answerPart, questionSubject. cbn [maleAtRoot sa_nodeId sa_label sa_questionText].
  destruct (truthy questionText) eqn:T.
  - rewrite expandAbstractAnswer_unlisted by reflexivity.
    change ("root" =? "character-build") with false.
    change (arrayIncludes ABSTRACT_ANSWERS (trim (toLowerCase "Male"))) with false.
    cbn [andb negb].
    destruct (matchSubject (toLowerCase (optString questionText))) as [m|] eqn:M;
      [|reflexivity].
    apply matchSubject_nonempty in M. rewrite (isEmpty_false m M). reflexivity.
  - reflexivity.
Qed.

(** C3, as the code has it. For the single committed answer "Male" of
    the root node, with no refinements, weights or custom elements, the
    prompt is "Male" as the label is written when the stored question
    text is absent, empty or not of the form "what is/are (the) X
    (like)?", and "male X" otherwise; the negative prompt is the base
    list joined by ", ". *)
Theorem assemblePrompt_maleAtRoot
    (sanitizeTemplate : string -> list string -> string)
    (id answerId : string) (questionText : option string) :
  assemblePrompt sanitizeTemplate [maleAtRoot id answerId questionText] [] [] [] =
    {| prompt :=
         match questionSubject questionText with
         | Some subject => "male " ++ trim subject
         | None => "Male"
         end;
       negativePrompt :=
         "deformed, distorted, extra limbs, low detail, low quality, bad anatomy" |}.
Proof.
  unfold assemblePrompt, promptParts. cbn [map fold_left snd app customPromptElements
    customNegativeElements filter].
  rewrite join_single, answerPart_maleAtRoot. reflexivity.
Qed.

(** C3 as stated fails: the prompt is "Male" when no question text is
    stored, it is "Male" after the selection and commit at the root of
    the demo graph, it is "male subject" for a question of the form
    the extraction looks for, and for no question text is it "male". *)
Lemma assemblePrompt_maleAtRoot_not_lowercase :
  (forall san, prompt (assemblePrompt san [maleAtRoot "sel-1" "male" None] [] [] [])
               = "Male")
  /\ (forall san,
        prompt (getPreviewPrompt san
                  (run demoGraph [ OpSelectTempAnswer "male";
                                   OpCommitCurrentSelections (stamps "1" "2") ]
                       initialState))
        = "Male")
  /\ (forall san,
        prompt (assemblePrompt san
                  [maleAtRoot "sel-1" "male" (Some "What is the subject?")] [] [] [])
        = "male subject")
  /\ (forall san id answerId questionText,
        prompt (assemblePrompt san [maleAtRoot id answerId questionText] [] [] [])
        <> "male").
Proof.
  split_all; try reflexivity.
  intros san id answerId questionText.
  unfold assemblePrompt, promptParts.
  cbn [prompt map fold_left snd app customPromptElements filter].
  rewrite join_single, answerPart_maleAtRoot.
  destruct (questionSubject questionText); discriminate.
Qed.

(* ================================================================= *)
(** ** The loop over the weights *)

Section WeightLoop.

Variable sanitizeTemplate : string -> list string -> string.
Variable answers : list SelectedAnswer.

Let key := weightKey sanitizeTemplate answers.
Let step := weightStep sanitizeTemplate answers.
Let parts := partsFrom sanitizeTemplate answers.
Let seenOf := seenFrom sanitizeTemplate answers.

(** One turn of the loop, by the key of the weight. *)
Lemma weightStep_key seen ps w :
  step (seen, ps) w =
    match key w with
    | None => (seen, ps)
    | Some k =>
        if arrayIncludes seen k then (seen, ps)
        else ((seen ++ [k])%list, (ps ++ [fragment k (w_value w)])%list)
    end.
Proof.
  unfold step, key, weightStep, weightKey.
  destruct (w_attrId w =? "intensity"); cbn [andb].
  - destruct (truthy (w_answerLabel w)); cbn [andb negb]; [|reflexivity].
    destruct (isRootAnswer answers w); reflexivity.
  - reflexivity.
Qed.

Lemma loop_from seen ps ws :
  fold_left step ws (seen, ps) = (seenOf seen ws, (ps ++ parts seen ws)%list).
Proof.
  revert seen ps. induction ws as [|w r IH]; intros seen ps.
  - cbn. now rewrite app_nil_r.
  - unfold seenOf, parts, seenFrom, partsFrom. cbn [fold_left].
    fold step. rewrite !weightStep_key.
    destruct (key w) as [k|]; [destruct (arrayIncludes seen k)|];
      rewrite !IH; cbn [fst snd]; try reflexivity.
    now rewrite <- app_assoc.
Qed.

Lemma partsFrom_cons seen w r :
  parts seen (w :: r) =
    match key w with
    | None => parts seen r
    | Some k =>
        if arrayIncludes seen k then parts seen r
        else fragment k (w_value w) :: parts (seen ++ [k])%list r
    end.
Proof.
  unfold parts at 1, partsFrom. cbn [fold_left]. fold step.
  rewrite weightStep_key.
  destruct (key w) as [k|]; [destruct (arrayIncludes seen k)|];
    rewrite loop_from; reflexivity.
Qed.

Lemma seenFrom_cons seen w r :
  seenOf seen (w :: r) =
    match key w with
    | None => seenOf seen r
    | Some k =>
        if arrayIncludes seen k then seenOf seen r
        else seenOf (seen ++ [k])%list r
    end.
Proof.
  unfold seenOf at 1, seenFrom. cbn [fold_left]. fold step.
  rewrite weightStep_key.
  destruct (key w) as [k|]; [destruct (arrayIncludes seen k)|];
    rewrite loop_from; reflexivity.
Qed.

Lemma partsFrom_app seen ws1 ws2 :
  parts seen (ws1 ++ ws2)%list
  = (parts seen ws1 ++ parts (seenOf seen ws1) ws2)%list.
Proof.
  unfold parts at 1, partsFrom. rewrite fold_left_app. fold step.
  rewrite loop_from, loop_from. reflexivity.
Qed.

(** A weight with no key leaves no trace. *)
Lemma partsFrom_skip seen ws1 w ws2 :
  key w = None ->
  parts seen (ws1 ++ w :: ws2)%list = parts seen (ws1 ++ ws2)%list.
Proof.
  intros K. now rewrite !partsFrom_app, partsFrom_cons, K.
Qed.

(** So does one whose key was seen. *)
Lemma partsFrom_seen seen ws1 w ws2 k :
  key w = Some k -> arrayIncludes (seenOf seen ws1) k = true ->
  parts seen (ws1 ++ w :: ws2)%list = parts seen (ws1 ++ ws2)%list.
Proof.
  intros K S. now rewrite !partsFrom_app, partsFrom_cons, K, S.
Qed.

Lemma partsFrom_fresh seen ws1 w ws2 k :
  key w = Some k -> arrayIncludes (seenOf seen ws1) k = false ->
  parts seen (ws1 ++ w :: ws2)%list
  = (parts seen ws1
     ++ fragment k (w_value w) :: parts (seenOf seen ws1 ++ [k]) ws2)%list.
Proof.
  intros K S. now rewrite !partsFrom_app, partsFrom_cons, K, S.
Qed.

(** What [seen] holds: what it held, and the keys of the weights met. *)
Lemma seenFrom_In ws : forall seen k,
  In k (seenOf seen ws) <->
  In k seen \/ exists w, In w ws /\ key w = Some k.
Proof.
  induction ws as [|w r IH]; intros seen k.
  - cbn. split; [auto | intros [H|(w & [] & _)]; exact H].
  - rewrite seenFrom_cons.
    destruct (key w) as [k'|] eqn:K; [destruct (arrayIncludes seen k') eqn:S|];
      rewrite IH; split.
    + intros [H|(x & I & E)]; [now left | right; exists x; split; [now right | exact E]].
    + intros [H|(x & [<-|I] & E)]; [now left | | right; now exists x].
      left. rewrite K in E. injection E as <-. now apply arrayIncludes_In.
    + rewrite in_app_iff. intros [[H|[<-|[]]]|(x & I & E)].
      * now left.
      * right. exists w. split; [now left | exact K].
      * right. exists x. split; [now right | exact E].
    + rewrite in_app_iff. intros [H|(x & [<-|I] & E)].
      * left. now left.
      * left. right. left. congruence.
      * right. now exists x.
    + intros [H|(x & I & E)]; [now left | right; exists x; split; [now right | exact E]].
    + intros [H|(x & [<-|I] & E)]; [now left | congruence | right; now exists x].
Qed.

(** Every fragment pushed comes from a weight, under a key not seen before. *)
Lemma partsFrom_In ws : forall seen s,
  In s (parts seen ws) ->
  exists w k, In w ws /\ key w = Some k /\ ~ In k seen
              /\ s = fragment k (w_value w).
Proof.
  induction ws as [|w r IH]; intros seen s H; [contradiction|].
  rewrite partsFrom_cons in H.
  destruct (key w) as [k'|] eqn:K; [destruct (arrayIncludes seen k') eqn:S|].
  - destruct (IH _ _ H) as (x & k & I & E & N & F).
    exists x, k. repeat split; try assumption. now right.
  - destruct H as [<-|H].
    + exists w, k'. repeat split; try assumption; [now left|].
      intros I. apply arrayIncludes_In in I. congruence.
    + destruct (IH _ _ H) as (x & k & I & E & N & F).
      exists x, k. repeat split; try assumption; [now right|].
      intros J. apply N, in_or_app. now left.
  - destruct (IH _ _ H) as (x & k & I & E & N & F).
    exists x, k. repeat split; try assumption. now right.
Qed.

Lemma promptParts_split refinements ws cs :
  promptParts sanitizeTemplate answers refinements ws cs =
    (map answerPart answers ++ map refinementPart refinements
     ++ weightParts sanitizeTemplate answers ws
     ++ customPromptElements cs)%list.
Proof.
  unfold promptParts. fold step. rewrite loop_from. cbn [snd].
  now rewrite <- !app_assoc.
Qed.

End WeightLoop.

(* ================================================================= *)
(** ** toFixed(2) and the shape of a fragment *)

Lemma string_app_assoc (s t u : string) : (s ++ t) ++ u = s ++ (t ++ u).
Proof.
  induction s as [|c r IH]; simpl; [reflexivity|]. now rewrite IH.
Qed.

Lemma allChars_app p s t : allChars p (s ++ t) = allChars p s && allChars p t.
Proof.
  induction s as [|c r IH]; simpl; [reflexivity|].
  now rewrite IH, andb_assoc.
Qed.

Lemma allChars_weaken (p q : ascii -> bool) s :
  (forall c, p c = true -> q c = true) -> allChars p s = true -> allChars q s = true.
Proof.
  intros W. induction s as [|c r IH]; simpl; [reflexivity|].
  intros H. apply andb_true_iff in H as [H1 H2].
  now rewrite (W c H1), IH.
Qed.

Lemma digitChar_isDigit d : (0 <= d <= 9)%Z -> isDigit (digitChar d) = true.
Proof.
  intros H. replace d with (Z.of_nat (Z.to_nat d)) by lia.
  assert (L : (Z.to_nat d < 10)%nat) by lia.
  generalize dependent (Z.to_nat d). intros n L.
  do 10 (destruct n as [|n]; [reflexivity|]). lia.
Qed.

Lemma string_of_uint_digits u : allChars isDigit (NilEmpty.string_of_uint u) = true.
Proof. induction u; simpl; auto. Qed.

Lemma string_of_uint_zero_digits u : allChars isDigit (NilZero.string_of_uint u) = true.
Proof. destruct u; try reflexivity; apply (string_of_uint_digits (_ u)). Qed.

(** [toFixed(2)] prints a sign, the digits of the whole part, a point
    and exactly two digits. *)
Lemma toFixed2_shape x :
  exists whole d1 d2,
    toFixed2 x = whole ++ "." ++ String d1 (String d2 "")
    /\ allChars isWholeChar whole = true
    /\ isDigit d1 = true /\ isDigit d2 = true.
Proof.
  unfold toFixed2.
  set (n := hundredths x).
  exists ((if (Qnum x <? 0)%Z then "-" else "")
          ++ NilZero.string_of_uint (N.to_uint (Z.to_N (n / 100)))),
         (digitChar ((n mod 100) / 10)), (digitChar (n mod 10)).
  repeat split.
  - now rewrite string_app_assoc.
  - rewrite allChars_app. apply andb_true_iff. split.
    + destruct (Qnum x <? 0)%Z; reflexivity.
    + apply (allChars_weaken isDigit); [|apply string_of_uint_zero_digits].
      intros c H. unfold isWholeChar. now rewrite H.
  - apply digitChar_isDigit.
    pose proof (Z.mod_pos_bound n 100 ltac:(lia)).
    split; [apply Z.div_pos; lia |].
    apply Z.lt_succ_r. apply Z.div_lt_upper_bound; lia.
  - apply digitChar_isDigit. pose proof (Z.mod_pos_bound n 10 ltac:(lia)). lia.
Qed.

Lemma wholeChar_notColon c : isWholeChar c = true -> notColon c = true.
Proof.
  destruct c as [[] [] [] [] [] [] [] []]; vm_compute; intros; congruence.
Qed.

Lemma digit_notColon c : isDigit c = true -> notColon c = true.
Proof.
  destruct c as [[] [] [] [] [] [] [] []]; vm_compute; intros; congruence.
Qed.

Lemma toFixed2_no_colon x : allChars notColon (toFixed2 x ++ ")") = true.
Proof.
  destruct (toFixed2_shape x) as (whole & d1 & d2 & E & W & D1 & D2).
  rewrite E, !allChars_app. cbn [allChars].
  rewrite (allChars_weaken _ _ _ wholeChar_notColon W).
  now rewrite (digit_notColon _ D1), (digit_notColon _ D2).
Qed.

Lemma text_before_colon t : forall t' m m',
  allChars notColon m = true -> allChars notColon m' = true ->
  t ++ ":" ++ m = t' ++ ":" ++ m' -> t = t'.
Proof.
  induction t as [|c r IH]; intros [|c' r'] m m' M M' E; cbn in E.
  - reflexivity.
  - injection E as <- E. rewrite E, allChars_app in M. cbn in M.
    now rewrite andb_false_r in M.
  - injection E as -> E. rewrite <- E, allChars_app in M'. cbn in M'.
    now rewrite andb_false_r in M'.
  - injection E as -> E. f_equal. now apply (IH r' m m').
Qed.

(** A fragment determines its text. *)
Lemma fragment_text k v k' v' : fragment k v = fragment k' v' -> k = k'.
Proof.
  unfold fragment. cbn. intros E. injection E as E.
  apply (text_before_colon k k' (toFixed2 v ++ ")") (toFixed2 v' ++ ")"));
    try apply toFixed2_no_colon.
  exact E.
Qed.

(* ================================================================= *)
(** ** Intensity weights and deduplication *)

Lemma arrayIncludes_false xs x : ~ In x xs -> arrayIncludes xs x = false.
Proof.
  intros N. destruct (arrayIncludes xs x) eqn:E; [|reflexivity].
  now apply arrayIncludes_In in E.
Qed.

Lemma assemblePrompt_same_weightParts san answers refinements ws ws' cs :
  weightParts san answers ws = weightParts san answers ws' ->
  assemblePrompt san answers refinements ws cs
  = assemblePrompt san answers refinements ws' cs.
Proof.
  intros E. unfold assemblePrompt. now rewrite !promptParts_split, E.
Qed.

(** C4, as the code has it. The weights of the input are within the
    model: no tag names a property inherited from [Object.prototype]
    (on such a tag the assembler throws or leaves the strings), and
    every value has a magnitude below 10^21 (from there on [toFixed]
    prints exponent notation). An intensity weight bound to a committed
    answer of the root node contributes nothing: the assembler returns
    what it returns without it. Any other intensity weight with a
    non-empty selection label is emitted as "(sanitizedLabel:value)",
    after the fragments of the weights before it, unless its sanitized
    label is already in the set of texts emitted in this pass, in which
    case it contributes nothing either. The value is printed with a
    point and exactly two digits after it. *)
Theorem intensity_weights
    (sanitizeTemplate : string -> list string -> string)
    (answers : list SelectedAnswer) (refinements : list SelectedRefinement)
    (ws1 : list WeightValue) (w : WeightValue) (ws2 : list WeightValue)
    (cs : list CustomElement) :
  modelledWeights (ws1 ++ w :: ws2) = true ->
  w_attrId w = "intensity" ->
  (isRootAnswer answers w = true ->
   assemblePrompt sanitizeTemplate answers refinements (ws1 ++ w :: ws2) cs
   = assemblePrompt sanitizeTemplate answers refinements (ws1 ++ ws2) cs)
  /\ (truthy (w_answerLabel w) = true -> isRootAnswer answers w = false ->
      (arrayIncludes (seenAfter sanitizeTemplate answers ws1)
         (sanitizeTemplate (toLowerCase (optString (w_answerLabel w))) (tagsOrEmpty w))
       = false ->
       weightParts sanitizeTemplate answers (ws1 ++ w :: ws2)
       = (weightParts sanitizeTemplate answers ws1
          ++ ("("
              ++ sanitizeTemplate (toLowerCase (optString (w_answerLabel w)))
                                  (tagsOrEmpty w)
              ++ ":" ++ toFixed2 (w_value w) ++ ")")%string
             :: partsFrom sanitizeTemplate answers
                  (seenAfter sanitizeTemplate answers ws1
                   ++ [sanitizeTemplate (toLowerCase (optString (w_answerLabel w)))
                                        (tagsOrEmpty w)])
                  ws2)%list)
      /\ (arrayIncludes (seenAfter sanitizeTemplate answers ws1)
            (sanitizeTemplate (toLowerCase (optString (w_answerLabel w))) (tagsOrEmpty w))
          = true ->
          assemblePrompt sanitizeTemplate answers refinements (ws1 ++ w :: ws2) cs
          = assemblePrompt sanitizeTemplate answers refinements (ws1 ++ ws2) cs))
  /\ (exists whole d1 d2,
        toFixed2 (w_value w) = whole ++ "." ++ String d1 (String d2 "")
        /\ allChars isWholeChar whole = true
        /\ isDigit d1 = true /\ isDigit d2 = true).
Proof.
  intros _ I. split; [|split].
  - intros R. apply assemblePrompt_same_weightParts, partsFrom_skip.
    unfold weightKey. now rewrite I, R, andb_false_r.
  - intros L R.
    assert (K : weightKey sanitizeTemplate answers w
                = Some (sanitizeTemplate (toLowerCase (optString (w_answerLabel w)))
                                         (tagsOrEmpty w))).
    { unfold weightKey. now rewrite I, L, R. }
    split; intros E.
    + exact (partsFrom_fresh sanitizeTemplate answers [] ws1 w ws2 _ K E).
    + apply assemblePrompt_same_weightParts. now apply (partsFrom_seen _ _ _ _ _ _ _ K).
  - apply toFixed2_shape.
Qed.

(** Both halves on one input: the intensity of the answer of the root
    is dropped, that of the answer "Long" is emitted. *)
Lemma intensity_weights_witness :
  assemblePrompt plainSanitizer [maleAtRoot "sel-0" "male" None; longHair] []
    [intensityOf (maleAtRoot "sel-0" "male" None) 2; intensityOf longHair (3 # 2)] []
  = assemblePrompt plainSanitizer [maleAtRoot "sel-0" "male" None; longHair] []
      [intensityOf longHair (3 # 2)] []
  /\ weightParts plainSanitizer [maleAtRoot "sel-0" "male" None; longHair]
       [intensityOf longHair (3 # 2)]
     = ["(long:1.50)"]
  /\ prompt (assemblePrompt plainSanitizer [maleAtRoot "sel-0" "male" None; longHair]
               [] [intensityOf longHair (3 # 2)] [])
     = "Male, Long, (long:1.50)".
Proof.
  split; [|split].
  - pose proof (intensity_weights plainSanitizer
                  [maleAtRoot "sel-0" "male" None; longHair] [] []
                  (intensityOf (maleAtRoot "sel-0" "male" None) 2)
                  [intensityOf longHair (3 # 2)] [] eq_refl eq_refl) as (A & _).
    exact (A eq_refl).
  - pose proof (intensity_weights plainSanitizer
                  [maleAtRoot "sel-0" "male" None; longHair] [] []
                  (intensityOf longHair (3 # 2)) [] [] eq_refl eq_refl)
      as (_ & B & _).
    destruct (B eq_refl eq_refl) as [F _].
    exact (F eq_refl).
  - vm_compute. reflexivity.
Defined.

(** C4 as stated fails: two answers "Long" at two nodes away from the
    root, each with an intensity weight; the second weight is an
    intensity weight with a selection label and is not bound to a root
    answer, and no fragment is emitted for it, whatever the sanitizer. *)
Lemma intensity_duplicate_label_dropped :
  isRootAnswer [longHair; longLegs] (intensityOf longLegs (1 # 2)) = false
  /\ (forall san,
        weightParts san [longHair; longLegs]
          [intensityOf longHair (3 # 2); intensityOf longLegs (1 # 2)]
        = ["(" ++ san "long" [] ++ ":1.50)"])
  /\ (forall san,
        prompt (assemblePrompt san [longHair; longLegs] []
                  [intensityOf longHair (3 # 2); intensityOf longLegs (1 # 2)] [])
        = "Long, Long, (" ++ san "long" [] ++ ":1.50)").
Proof.
  assert (P : forall san,
             weightParts san [longHair; longLegs]
               [intensityOf longHair (3 # 2); intensityOf longLegs (1 # 2)]
             = ["(" ++ san "long" [] ++ ":1.50)"]).
  { intros san. unfold weightParts.
    assert (K : forall a v, In a [longHair; longLegs] ->
                  weightKey san [longHair; longLegs] (intensityOf a v)
                  = Some (san "long" [])).
    { intros a v [<-|[<-|[]]]; reflexivity. }
    rewrite partsFrom_cons, K by (simpl; tauto). cbn [arrayIncludes existsb].
    rewrite partsFrom_cons, K by (simpl; tauto).
    unfold arrayIncludes. cbn [existsb app]. rewrite String.eqb_refl.
    reflexivity. }
  repeat split; [exact P|].
  intros san. unfold assemblePrompt. cbn [prompt].
  rewrite promptParts_split, P. reflexivity.
Qed.

(** The first weight with a given key, when there is one. *)
Lemma first_with_key san answers t ws :
  (exists w, In w ws /\ weightKey san answers w = Some t) ->
  exists before first after,
    ws = (before ++ first :: after)%list
    /\ weightKey san answers first = Some t
    /\ forall w, In w before -> weightKey san answers w <> Some t.
Proof.
  induction ws as [|x r IH]; intros (w & I & K); [contradiction|].
  assert (D : weightKey san answers x = Some t \/ weightKey san answers x <> Some t).
  { destruct (weightKey san answers x) as [k|]; [|right; discriminate].
    destruct (string_dec k t) as [->|N]; [now left | right; congruence]. }
  destruct D as [D|D].
  - exists [], x, r. repeat split; [exact D | intros ? []].
  - destruct I as [<-|I]; [contradiction|].
    destruct (IH (ex_intro _ w (conj I K))) as (b & f & a & E & F & B).
    exists (x :: b), f, a. repeat split.
    + now rewrite E.
    + exact F.
    + intros y [<-|J]; [exact D | now apply B].
Qed.

Lemma hasText_spec san answers t w :
  hasText san answers t w = true <-> weightKey san answers w = Some t.
Proof.
  unfold hasText. destruct (weightKey san answers w) as [k|]; cbn.
  - rewrite String.eqb_eq. split; [now intros -> | now intros [= ->]].
  - split; discriminate.
Qed.

(** The first weight with a text splits the collection. *)
Lemma text_parts san answers t before first after :
  weightKey san answers first = Some t ->
  (forall w, In w before -> weightKey san answers w <> Some t) ->
  firstWithText san answers t (before ++ first :: after) = Some first
  /\ beforeText san answers t (before ++ first :: after) = before
  /\ afterText san answers t (before ++ first :: after) = after.
Proof.
  intros F B. unfold firstWithText.
  induction before as [|x r IH]; cbn [app find beforeText afterText].
  - apply hasText_spec in F. rewrite F. now repeat split.
  - assert (N : hasText san answers t x = false).
    { destruct (hasText san answers t x) eqn:H; [|reflexivity].
      apply hasText_spec in H. exfalso. apply (B x); [now left | exact H]. }
    rewrite N. destruct IH as (I1 & I2 & I3); [intros w I; apply B; now right|].
    now rewrite I1, I2, I3.
Qed.

(** C8, as the code has it. The weights of the input are within the
    model (no inherited name among the tags, magnitudes below 10^21).
    When two weights of the input normalize and sanitize to the same
    text, that text has a first weight in the collection, and the
    weights contribute exactly one fragment "(text:value)" with that
    text: the one with the value of the first weight, between the
    fragments of the weights before it and those of the weights after
    it, none of which has that text. The prompt is the join of the
    parts of the answers, those of the refinements, these fragments and
    the enabled custom elements of type prompt. *)
Theorem weights_deduplicated
    (sanitizeTemplate : string -> list string -> string)
    (answers : list SelectedAnswer) (refinements : list SelectedRefinement)
    (ws : list WeightValue) (cs : list CustomElement)
    (t : string) (i j : nat) (wi wj : WeightValue) :
  modelledWeights ws = true ->
  i <> j ->
  nth_error ws i = Some wi -> nth_error ws j = Some wj ->
  weightKey sanitizeTemplate answers wi = Some t ->
  weightKey sanitizeTemplate answers wj = Some t ->
  match firstWithText sanitizeTemplate answers t ws with
  | None => False
  | Some first =>
      let before := beforeText sanitizeTemplate answers t ws in
      let l1 := weightParts sanitizeTemplate answers before in
      let l2 := partsFrom sanitizeTemplate answers
                  (seenAfter sanitizeTemplate answers before ++ [t])
                  (afterText sanitizeTemplate answers t ws) in
      weightParts sanitizeTemplate answers ws
      = (l1 ++ ("(" ++ t ++ ":" ++ toFixed2 (w_value first) ++ ")")%string :: l2)%list
      /\ (forall part v, In part (l1 ++ l2)%list ->
            part <> "(" ++ t ++ ":" ++ toFixed2 v ++ ")")
      /\ prompt (assemblePrompt sanitizeTemplate answers refinements ws cs)
         = join ", "
             (map answerPart answers ++ map refinementPart refinements
              ++ (l1 ++ ("(" ++ t ++ ":" ++ toFixed2 (w_value first) ++ ")")%string
                     :: l2)
              ++ customPromptElements cs)%list
  end.
Proof.
  intros _ _ Hi _ Ki _.
  destruct (first_with_key sanitizeTemplate answers t ws) as (b & f & a & E & F & B).
  { exists wi. split; [now apply nth_error_In in Hi | exact Ki]. }
  destruct (text_parts sanitizeTemplate answers t b f a F B) as (T1 & T2 & T3).
  rewrite E, T1, T2, T3. cbv zeta. rewrite <- E.
  assert (S : arrayIncludes (seenFrom sanitizeTemplate answers [] b) t = false).
  { apply arrayIncludes_false. intros I.
    apply seenFrom_In in I as [[]|(w & I & K)]. now apply (B w). }
  assert (P : weightParts sanitizeTemplate answers ws
              = (partsFrom sanitizeTemplate answers [] b
                 ++ fragment t (w_value f)
                    :: partsFrom sanitizeTemplate answers
                         (seenFrom sanitizeTemplate answers [] b ++ [t]) a)%list).
  { unfold weightParts. rewrite E. now apply partsFrom_fresh. }
  split; [exact P|]. split.
  - intros s v I Q. change (s = fragment t v) in Q.
    apply in_app_or in I as [I|I];
      apply partsFrom_In in I as (w & k & Iw & K & N & Fr);
      rewrite Fr in Q; apply fragment_text in Q; subst k.
    + now apply (B w).
    + apply N, in_or_app. right. now left.
  - unfold assemblePrompt. cbn [prompt]. rewrite promptParts_split, P. reflexivity.
Qed.

Lemma weights_deduplicated_witness :
  weightParts plainSanitizer []
    [ shineAt "temp-shine" (4 # 5); shineAt "weight-standalone-0-shine" (17 # 10) ]
  = ["(lighting shine:0.80)"]
  /\ (forall part v, In part ([] : list string) ->
        part <> "(lighting shine:" ++ toFixed2 v ++ ")")
  /\ prompt (assemblePrompt plainSanitizer [] []
               [ shineAt "temp-shine" (4 # 5);
                 shineAt "weight-standalone-0-shine" (17 # 10) ] [])
     = "(lighting shine:0.80)".
Proof.
  exact (weights_deduplicated plainSanitizer [] []
           [ shineAt "temp-shine" (4 # 5);
             shineAt "weight-standalone-0-shine" (17 # 10) ] []
           "lighting shine" 0 1
           (shineAt "temp-shine" (4 # 5))
           (shineAt "weight-standalone-0-shine" (17 # 10))
           eq_refl (Nat.neq_0_succ 0) eq_refl eq_refl eq_refl eq_refl).
Defined.

(** C8 as stated fails: the parts of the custom elements are copied
    into the prompt as they are, so an enabled custom element that
    reads "(lighting shine:1.70)" stands in the assembled prompt beside
    the one fragment that the two weights with that text contribute. *)
Lemma weights_deduplicated_custom_element_repeats :
  weightKey plainSanitizer [] (shineAt "temp-shine" (4 # 5)) = Some "lighting shine"
  /\ weightKey plainSanitizer [] (shineAt "weight-standalone-0-shine" (17 # 10))
     = Some "lighting shine"
  /\ weightParts plainSanitizer []
       [ shineAt "temp-shine" (4 # 5);
         shineAt "weight-standalone-0-shine" (17 # 10) ]
     = ["(lighting shine:0.80)"]
  /\ prompt (assemblePrompt plainSanitizer [] []
               [ shineAt "temp-shine" (4 # 5);
                 shineAt "weight-standalone-0-shine" (17 # 10) ]
               [ {| ce_text := "(lighting shine:1.70)"; ce_enabled := true;
                    ce_type := TypePrompt |} ])
     = "(lighting shine:0.80), (lighting shine:1.70)".
Proof. split_all; vm_compute; reflexivity. Qed.

(* ================================================================= *)
(** ** The history of the engine *)

Lemma history_moveTo x s : history (moveTo x s) = (history s ++ [x])%list.
Proof. reflexivity. Qed.

Lemma history_visit x s :
  history (visit x s) = history s \/ history (visit x s) = (history s ++ [x])%list.
Proof.
  unfold visit. destruct (arrayIncludes (history s) x); [now left | now right].
Qed.

Lemma history_previous s :
  history (previous s) =
    if (List.length (history s) <=? 1)%nat then history s
    else removelast (history s).
Proof.
  unfold previous. destruct (List.length (history s) <=? 1)%nat; reflexivity.
Qed.

Lemma currentNodeId_previous s :
  (1 < List.length (history s))%nat ->
  currentNodeId (previous s) = last (removelast (history s)) "".
Proof.
  intros L. unfold previous.
  destruct (Nat.leb_spec (List.length (history s)) 1); [lia | reflexivity].
Qed.

Lemma previous_noop s : (List.length (history s) <= 1)%nat -> previous s = s.
Proof.
  intros L. unfold previous.
  destruct (Nat.leb_spec (List.length (history s)) 1); [reflexivity | lia].
Qed.

Lemma previous_keeps_one s :
  (1 <= List.length (history s))%nat ->
  (1 <= List.length (history (previous s)))%nat.
Proof.
  intros L. rewrite history_previous.
  destruct (Nat.leb_spec (List.length (history s)) 1) as [H|H]; [exact L|].
  destruct (exists_last (l := history s)) as (l & a & E).
  { intros N. rewrite N in H. simpl in H. lia. }
  rewrite E in *. rewrite removelast_last.
  rewrite List.length_app in H. simpl in H. lia.
Qed.

(** What one operation does to the history: nothing, a push, a pop
    that leaves an entry, or the reset. *)
Lemma history_perform g op s :
  history (perform g op s) = history s
  \/ (exists x, history (perform g op s) = (history s ++ [x])%list)
  \/ ((1 < List.length (history s))%nat
      /\ history (perform g op s) = removelast (history s))
  \/ history (perform g op s) = ["root"].
Proof.
  destruct op; cbn [perform]; try (left; reflexivity).
  - left. unfold selectTempAnswer.
    destruct (mapGet g (currentNodeId s)); [|reflexivity].
    destruct (findAnswer _ _); reflexivity.
  - left. unfold selectTempRefinement.
    destruct (mapGet g (currentNodeId s)); [|reflexivity].
    destruct (findAnswer _ _); reflexivity.
  - unfold goToNext.
    destruct (mapGet g (currentNodeId s)); [|now left].
    destruct (_ && mapHas g "nsfw-options"); [right; left; now eexists|].
    destruct (hasNoAnswers _); [now left|].
    destruct (firstSome _ _); [|now left].
    destruct (findAnswer _ _); [|now left].
    destruct (truthy _); [right; left; now eexists | now left].
  - unfold skipToNext.
    destruct (mapGet g (currentNodeId s)); [|now left].
    destruct (isWeightOnlyNsfw _ _); [right; left; now eexists|].
    destruct (match orEmpty (n_answers _) with [] => _ | _ => _ end);
      [right; left; now eexists|].
    destruct (orEmpty (n_refinements _)); [now left|].
    destruct (negb _); [right; left; now eexists | now left].
  - rewrite history_previous.
    destruct (Nat.leb_spec (List.length (history s)) 1); [now left|].
    right; right; left. now split.
  - unfold jumpTo. destruct (negb _); [now left|].
    destruct (history_visit nodeId (setCurrentNodeId nodeId (clearTemp s))) as [E|E];
      rewrite E; [now left | right; left; now eexists].
  - unfold jumpToCategory. destruct (negb _); [now left|].
    destruct (history_visit nodeId (setCurrentNodeId nodeId s)) as [E|E];
      rewrite E; [now left | right; left; now eexists].
  - right; right; right. reflexivity.
Qed.

Lemma removelast_rooted rest :
  (1 < List.length ("root" :: rest))%nat ->
  exists rest', removelast ("root" :: rest) = "root" :: rest'.
Proof.
  destruct rest as [|x r]; simpl; [lia|]. intros _. now eexists.
Qed.

(** C10. In every state that a session reaches from its start by the
    operations of the hook, the history is not empty and begins with
    "root": an operation leaves the history as it is, pushes one node,
    pops one while more than one remains, or resets it to ["root"], as
    [reset] does. *)
Theorem history_rooted (g : NodeMap) :
  (forall s, reachable g s -> exists rest, history s = "root" :: rest)
  /\ (forall op s,
        history (perform g op s) = history s
        \/ (exists x, history (perform g op s) = (history s ++ [x])%list)
        \/ ((1 < List.length (history s))%nat
            /\ history (perform g op s) = removelast (history s))
        \/ history (perform g op s) = ["root"])
  /\ (forall s, history (reset s) = ["root"]).
Proof.
  split; [|split; [intros; apply history_perform | reflexivity]].
  induction 1 as [|s op R (rest & E)]; [now exists []|].
  destruct (history_perform g op s) as [H|[(x & H)|[(L & H)|H]]]; rewrite H.
  - now exists rest.
  - rewrite E. now exists (rest ++ [x])%list.
  - rewrite E in *. now apply removelast_rooted.
  - now exists [].
Qed.

Lemma history_rooted_witness :
  exists rest, history afterSliderCommit = "root" :: rest.
Proof.
  apply (proj1 (history_rooted demoGraph)).
  unfold afterSliderCommit, run. cbn [fold_left].
  repeat apply reach_step. apply reach_start.
Defined.

(* ================================================================= *)
(** ** Advancing and going back *)

Lemma currentOnTop_last s : currentOnTop s -> last (history s) "" = currentNodeId s.
Proof. intros (e & E). rewrite E. apply last_last. Qed.

(** [n] advances push [n] nodes. *)
Lemma advancedBy_pushes g n s s' :
  advancedBy g n s s' ->
  exists pushed, List.length pushed = n /\ history s' = (history s ++ pushed)%list.
Proof.
  induction 1 as [s | n s m s' Hh Hc (x & A) R (pushed & L & E)].
  - exists []. split; [reflexivity | now rewrite app_nil_r].
  - exists (x :: pushed). split; [simpl; now rewrite L|].
    rewrite E, A, history_moveTo, Hh, <- app_assoc. reflexivity.
Qed.

(** [n] calls of [previous] pop [n] nodes pushed on a history that was
    not empty, and leave the session on the last node below them. *)
Lemma previousTimes_pops n : forall s below pushed,
  below <> [] -> history s = (below ++ pushed)%list -> List.length pushed = S n ->
  history (previousTimes (S n) s) = below
  /\ currentNodeId (previousTimes (S n) s) = last below "".
Proof.
  induction n as [|n IH]; intros s below pushed B E L.
  - destruct pushed as [|x [|y r]]; try discriminate L.
    assert (G : (1 < List.length (history s))%nat).
    { rewrite E, List.length_app. destruct below; [congruence | simpl; lia]. }
    cbn [previousTimes]. rewrite history_previous, currentNodeId_previous by exact G.
    destruct (Nat.leb_spec (List.length (history s)) 1); [lia|].
    rewrite E, removelast_last. now split.
  - destruct (exists_last (l := pushed)) as (r & x & P).
    { intros N. now rewrite N in L. }
    assert (G : (1 < List.length (history s))%nat).
    { rewrite E, List.length_app. destruct below; [congruence | simpl; lia]. }
    change (previousTimes (S (S n)) s) with (previousTimes (S n) (previous s)).
    apply (IH (previous s) below r B).
    + rewrite history_previous.
      destruct (Nat.leb_spec (List.length (history s)) 1); [lia|].
      now rewrite E, P, app_assoc, removelast_last.
    + rewrite P, List.length_app in L. simpl in L. lia.
Qed.

Lemma currentOnTop_same s s' :
  history s' = history s -> currentNodeId s' = currentNodeId s ->
  currentOnTop s -> currentOnTop s'.
Proof. unfold currentOnTop. intros -> ->. exact (fun H => H). Qed.

Lemma currentOnTop_previous s : currentOnTop s -> currentOnTop (previous s).
Proof.
  intros T. unfold previous.
  destruct (Nat.leb_spec (List.length (history s)) 1) as [L|L]; [exact T|].
  destruct T as (e & E). unfold currentOnTop. cbn [history currentNodeId
    setCurrentNodeId setHistory clearTemp setTempIntensities setTempRefinements
    setTempAnswers].
  rewrite E, removelast_last.
  destruct (exists_last (l := e)) as (e' & x & ->).
  - intros N. rewrite E, N in L. simpl in L. lia.
  - exists e'. now rewrite last_last.
Qed.

(** The current node stays the last entry of the history under every
    operation but a jump to a node that the history already holds. *)
Lemma currentOnTop_perform g op s :
  currentOnTop s ->
  match op with
  | OpJumpTo nodeId | OpJumpToCategory nodeId =>
      arrayIncludes (history s) nodeId = false
  | _ => True
  end ->
  currentOnTop (perform g op s).
Proof.
  intros T V.
  destruct op; cbn [perform];
    try (apply (currentOnTop_same s); [reflexivity | reflexivity | exact T]).
  - unfold selectTempAnswer. destruct (mapGet g (currentNodeId s)); [|exact T].
    destruct (findAnswer _ _); exact T.
  - unfold selectTempRefinement. destruct (mapGet g (currentNodeId s)); [|exact T].
    destruct (findAnswer _ _); exact T.
  - unfold goToNext.
    destruct (mapGet g (currentNodeId s)); [|exact T].
    destruct (_ && mapHas g "nsfw-options"); [now eexists|].
    destruct (hasNoAnswers _); [exact T|].
    destruct (firstSome _ _); [|exact T].
    destruct (findAnswer _ _); [|exact T].
    destruct (truthy _); [now eexists | exact T].
  - unfold skipToNext.
    destruct (mapGet g (currentNodeId s)); [|exact T].
    destruct (isWeightOnlyNsfw _ _); [now eexists|].
    destruct (match orEmpty (n_answers _) with [] => _ | _ => _ end); [now eexists|].
    destruct (orEmpty (n_refinements _)); [exact T|].
    destruct (negb _); [now eexists | exact T].
  - now apply currentOnTop_previous.
  - unfold jumpTo, visit. destruct (negb _); [exact T|].
    cbn [history setCurrentNodeId clearTemp setTempIntensities setTempRefinements
         setTempAnswers]. rewrite V. now eexists.
  - unfold jumpToCategory, visit. destruct (negb _); [exact T|].
    cbn [history setCurrentNodeId]. rewrite V. now eexists.
  - now exists [].
Qed.

(** After at least one advance, as many calls of [previous] end on the
    entry that was the last of the history before the first advance:
    the round trip returns to the node it started from exactly when
    that node was the last entry. *)
Lemma round_trip_ends_on_last g n s s' :
  history s <> [] -> advancedBy g (S n) s s' ->
  currentNodeId (previousTimes (S n) s') = last (history s) "".
Proof.
  intros H A.
  destruct (advancedBy_pushes g (S n) s s' A) as (pushed & L & E).
  now destruct (previousTimes_pops n s' (history s) pushed H E L).
Qed.

(** C5, as the code has it. [previous] never takes the history below
    one entry and does nothing when at most one remains; and when the
    current node is the last entry of the history, [n] successful
    advances followed by [n] calls of [previous] bring the current node
    back to what it was. *)
Theorem history_stack_discipline (g : NodeMap) :
  (forall s,
     ((1 <= List.length (history s))%nat ->
      (1 <= List.length (history (previous s)))%nat)
     /\ ((List.length (history s) <= 1)%nat -> previous s = s))
  /\ (forall n s s',
        currentOnTop s -> advancedBy g n s s' ->
        currentNodeId (previousTimes n s') = currentNodeId s).
Proof.
  split.
  - intros s. split; [apply previous_keeps_one | apply previous_noop].
  - intros n s s' T A.
    destruct (advancedBy_pushes g n s s' A) as (pushed & L & E).
    destruct n as [|n].
    + inversion A. reflexivity.
    + destruct (previousTimes_pops n s' (history s) pushed) as [_ C];
        try assumption.
      * destruct T as (e & T). rewrite T. now destruct e.
      * rewrite C. now apply currentOnTop_last.
Qed.

Lemma history_stack_discipline_witness :
  currentNodeId
    (previousTimes 2
       (goToNext demoGraph
          (selectTempAnswer demoGraph "long"
             (goToNext demoGraph
                (selectTempAnswer demoGraph "styled" initialState)))))
  = "root".
Proof.
  apply (proj2 (history_stack_discipline demoGraph) 2 initialState).
  - now exists [].
  - apply (advanced_S demoGraph 1 initialState
             (selectTempAnswer demoGraph "styled" initialState)).
    + vm_compute; reflexivity.
    + vm_compute; reflexivity.
    + exists "refine-hair". vm_compute; reflexivity.
    + apply (advanced_S demoGraph 0 _
               (selectTempAnswer demoGraph "long"
                  (goToNext demoGraph
                     (selectTempAnswer demoGraph "styled" initialState)))).
      * vm_compute; reflexivity.
      * vm_compute; reflexivity.
      * exists "hair-detail". vm_compute; reflexivity.
      * apply advanced_0.
Defined.

(** C5 as stated fails: a jump to a node already in the history moves
    the current node and leaves the history alone; from there one
    advance and one [previous] end on the node the advance went to. *)
Lemma previous_after_jump_back :
  reachable demoGraph afterJumpBack
  /\ currentNodeId afterJumpBack = "root"
  /\ history afterJumpBack = ["root"; "refine-hair"]
  /\ goToNext demoGraph afterJumpBack = moveTo "refine-hair" afterJumpBack
  /\ currentNodeId (previousTimes 1 (goToNext demoGraph afterJumpBack))
     = "refine-hair".
Proof.
  split_all; try (vm_compute; reflexivity).
  unfold afterJumpBack, run. cbn [fold_left].
  repeat apply reach_step. apply reach_start.
Qed.

(* ================================================================= *)
(** ** Removal, the category jump and the preview *)





(** What the removal does in the demo session: the refinement goes, and
    the weight the commit bound to it goes with it. *)
Example removeSelection_demo :
  committedRefinements (removeSelection "sel-4" afterSliderCommit) = []
  /\ weightValues (removeSelection "sel-4" afterSliderCommit) = []
  /\ committedAnswers (removeSelection "sel-4" afterSliderCommit)
     = committedAnswers afterSliderCommit.
Proof. split_all; vm_compute; reflexivity. Qed.

(** C7, as the code has it. The category jump has the guard of the
    plain jump: for a node that the map does not hold both do nothing.
    For a node that the map holds the category jump makes it current
    and appends it to the history when the history does not hold it.
    It never touches the temporary state: the temporary answers,
    refinements and intensities are the same after it as before. *)
Theorem jumpToCategory_frame (g : NodeMap) (nodeId : string) (s : EngineState) :
  tempAnswers (jumpToCategory g nodeId s) = tempAnswers s
  /\ tempRefinements (jumpToCategory g nodeId s) = tempRefinements s
  /\ tempIntensities (jumpToCategory g nodeId s) = tempIntensities s
  /\ (mapHas g nodeId = false ->
      jumpToCategory g nodeId s = s /\ jumpTo g nodeId s = s)
  /\ (mapHas g nodeId = true ->
      currentNodeId (jumpToCategory g nodeId s) = nodeId
      /\ history (jumpToCategory g nodeId s)
         = if arrayIncludes (history s) nodeId then history s
           else (history s ++ [nodeId])%list).
Proof.
  unfold jumpToCategory, jumpTo, visit.
  destruct (mapHas g nodeId); cbn [negb].
  - cbn [history setCurrentNodeId].
    destruct (arrayIncludes (history s) nodeId); repeat split; try reflexivity;
      discriminate.
  - repeat split; try reflexivity; discriminate.
Qed.

(** A target that the map does not hold, and one it holds, from a
    state with a temporary answer at the root. *)
Lemma jumpToCategory_frame_witness :
  (jumpToCategory demoGraph "ghost" afterJumpBack = afterJumpBack
   /\ jumpTo demoGraph "ghost" afterJumpBack = afterJumpBack)
  /\ (currentNodeId (jumpToCategory demoGraph "hair-detail" afterJumpBack)
      = "hair-detail"
      /\ history (jumpToCategory demoGraph "hair-detail" afterJumpBack)
         = ["root"; "refine-hair"; "hair-detail"])
  /\ tempAnswers (jumpToCategory demoGraph "hair-detail" afterJumpBack)
     = [ ("root",
          {| sa_id := "temp-root-styled"; sa_nodeId := "root";
             sa_answerId := "styled"; sa_label := "Styled";
             sa_questionText := Some "Who is the subject?" |}) ].
Proof.
  pose proof (jumpToCategory_frame demoGraph "ghost" afterJumpBack)
    as (_ & _ & _ & G & _).
  pose proof (jumpToCategory_frame demoGraph "hair-detail" afterJumpBack)
    as (A & _ & _ & _ & H).
  split; [|split].
  - apply G. vm_compute; reflexivity.
  - assert (M : mapHas demoGraph "hair-detail" = true) by (vm_compute; reflexivity).
    destruct (H M) as [C Hy]. split; [exact C|].
    rewrite Hy. vm_compute; reflexivity.
  - rewrite A. vm_compute; reflexivity.
Defined.

(** C7 as stated fails: "ghost" is not a node of the demo graph, the
    plain jump rejects it, and the category jump leaves the current
    node where it was. *)
Lemma jumpToCategory_keeps_guard :
  mapHas demoGraph "ghost" = false
  /\ jumpTo demoGraph "ghost" initialState = initialState
  /\ currentNodeId (jumpToCategory demoGraph "ghost" initialState) = "root"
  /\ jumpToCategory demoGraph "ghost" initialState = initialState.
Proof. split_all; vm_compute; reflexivity. Qed.

Lemma previewKeeps_spec answers w :
  previewKeeps answers w = true <->
  truthy (w_associatedAnswerId w) = false
  \/ exists a, In a answers /\ w_associatedAnswerId w = Some (sa_id a).
Proof.
  unfold previewKeeps. rewrite orb_true_iff, negb_true_iff, arrayIncludes_In, in_map_iff.
  split.
  - intros [T|(a & E & I)]; [now left|].
    destruct (w_associatedAnswerId w) as [x|] eqn:A; [|now left].
    right. exists a. split; [exact I | now rewrite E].
  - intros [T|(a & I & E)]; [now left|].
    right. exists a. split; [now rewrite E | exact I].
Qed.

(** Deleting an entry that the filter drops does not change what the
    preview hands to the assembler. *)
Lemma previewWeights_delete answers key w (m : jsmap WeightValue) :
  mapGet m key = Some w -> previewKeeps answers w = false ->
  filter (previewKeeps answers) (mapValues (mapDelete m key))
  = filter (previewKeeps answers) (mapValues m).
Proof.
  unfold mapValues.
  induction m as [|[k v] r IH]; intros G K; [discriminate|].
  simpl in G |- *. destruct (k =? key).
  - injection G as ->. now rewrite K.
  - simpl. now rewrite (IH G K).
Qed.

(** C9. The preview hands to the assembler exactly the weights that are
    bound to nothing or to the id of a committed answer. A weight bound
    to the id of a committed refinement, which is the id of no committed
    answer, is therefore not among them, and the preview is what it
    would be without that weight, while the refinement stays committed. *)
Theorem preview_filters_weights
    (sanitizeTemplate : string -> list string -> string) (s : EngineState) :
  (forall w,
     In w (previewWeights s) <->
     In w (mapValues (weightValues s))
     /\ (truthy (w_associatedAnswerId w) = false
         \/ exists a, In a (committedAnswers s)
                      /\ w_associatedAnswerId w = Some (sa_id a)))
  /\ getPreviewPrompt sanitizeTemplate s
     = assemblePrompt sanitizeTemplate (committedAnswers s) (committedRefinements s)
         (previewWeights s) (customElements s)
  /\ (forall key w r,
        mapGet (weightValues s) key = Some w ->
        In r (committedRefinements s) ->
        w_associatedAnswerId w = Some (sr_id r) ->
        sr_id r <> "" ->
        (forall a, In a (committedAnswers s) -> sa_id a <> sr_id r) ->
        ~ In w (previewWeights s)
        /\ committedRefinements
             (setWeightValues (mapDelete (weightValues s) key) s)
           = committedRefinements s
        /\ getPreviewPrompt sanitizeTemplate
             (setWeightValues (mapDelete (weightValues s) key) s)
           = getPreviewPrompt sanitizeTemplate s).
Proof.
  split; [|split].
  - intros w. unfold previewWeights. now rewrite filter_In, previewKeeps_spec.
  - reflexivity.
  - intros key w r G R A N U.
    assert (K : previewKeeps (committedAnswers s) w = false).
    { destruct (previewKeeps (committedAnswers s) w) eqn:K; [|reflexivity].
      apply previewKeeps_spec in K as [T|(a & I & E)].
      - rewrite A in T. cbn in T. now rewrite (isEmpty_false _ N) in T.
      - exfalso. apply (U a I). congruence. }
    repeat split.
    + unfold previewWeights. rewrite filter_In. intros [_ X]. congruence.
    + unfold getPreviewPrompt, previewWeights.
      change (weightValues (setWeightValues (mapDelete (weightValues s) key) s))
        with (mapDelete (weightValues s) key).
      now rewrite (previewWeights_delete _ key w).
Qed.

Lemma preview_filters_weights_witness :
  committedRefinements afterSliderCommit = [longRefinement]
  /\ weightValues afterSliderCommit = [("weight-sel-4-shine", shineOnLong)]
  /\ previewWeights afterSliderCommit = []
  /\ prompt (getPreviewPrompt plainSanitizer afterSliderCommit) = "Styled, Long"
  /\ getPreviewPrompt plainSanitizer
       (setWeightValues
          (mapDelete (weightValues afterSliderCommit) "weight-sel-4-shine")
          afterSliderCommit)
     = getPreviewPrompt plainSanitizer afterSliderCommit.
Proof.
  split_all; [vm_compute; reflexivity .. |].
  apply (proj2 (proj2 (preview_filters_weights plainSanitizer afterSliderCommit))
           "weight-sel-4-shine" shineOnLong longRefinement).
  - vm_compute; reflexivity.
  - vm_compute. now left.
  - reflexivity.
  - discriminate.
  - intros a I E. change (sa_id a = "sel-4") in E.
    assert (A : arrayIncludes (map sa_id (committedAnswers afterSliderCommit)) "sel-4"
                = true)
      by (apply arrayIncludes_In; rewrite <- E; now apply in_map).
    vm_compute in A. discriminate A.
Defined.

(* ================================================================= *)
(** * Further properties *)

(* ================================================================= *)
(** ** The normalizer on any tags *)

Ltac not_this_tag H :=
  repeat match goal with
         | |- context [?tag =? ?k] =>
             destruct (String.eqb_spec tag k) as [->|_];
             [exfalso; apply H; simpl; tauto|]
         end.

Lemma applyRule_unknown t tag : ~ In tag tableTags -> applyRule t tag = t.
Proof.
  intros H. unfold applyRule, NORMALIZATION_RULES. not_this_tag H. reflexivity.
Qed.

Lemma arrayIncludes_spec xs x : reflect (In x xs) (arrayIncludes xs x).
Proof.
  destruct (arrayIncludes xs x) eqn:E; constructor.
  - now apply arrayIncludes_In.
  - intros I. apply arrayIncludes_In in I. congruence.
Qed.

(** X1. Among tags that name no inherited property of the table (for
    those the source calls a function of [Object.prototype]), a tag
    that is not in the rule table changes nothing: the normalizer gives
    the same result with such tags removed. *)
Theorem normalizeTemplate_ignores_unknown_tags (t : string) (tags : list string) :
  ownTags tags = true ->
  normalizeTemplate t tags
  = normalizeTemplate t (filter (arrayIncludes tableTags) tags).
Proof.
  intros _.
  unfold normalizeTemplate. generalize (trim (toLowerCase t)) as x.
  induction tags as [|g r IH]; intros x; [reflexivity|].
  cbn [filter fold_left].
  destruct (arrayIncludes_spec tableTags g) as [I|N].
  - cbn [fold_left]. apply IH.
  - rewrite (applyRule_unknown x g N). apply IH.
Qed.

Lemma normalizeTemplate_ignores_unknown_tags_witness :
  normalizeTemplate "Shine" ["glossy"; "lighting"; "vintage"; "materials"]
  = normalizeTemplate "Shine" ["lighting"; "materials"]
  /\ normalizeTemplate "Shine" ["lighting"; "materials"]
     = "lighting shine material texture".
Proof.
  split; [|reflexivity].
  apply (normalizeTemplate_ignores_unknown_tags "Shine"
           ["glossy"; "lighting"; "vintage"; "materials"]).
  reflexivity.
Defined.

Ltac rule_cases :=
  repeat match goal with
         | |- context [if ?b then _ else _] => destruct b
         end.

Lemma applyRule_lowercase t tag :
  toLowerCase t = t -> toLowerCase (applyRule t tag) = applyRule t tag.
Proof.
  intros L. unfold applyRule, NORMALIZATION_RULES.
  rule_cases; rewrite ?toLowerCase_app, ?L; reflexivity.
Qed.

(** X2. For tags that name no inherited property of the table
    ("toString" gives "[object Undefined]" in the source), the
    normalized template is in lower case. *)
Theorem normalizeTemplate_lowercase (t : string) (tags : list string) :
  ownTags tags = true ->
  toLowerCase (normalizeTemplate t tags) = normalizeTemplate t tags.
Proof.
  intros _.
  unfold normalizeTemplate.
  assert (L : toLowerCase (trim (toLowerCase t)) = trim (toLowerCase t))
    by now rewrite toLowerCase_trim, toLowerCase_idem.
  revert L. generalize (trim (toLowerCase t)) as x.
  induction tags as [|g r IH]; intros x L; [exact L|].
  cbn [fold_left]. apply IH. now apply applyRule_lowercase.
Qed.

Lemma normalizeTemplate_lowercase_witness :
  toLowerCase (normalizeTemplate "Soft WAVES" ["hair"; "Glossy"; "lighting"])
  = normalizeTemplate "Soft WAVES" ["hair"; "Glossy"; "lighting"]
  /\ normalizeTemplate "Soft WAVES" ["hair"; "Glossy"; "lighting"]
     = "lighting soft loose waves in the hair".
Proof.
  split; [|reflexivity].
  apply (normalizeTemplate_lowercase "Soft WAVES" ["hair"; "Glossy"; "lighting"]).
  reflexivity.
Defined.

Lemma append_nonempty_r s t : t <> "" -> s ++ t <> "".
Proof.
  intros N E. destruct s; [now apply N | discriminate E].
Qed.

Lemma applyRule_table_nonempty t tag : In tag tableTags -> applyRule t tag <> "".
Proof.
  intros I. unfold tableTags in I. simpl in I.
  repeat (destruct I as [I | I];
          [ subst tag; unfold applyRule; cbn;
            repeat match goal with
                   | |- context [includes t ?k] => destruct (includes t k) eqn:?
                   end;
            cbn;
            first [ discriminate
                  | apply append_nonempty_r; discriminate
                  | intros ->; discriminate ] | ]).
  contradiction.
Qed.

Lemma applyRule_keeps_nonempty t tag : t <> "" -> applyRule t tag <> "".
Proof.
  intros N. destruct (arrayIncludes_spec tableTags tag) as [I|U].
  - now apply applyRule_table_nonempty.
  - now rewrite applyRule_unknown.
Qed.

Lemma normalizeLoop_keeps_nonempty tags : forall t,
  t <> "" -> normalizeLoop tags t <> "".
Proof.
  induction tags as [|g r IH]; intros t N; [exact N|].
  apply IH. now apply applyRule_keeps_nonempty.
Qed.

(** X3. For tags that name no inherited property of the table (on
    "valueOf" the source throws), of which at least one is a tag of the
    rule table, the normalized template is not empty, even for an empty
    or blank template. *)
Theorem normalizeTemplate_nonempty (t : string) (tags : list string) (tag : string) :
  ownTags tags = true ->
  In tag tags -> In tag tableTags -> normalizeTemplate t tags <> "".
Proof.
  intros _ I T. unfold normalizeTemplate.
  apply in_split in I as (before & after & ->).
  rewrite fold_left_app. cbn [fold_left].
  apply (normalizeLoop_keeps_nonempty after).
  now apply applyRule_table_nonempty.
Qed.

Lemma normalizeTemplate_nonempty_witness :
  normalizeTemplate "   " ["vintage"; "materials"] <> ""
  /\ normalizeTemplate "   " ["vintage"; "materials"] = " material texture".
Proof.
  split; [|reflexivity].
  apply (normalizeTemplate_nonempty "   " ["vintage"; "materials"] "materials");
    [reflexivity | simpl; tauto | simpl; tauto].
Defined.

(* ================================================================= *)
(** ** The expander in the anatomical context *)

Lemma anatomicalKeys_differ a :
  In a anatomicalKeys -> anatomicalPhraseDiffers a = true
                         /\ forall answer, breastExpansion a answer = breastExpansion a "?".
Proof.
  intros I. cbn in I.
  repeat (destruct I as [I | I]; [subst a; split; [vm_compute|intros]; reflexivity | ]).
  contradiction.
Qed.

Lemma anatomicalKeys_listed a :
  In a anatomicalKeys ->
  arrayIncludes ABSTRACT_ANSWERS a || arrayIncludes BREAST_SHAPE_KEYWORDS a = true.
Proof.
  intros I. cbn in I.
  repeat (destruct I as [I | I]; [subst a; vm_compute; reflexivity | ]).
  contradiction.
Qed.

Lemma listed_not_anatomical a answer :
  arrayIncludes ABSTRACT_ANSWERS a || arrayIncludes BREAST_SHAPE_KEYWORDS a = true ->
  ~ In a anatomicalKeys -> breastExpansion a answer = answer.
Proof.
  intros L N. apply orb_true_iff in L as [L|L]; apply arrayIncludes_In in L;
    cbn in L;
    repeat (destruct L as [L | L];
            [subst a; first [reflexivity | exfalso; apply N; cbn; tauto] | ]);
    contradiction.
Qed.

(** X4. For a question in the anatomical context the expander rewrites
    the label exactly when its lower-cased, trimmed form is a shape
    keyword or one of nine intensity adjectives. "focused" and "slight"
    come back unchanged although they are intensity adjectives, and so
    do "bell", "slender", "relaxed", "conical" and the alternative
    spellings, whose phrases in the table can never be returned. *)
Theorem expandAbstractAnswer_anatomical (answer question : string) :
  isBreastContext (toLowerCase question) = true ->
  (expandAbstractAnswer answer question = answer
   <-> ~ In (trim (toLowerCase answer)) anatomicalKeys).
Proof.
  intros C. unfold expandAbstractAnswer. rewrite C. cbn [andb].
  remember (trim (toLowerCase answer)) as a eqn:A.
  destruct (arrayIncludes ABSTRACT_ANSWERS a || arrayIncludes BREAST_SHAPE_KEYWORDS a)
    eqn:L.
  - assert (X : negb (arrayIncludes BREAST_SHAPE_KEYWORDS a)
                && (negb (arrayIncludes ABSTRACT_ANSWERS a)
                    && negb (arrayIncludes BREAST_SHAPE_KEYWORDS a)) = false).
    { destruct (arrayIncludes ABSTRACT_ANSWERS a),
               (arrayIncludes BREAST_SHAPE_KEYWORDS a); try reflexivity; discriminate. }
    rewrite X. split.
    + intros E I. destruct (anatomicalKeys_differ a I) as [D F].
      unfold anatomicalPhraseDiffers in D. rewrite <- (F answer), E, <- A in D.
      now rewrite String.eqb_refl in D.
    + now apply listed_not_anatomical.
  - apply orb_false_iff in L as [L1 L2]. rewrite L1, L2. cbn. split; [|reflexivity].
    intros _ I. apply anatomicalKeys_listed in I. now rewrite L1, L2 in I.
Qed.

Lemma expandAbstractAnswer_anatomical_witness :
  expandAbstractAnswer "Slight" "What is the bust shape?" = "Slight"
  /\ expandAbstractAnswer " Conical " "What is the bust shape?" = " Conical ".
Proof.
  split.
  - apply (proj2 (expandAbstractAnswer_anatomical "Slight" "What is the bust shape?"
                    eq_refl)).
    vm_compute. intuition discriminate.
  - apply (proj2 (expandAbstractAnswer_anatomical " Conical " "What is the bust shape?"
                    eq_refl)).
    vm_compute. intuition discriminate.
Defined.

(* ================================================================= *)
(** ** toFixed(2): rounding and sign *)


Lemma startsWith_empty s : startsWith s "" = true.
Proof. now destruct s. Qed.

(* ================================================================= *)
(** ** More on the assembler *)

Lemma loop_pairs san answers ws : forall seen,
  NoDup seen ->
  exists pairs : list (string * Q),
    seenFrom san answers seen ws = (seen ++ map fst pairs)%list
    /\ NoDup (seen ++ map fst pairs)
    /\ partsFrom san answers seen ws
       = map (fun p => fragment (fst p) (snd p)) pairs
    /\ (List.length pairs <= List.length ws)%nat.
Proof.
  induction ws as [|w r IH]; intros seen N.
  - exists []. cbn. rewrite app_nil_r. repeat split; auto.
  - rewrite partsFrom_cons, seenFrom_cons.
    destruct (weightKey san answers w) as [k|];
      [destruct (arrayIncludes_spec seen k) as [I|I]|].
    + destruct (IH seen N) as (pairs & S & D & P & L).
      exists pairs. repeat split; try assumption. simpl; lia.
    + assert (N' : NoDup (seen ++ [k])).
      { apply NoDup_app; [exact N | repeat constructor; intros [] |].
        intros x Ix [<-|[]]. contradiction. }
      destruct (IH _ N') as (pairs & S & D & P & L).
      exists ((k, w_value w) :: pairs). cbn [map fst snd].
      rewrite <- app_assoc in S, D. cbn [app] in S, D.
      repeat split; try assumption; [now rewrite P | simpl; lia].
    + destruct (IH seen N) as (pairs & S & D & P & L).
      exists pairs. repeat split; try assumption. simpl; lia.
Qed.

(** X7. In every assembled prompt the fragments of the weights have
    pairwise distinct texts, and there is at most one fragment for each
    weight of the input. *)
Theorem weightParts_distinct_texts
    (sanitizeTemplate : string -> list string -> string)
    (answers : list SelectedAnswer) (ws : list WeightValue) :
  exists pairs : list (string * Q),
    weightParts sanitizeTemplate answers ws
    = map (fun p => fragment (fst p) (snd p)) pairs
    /\ NoDup (map fst pairs)
    /\ map fst pairs = seenAfter sanitizeTemplate answers ws
    /\ (List.length pairs <= List.length ws)%nat.
Proof.
  destruct (loop_pairs sanitizeTemplate answers ws [] (NoDup_nil _))
    as (pairs & S & D & P & L).
  exists pairs. split; [exact P|]. split; [exact D|]. split; [|exact L].
  unfold seenAfter. now rewrite S.
Qed.

(** X8. An intensity weight without a selection label (absent or
    empty) contributes nothing: the assembler returns what it returns
    without that weight. *)
Theorem intensity_without_label_dropped
    (sanitizeTemplate : string -> list string -> string)
    (answers : list SelectedAnswer) (refinements : list SelectedRefinement)
    (ws1 : list WeightValue) (w : WeightValue) (ws2 : list WeightValue)
    (cs : list CustomElement) :
  w_attrId w = "intensity" -> truthy (w_answerLabel w) = false ->
  assemblePrompt sanitizeTemplate answers refinements (ws1 ++ w :: ws2) cs
  = assemblePrompt sanitizeTemplate answers refinements (ws1 ++ ws2) cs.
Proof.
  intros I L. apply assemblePrompt_same_weightParts, partsFrom_skip.
  unfold weightKey. now rewrite I, L.
Qed.

Lemma intensity_without_label_dropped_witness :
  assemblePrompt plainSanitizer [longHair] []
    ([intensityOf longHair (3 # 2)]
     ++ {| w_id := "temp-intensity"; w_attrId := "intensity"; w_value := 2;
           w_template := "intensity"; w_tags := None;
           w_associatedAnswerId := None; w_answerLabel := Some "" |} :: []) []
  = assemblePrompt plainSanitizer [longHair] []
      ([intensityOf longHair (3 # 2)] ++ []) [].
Proof.
  apply intensity_without_label_dropped; reflexivity.
Defined.

Lemma filter_enabled_twice (p : CustomElement -> bool) cs :
  filter (fun e => ce_enabled e && p e) (filter ce_enabled cs)
  = filter (fun e => ce_enabled e && p e) cs.
Proof.
  induction cs as [|c r IH]; [reflexivity|].
  cbn [filter]. destruct (ce_enabled c) eqn:E; cbn [filter andb]; rewrite ?E;
    cbn [andb]; now rewrite IH.
Qed.

(** X9. A disabled custom element plays no part: the assembler returns
    the same two strings with the disabled elements removed. *)
Theorem assemblePrompt_ignores_disabled
    (sanitizeTemplate : string -> list string -> string)
    (answers : list SelectedAnswer) (refinements : list SelectedRefinement)
    (ws : list WeightValue) (cs : list CustomElement) :
  assemblePrompt sanitizeTemplate answers refinements ws cs
  = assemblePrompt sanitizeTemplate answers refinements ws (filter ce_enabled cs).
Proof.
  unfold assemblePrompt, promptParts, customPromptElements, customNegativeElements.
  now rewrite !filter_enabled_twice.
Qed.





(* ================================================================= *)
(** ** The subject extraction on the three forms of question *)

Lemma dropChars_suffix n : forall s, exists p, s = p ++ dropChars n s.
Proof.
  induction n as [|n IH]; intros s; [now exists ""|].
  destruct s as [|c r]; [now exists ""|].
  destruct (IH r) as (p & E). exists (String c p). cbn. now rewrite <- E.
Qed.

Lemma lazyGroup_split tail s m :
  lazyGroup tail s = Some m -> exists r, s = m ++ r /\ tail r = true.
Proof.
  revert m. induction s as [|c r IH]; intros m; [discriminate|].
  cbn. destruct (isLineTerminator c); [discriminate|].
  destruct (tail r) eqn:T.
  - intros [= <-]. now exists r.
  - destruct (lazyGroup tail r) as [m'|]; [|discriminate].
    intros [= <-]. destruct (IH m' eq_refl) as (r' & -> & T').
    now exists r'.
Qed.

Lemma afterVerb_suffix tail s m :
  afterVerb tail s = Some m -> exists p r, s = p ++ r /\ tail r = true.
Proof.
  unfold afterVerb. destruct (startsWith s " "); [|discriminate].
  destruct (dropChars_suffix 1 s) as (p1 & E1).
  intros H. apply firstSome_cases in H as [H|H].
  - destruct (startsWith _ "the "); [|discriminate].
    destruct (dropChars_suffix 4 (dropChars 1 s)) as (p2 & E2).
    apply lazyGroup_split in H as (r & E & T).
    exists (p1 ++ p2 ++ m), r. split; [|exact T].
    rewrite E1 at 1. rewrite E2 at 1. rewrite E. now rewrite !string_app_assoc.
  - apply lazyGroup_split in H as (r & E & T).
    exists (p1 ++ m), r. split; [|exact T].
    rewrite E1 at 1. rewrite E. now rewrite !string_app_assoc.
Qed.

Lemma matchHere_suffix tail s m :
  matchHere tail s = Some m -> exists p r, s = p ++ r /\ tail r = true.
Proof.
  unfold matchHere. destruct (startsWith s "what "); [|discriminate].
  destruct (dropChars_suffix 5 s) as (p1 & E1).
  intros H. apply firstSome_cases in H as [H|H].
  - destruct (startsWith _ "are"); [|discriminate].
    destruct (dropChars_suffix 3 (dropChars 5 s)) as (p2 & E2).
    apply afterVerb_suffix in H as (p & r & E & T).
    exists (p1 ++ p2 ++ p), r. split; [|exact T].
    rewrite E1 at 1. rewrite E2 at 1. rewrite E. now rewrite !string_app_assoc.
  - destruct (startsWith _ "is"); [|discriminate].
    destruct (dropChars_suffix 2 (dropChars 5 s)) as (p2 & E2).
    apply afterVerb_suffix in H as (p & r & E & T).
    exists (p1 ++ p2 ++ p), r. split; [|exact T].
    rewrite E1 at 1. rewrite E2 at 1. rewrite E. now rewrite !string_app_assoc.
Qed.

(** A match of either pattern ends where the input ends, on a tail. *)
Lemma regexSearch_suffix tail s m :
  regexSearch tail s = Some m -> exists p r, s = p ++ r /\ tail r = true.
Proof.
  induction s as [|c s IH]; intros H.
  - discriminate H.
  - change (firstSome (matchHere tail (String c s)) (regexSearch tail s) = Some m) in H.
    apply firstSome_cases in H as [H|H]; [now apply matchHere_suffix in H|].
    destruct (IH H) as (p & r & -> & T). now exists (String c p), r.
Qed.

Lemma append_last_inj p : forall p' c c',
  p ++ String c "" = p' ++ String c' "" -> p = p' /\ c = c'.
Proof.
  induction p as [|a r IH]; intros [|a' r'] c c' E; cbn in E.
  - now injection E.
  - injection E as _ E. destruct r'; discriminate E.
  - injection E as _ E. destruct r; discriminate E.
  - injection E as -> E. destruct (IH _ _ _ E) as [-> ->]. now split.
Qed.

Lemma endsWith_app p k : endsWith (p ++ k) k = true.
Proof.
  induction p as [|c r IH].
  - destruct k; cbn; [reflexivity|]. now rewrite Ascii.eqb_refl, String.eqb_refl.
  - cbn [append endsWith]. rewrite IH. apply orb_true_r.
Qed.

(** The pattern with "like" cannot match a question that ends in "?"
    without " like" before it. *)
Lemma likeTail_no_match q m :
  endsWith q " like" = false -> regexSearch likeTail (q ++ "?") = Some m -> False.
Proof.
  intros N H. apply regexSearch_suffix in H as (p & r & E & T).
  unfold likeTail in T. apply orb_true_iff in T as [T|T];
    apply String.eqb_eq in T; subst r.
  - change (p ++ " like") with (p ++ " lik" ++ String "e" "") in E.
    rewrite <- string_app_assoc in E.
    apply append_last_inj in E as [_ E]. discriminate E.
  - change (p ++ " like?") with (p ++ " like" ++ String "?" "") in E.
    rewrite <- string_app_assoc in E.
    apply append_last_inj in E as [E _]. subst q.
    now rewrite endsWith_app in N.
Qed.

(** The lazy group stops at the first tail: here, at the end of [x]. *)
Lemma lazyGroup_whole tail x t :
  x <> "" -> allChars notLineTerminator x = true -> tail t = true ->
  (forall c r, tail (String c r ++ t) = false) ->
  lazyGroup tail (x ++ t) = Some x.
Proof.
  intros N L T F. induction x as [|c r IH]; [congruence|].
  cbn in L. apply andb_true_iff in L as [L1 L2].
  unfold notLineTerminator in L1. apply negb_true_iff in L1.
  cbn [append lazyGroup]. rewrite L1.
  destruct r as [|c' r'].
  - cbn [append]. now rewrite T.
  - rewrite (F c' r'). rewrite IH; [reflexivity | discriminate | exact L2].
Qed.

Lemma string_length_app s t :
  String.length (s ++ t) = (String.length s + String.length t)%nat.
Proof.
  induction s as [|c r IH]; simpl; [reflexivity|]. now rewrite IH.
Qed.

Lemma likeTail_longer t c r :
  t = " like" \/ t = " like?" -> likeTail (String c r ++ t) = false.
Proof.
  intros [-> | ->]; apply orb_false_iff; split; apply String.eqb_neq; intros E;
    pose proof (f_equal String.length E) as L;
    cbn [append String.length] in L; rewrite string_length_app in L;
    cbn in L; try lia.
  destruct r; [cbn in E; discriminate E | cbn in L; lia].
Qed.

Lemma questionTail_longer c r : questionTail (String c r ++ "?") = false.
Proof.
  unfold questionTail. apply String.eqb_neq. intros E.
  pose proof (f_equal String.length E) as L.
  cbn [append String.length] in L. rewrite string_length_app in L. cbn in L. lia.
Qed.

(** X11. Subject extraction on the lower-cased question: for a question
    "what is the X?" or "what are the X?", with X not empty, without
    line break and the question not ending in " like?", the subject is
    X; for "what is/are the X like" and "what is/are the X like?" it is
    X as well. *)
Theorem matchSubject_extracts (verb x ending : string) :
  verb = "is" \/ verb = "are" ->
  x <> "" -> allChars notLineTerminator x = true ->
  (ending = "?" /\ endsWith ("what " ++ verb ++ " the " ++ x) " like" = false)
  \/ ending = " like" \/ ending = " like?" ->
  matchSubject ("what " ++ verb ++ " the " ++ x ++ ending) = Some x.
Proof.
  intros V N L [[-> E] | K].
  - unfold matchSubject.
    destruct (regexSearch likeTail ("what " ++ verb ++ " the " ++ x ++ "?"))
      as [m|] eqn:R.
    + exfalso. apply (likeTail_no_match _ m E).
      now rewrite !string_app_assoc.
    + cbn [firstSome].
      assert (G : lazyGroup questionTail (x ++ "?") = Some x)
        by (apply lazyGroup_whole; auto using questionTail_longer).
      destruct V as [-> | ->];
        change (regexSearch questionTail ?s)
          with (firstSome (matchHere questionTail s)
                          (regexSearch questionTail (dropChars 1 s)));
        unfold matchHere, afterVerb; cbn [append startsWith dropChars Ascii.eqb
          Bool.eqb andb firstSome]; rewrite ?startsWith_empty; cbn [firstSome];
        rewrite G; reflexivity.
  - unfold matchSubject.
    assert (G : lazyGroup likeTail (x ++ ending) = Some x).
    { apply lazyGroup_whole; auto using likeTail_longer.
      destruct K as [-> | ->]; reflexivity. }
    destruct V as [-> | ->];
      change (regexSearch likeTail ?s)
        with (firstSome (matchHere likeTail s)
                        (regexSearch likeTail (dropChars 1 s)));
      unfold matchHere, afterVerb; cbn [append startsWith dropChars Ascii.eqb
        Bool.eqb andb firstSome]; rewrite ?startsWith_empty; cbn [firstSome];
      rewrite G; reflexivity.
Qed.

Lemma matchSubject_extracts_witness :
  matchSubject "what is the hair texture?" = Some "hair texture"
  /\ matchSubject "what are the lips like?" = Some "lips".
Proof.
  split.
  - apply (matchSubject_extracts "is" "hair texture" "?");
      [now left | discriminate | reflexivity | left; split; reflexivity].
  - apply (matchSubject_extracts "are" "lips" " like?");
      [now right | discriminate | reflexivity | right; now right].
Defined.

(** The raw lazy match shows where the condition on " like" comes from:
    in "what is the like?" the optional "the " is given up and becomes
    the subject. *)
Example matchSubject_gives_up_the :
  matchSubject "what is the like?" = Some "the".
Proof. reflexivity. Qed.

(** X12. The part of a committed answer away from the body-type node,
    whose label is in neither catalogue and whose question reads, in
    lower case, "what is/are the X" followed by "?", " like" or
    " like?": the lower-cased label, a space and X trimmed. *)
Theorem answerPart_appends_subject (a : SelectedAnswer)
    (question verb x ending : string) :
  sa_questionText a = Some question ->
  sa_nodeId a <> "character-build" ->
  arrayIncludes ABSTRACT_ANSWERS (trim (toLowerCase (sa_label a))) = false ->
  arrayIncludes BREAST_SHAPE_KEYWORDS (trim (toLowerCase (sa_label a))) = false ->
  toLowerCase question = "what " ++ verb ++ " the " ++ x ++ ending ->
  verb = "is" \/ verb = "are" ->
  x <> "" -> allChars notLineTerminator x = true ->
  (ending = "?" /\ endsWith ("what " ++ verb ++ " the " ++ x) " like" = false)
  \/ ending = " like" \/ ending = " like?" ->
  answerPart a = toLowerCase (sa_label a) ++ " " ++ trim x.
Proof.
  intros Q B A S E V N L K.
  unfold answerPart. rewrite Q.
  assert (T : truthy (Some question) = true).
  { destruct question; [discriminate E | reflexivity]. }
  rewrite T. cbn [optString andb].
  rewrite expandAbstractAnswer_unlisted by assumption.
  apply String.eqb_neq in B. rewrite B, A. cbn [negb].
  rewrite E, (matchSubject_extracts verb x ending V N L K).
  now rewrite (isEmpty_false x N).
Qed.

Lemma answerPart_appends_subject_witness :
  answerPart curlyHair = "curly hair texture".
Proof.
  apply (answerPart_appends_subject curlyHair "What is the hair texture?" "is"
           "hair texture" "?");
    [ reflexivity | discriminate | reflexivity | reflexivity | reflexivity
    | now left | discriminate | reflexivity | left; split; reflexivity ].
Defined.

(* ================================================================= *)
(** ** Maps *)

Lemma mapGet_mapSet_same {V} (m : jsmap V) k v : mapGet (mapSet m k v) k = Some v.
Proof.
  induction m as [|[k' v'] r IH]; cbn.
  - now rewrite String.eqb_refl.
  - destruct (k' =? k) eqn:E; cbn; [now rewrite String.eqb_refl | now rewrite E].
Qed.

Lemma mapGet_mapSet_other {V} (m : jsmap V) k v k' :
  k <> k' -> mapGet (mapSet m k v) k' = mapGet m k'.
Proof.
  intros N. apply String.eqb_neq in N.
  induction m as [|[k0 v0] r IH]; cbn.
  - now rewrite N.
  - destruct (k0 =? k) eqn:E; cbn.
    + apply String.eqb_eq in E. subst k0. now rewrite N.
    + now rewrite IH.
Qed.

Lemma mapGet_mapSet {V} (m : jsmap V) k v k' :
  mapGet (mapSet m k v) k' = if k =? k' then Some v else mapGet m k'.
Proof.
  destruct (String.eqb_spec k k') as [<-|N];
    [apply mapGet_mapSet_same | now apply mapGet_mapSet_other].
Qed.

Lemma mapGet_mapDelete_other {V} (m : jsmap V) k k' :
  k <> k' -> mapGet (mapDelete m k) k' = mapGet m k'.
Proof.
  intros N. apply String.eqb_neq in N.
  induction m as [|[k0 v0] r IH]; cbn; [reflexivity|].
  destruct (k0 =? k) eqn:E; cbn.
  - apply String.eqb_eq in E. subst k0. now rewrite N.
  - now rewrite IH.
Qed.

Lemma mapGet_None {V} (m : jsmap V) k : mapGet m k = None <-> ~ In k (map fst m).
Proof.
  induction m as [|[k0 v0] r IH]; cbn; [tauto|].
  destruct (String.eqb_spec k0 k) as [->|N].
  - split; [discriminate | intros H; exfalso; apply H; now left].
  - rewrite IH. tauto.
Qed.

Lemma mapGet_In {V} (m : jsmap V) k v : mapGet m k = Some v -> In (k, v) m.
Proof.
  induction m as [|[k0 v0] r IH]; cbn; [discriminate|].
  destruct (String.eqb_spec k0 k) as [->|N];
    [intros [= ->]; now left | intros G; right; now apply IH].
Qed.

Lemma mapSet_In {V} (m : jsmap V) k v k' v' :
  In (k', v') (mapSet m k v) -> (k', v') = (k, v) \/ In (k', v') m.
Proof.
  induction m as [|[k0 v0] r IH]; cbn.
  - intros [E|[]]; now left.
  - destruct (k0 =? k); cbn; intros [E|I]; auto.
    destruct (IH I); auto.
Qed.

Lemma mapDelete_In {V} (m : jsmap V) k e : In e (mapDelete m k) -> In e m.
Proof.
  induction m as [|[k0 v0] r IH]; cbn; [tauto|].
  destruct (k0 =? k); cbn; [now right|]. intros [E|I]; auto.
Qed.

Lemma mapSet_keys {V} (m : jsmap V) k v k' :
  In k' (map fst (mapSet m k v)) <-> k' = k \/ In k' (map fst m).
Proof.
  induction m as [|[k0 v0] r IH]; cbn.
  - split; [intros [E|[]]; now left | intros [E|[]]; now left].
  - destruct (String.eqb_spec k0 k) as [->|N]; cbn.
    + intuition congruence.
    + rewrite IH. intuition congruence.
Qed.

Lemma distinctKeys_mapSet {V} (m : jsmap V) k v :
  distinctKeys m -> distinctKeys (mapSet m k v).
Proof.
  unfold distinctKeys. induction m as [|[k0 v0] r IH]; cbn; intros D.
  - repeat constructor. intros [].
  - inversion D as [|? ? N D']; subst.
    destruct (String.eqb_spec k0 k) as [->|K]; cbn.
    + now constructor.
    + constructor; [|now apply IH].
      intros I. apply mapSet_keys in I as [E|I]; [now apply K | now apply N].
Qed.

Lemma mapDelete_keys {V} (m : jsmap V) k k' :
  In k' (map fst (mapDelete m k)) -> In k' (map fst m).
Proof.
  induction m as [|[k0 v0] r IH]; cbn; [tauto|].
  destruct (k0 =? k); cbn; [now right|]. intros [E|I]; auto.
Qed.

Lemma distinctKeys_mapDelete {V} (m : jsmap V) k :
  distinctKeys m -> distinctKeys (mapDelete m k).
Proof.
  unfold distinctKeys. induction m as [|[k0 v0] r IH]; cbn; intros D; [exact D|].
  inversion D as [|? ? N D']; subst.
  destruct (k0 =? k); cbn; [exact D'|].
  constructor; [|now apply IH]. intros I. now apply N, (mapDelete_keys r k).
Qed.

Lemma mapGet_mapDelete_same {V} (m : jsmap V) k :
  distinctKeys m -> mapGet (mapDelete m k) k = None.
Proof.
  unfold distinctKeys. induction m as [|[k0 v0] r IH]; cbn; intros D; [reflexivity|].
  inversion D as [|? ? N D']; subst.
  destruct (String.eqb_spec k0 k) as [->|K]; cbn.
  - now apply mapGet_None.
  - destruct (String.eqb_spec k0 k); [contradiction | now apply IH].
Qed.

(* ================================================================= *)
(** ** The node map *)

Lemma find_app {A} (f : A -> bool) l1 l2 :
  find f (l1 ++ l2) = match find f l1 with Some x => Some x | None => find f l2 end.
Proof.
  induction l1 as [|x r IH]; cbn; [reflexivity|]. destruct (f x); [reflexivity | exact IH].
Qed.

Lemma setAll_lookup (nodes : list InterviewNode) : forall (m : NodeMap) k,
  mapGet (fold_left (fun m' node => mapSet m' (n_id node) node) nodes m) k
  = match find (fun n => n_id n =? k) (rev nodes) with
    | Some n => Some n
    | None => mapGet m k
    end.
Proof.
  induction nodes as [|n r IH]; intros m k; [reflexivity|].
  cbn [fold_left rev]. rewrite IH, find_app, mapGet_mapSet. cbn [find].
  destruct (find _ (rev r)); [reflexivity|]. now destruct (n_id n =? k).
Qed.

Lemma setAll_distinct (nodes : list InterviewNode) : forall (m : NodeMap),
  distinctKeys m ->
  distinctKeys (fold_left (fun m' node => mapSet m' (n_id node) node) nodes m).
Proof.
  induction nodes as [|n r IH]; intros m D; [exact D|].
  cbn [fold_left]. apply IH. now apply distinctKeys_mapSet.
Qed.

Lemma buildNodeMap_loaded files : forall m,
  fold_left loadFile files m
  = fold_left (fun m' node => mapSet m' (n_id node) node) (loadedNodes files) m.
Proof.
  induction files as [|f r IH]; intros m; [reflexivity|].
  cbn [fold_left loadedNodes flat_map]. rewrite fold_left_app, IH. f_equal.
  destruct f as [nodes|node|]; cbn; [reflexivity | | reflexivity].
  destruct (negb (isEmpty (n_id node))); reflexivity.
Qed.

(** X13. The node map built from the files has distinct keys, and the
    lookup of an id gives the node with that id that was loaded last,
    or nothing when no loaded node has that id: a later definition of a
    node replaces an earlier one, and a node is always found under its
    own id. *)
Theorem buildNodeMap_lookup (files : list InterviewFile) :
  distinctKeys (buildNodeMap files)
  /\ (forall k, mapGet (buildNodeMap files) k
                = find (fun n => n_id n =? k) (rev (loadedNodes files)))
  /\ (forall k node, mapGet (buildNodeMap files) k = Some node -> n_id node = k).
Proof.
  unfold buildNodeMap. rewrite buildNodeMap_loaded.
  assert (L : forall k,
             mapGet (fold_left (fun m' node => mapSet m' (n_id node) node)
                               (loadedNodes files) []) k
             = find (fun n => n_id n =? k) (rev (loadedNodes files))).
  { intros k. rewrite setAll_lookup. now destruct (find _ _). }
  split; [|split].
  - apply setAll_distinct. constructor.
  - exact L.
  - intros k node G. rewrite L in G. apply find_some in G as [_ E].
    now apply String.eqb_eq in E.
Qed.

(* ================================================================= *)
(** ** What the operations do to the temporary slots *)

Lemma goToNext_cases g s : goToNext g s = s \/ exists x, goToNext g s = moveTo x s.
Proof.
  unfold goToNext.
  destruct (mapGet g (currentNodeId s)); [|now left].
  destruct (_ && mapHas g "nsfw-options"); [right; now eexists|].
  destruct (hasNoAnswers _); [now left|].
  destruct (firstSome _ _); [|now left].
  destruct (findAnswer _ _); [|now left].
  destruct (truthy _); [right; now eexists | now left].
Qed.

Lemma skipToNext_cases g s : skipToNext g s = s \/ exists x, skipToNext g s = moveTo x s.
Proof.
  unfold skipToNext.
  destruct (mapGet g (currentNodeId s)); [|now left].
  destruct (isWeightOnlyNsfw _ _); [right; now eexists|].
  destruct (match orEmpty (n_answers _) with [] => _ | _ => _ end);
    [right; now eexists|].
  destruct (orEmpty (n_refinements _)); [now left|].
  destruct (negb _); [right; now eexists | now left].
Qed.

Lemma tempSlots_visit x s : tempSlots (visit x s) = tempSlots s.
Proof. unfold visit. now destruct (arrayIncludes _ _). Qed.

(** A navigation leaves the state as it is or clears the three slots
    of the node it leaves. *)
Lemma navigation_cases g op s :
  isNavigation op = true ->
  perform g op s = s \/ tempSlots (perform g op s) = tempSlots (clearTemp s).
Proof.
  destruct op; try discriminate; intros _; cbn [perform].
  - destruct (goToNext_cases g s) as [E|(x & E)]; rewrite E; [now left | now right].
  - destruct (skipToNext_cases g s) as [E|(x & E)]; rewrite E; [now left | now right].
  - unfold previous. destruct (_ <=? _)%nat; [now left | now right].
  - unfold jumpTo. destruct (negb _); [now left|]. right. now rewrite tempSlots_visit.
Qed.

(** What one operation does to the temporary slots: nothing, the
    clearing of those of the current node, a selection of an answer of
    the current node as answer or as refinement, a move of the
    intensity slider, or the reset. *)
Lemma tempSlots_perform g op s :
  tempSlots (perform g op s) = tempSlots s
  \/ tempSlots (perform g op s) = tempSlots (clearTemp s)
  \/ (exists node answer a,
        mapGet g (currentNodeId s) = Some node
        /\ findAnswer node (sa_answerId a) = Some answer
        /\ ans_id answer = sa_answerId a
        /\ sa_nodeId a = currentNodeId s
        /\ sa_label a = ans_label answer
        /\ sa_questionText a = Some (n_question node)
        /\ tempSlots (perform g op s)
           = (mapSet (tempAnswers s) (currentNodeId s) a,
              tempRefinements s, tempIntensities s))
  \/ (exists node answer r,
        mapGet g (currentNodeId s) = Some node
        /\ findAnswer node (sr_answerId r) = Some answer
        /\ ans_id answer = sr_answerId r
        /\ sr_refinementId r = currentNodeId s
        /\ sr_label r = ans_label answer
        /\ sr_questionText r = Some (n_question node)
        /\ tempSlots (perform g op s)
           = (tempAnswers s,
              mapSet (tempRefinements s) (currentNodeId s) r,
              if mapHas (tempIntensities s) (currentNodeId s) then tempIntensities s
              else mapSet (tempIntensities s) (currentNodeId s) 1%Q))
  \/ (exists k v,
        tempSlots (perform g op s)
        = (tempAnswers s, tempRefinements s, mapSet (tempIntensities s) k v))
  \/ tempSlots (perform g op s) = ([], [], []).
Proof.
  destruct op;
    try (match goal with
         | |- context [perform g ?o s] =>
             destruct (navigation_cases g o s eq_refl) as [E|E];
             [left; now rewrite E | right; left; exact E]
         end);
    cbn [perform]; try (left; reflexivity).
  - unfold selectTempAnswer.
    destruct (mapGet g (currentNodeId s)) as [node|] eqn:G; [|now left].
    destruct (findAnswer node answerId) as [answer|] eqn:F; [|now left].
    right; right; left.
    assert (I : ans_id answer = answerId).
    { apply find_some in F as [_ E]. now apply String.eqb_eq in E. }
    exists node, answer,
      {| sa_id := "temp-" ++ currentNodeId s ++ "-" ++ answerId;
         sa_nodeId := currentNodeId s;
         sa_answerId := ans_id answer;
         sa_label := ans_label answer;
         sa_questionText := Some (n_question node) |}.
    cbn. rewrite I. split; [reflexivity|]. split; [exact F|].
    repeat split; reflexivity.
  - unfold selectTempRefinement.
    destruct (mapGet g (currentNodeId s)) as [node|] eqn:G; [|now left].
    destruct (findAnswer node answerId) as [answer|] eqn:F; [|now left].
    right; right; right; left.
    assert (I : ans_id answer = answerId).
    { apply find_some in F as [_ E]. now apply String.eqb_eq in E. }
    exists node, answer,
      {| sr_id := "temp-" ++ currentNodeId s ++ "-" ++ answerId;
         sr_refinementId := currentNodeId s;
         sr_answerId := ans_id answer;
         sr_label := ans_label answer;
         sr_questionText := Some (n_question node) |}.
    cbn. rewrite I. split; [reflexivity|]. split; [exact F|].
    repeat split; reflexivity.
  - right; right; right; right; left. now eexists _, _.
  - right; left. reflexivity.
  - unfold jumpToCategory. destruct (negb _); [now left|]. left.
    now rewrite tempSlots_visit.
  - right; right; right; right; right. reflexivity.
Qed.

Lemma tempSlots_eq s a r i :
  tempSlots s = (a, r, i) ->
  tempAnswers s = a /\ tempRefinements s = r /\ tempIntensities s = i.
Proof. unfold tempSlots. now intros [= -> -> ->]. Qed.

(** The temporary maps of a session have distinct keys. *)
Lemma temp_distinctKeys g s :
  reachable g s ->
  distinctKeys (tempAnswers s) /\ distinctKeys (tempRefinements s)
  /\ distinctKeys (tempIntensities s).
Proof.
  induction 1 as [|s op R (A & B & C)]; [repeat split; constructor|].
  destruct (tempSlots_perform g op s)
    as [E|[E|[(n & an & a & _ & _ & _ & _ & _ & _ & E)
             |[(n & an & r & _ & _ & _ & _ & _ & _ & E)|[(k & v & E)|E]]]]];
    apply tempSlots_eq in E as (-> & -> & ->); cbn;
    repeat split;
    try assumption;
    try apply distinctKeys_mapDelete;
    try apply distinctKeys_mapSet;
    try assumption; try constructor.
  destruct (mapHas _ _); [assumption | now apply distinctKeys_mapSet].
Qed.

(** The temporary selections of a session are answers of the graph,
    each under the id of its node. *)
Lemma temp_sound g s :
  reachable g s -> tempAnswersSound g s /\ tempRefinementsSound g s.
Proof.
  unfold tempAnswersSound, tempRefinementsSound.
  induction 1 as [|s op R (A & B)]; [split; intros ? ? []|].
  destruct (tempSlots_perform g op s)
    as [E|[E|[(n & an & a & G & F & I & N & L & Q & E)
             |[(n & an & r & G & F & I & N & L & Q & E)|[(k & v & E)|E]]]]];
    apply tempSlots_eq in E as (-> & -> & _); cbn;
    try (split; assumption).
  - split; intros k x H; [apply A | apply B]; now apply mapDelete_In in H.
  - split; [|assumption]. intros k x H.
    apply mapSet_In in H as [[= -> ->]|H]; [|now apply A].
    split; [exact N|]. exists n, an. now rewrite L, Q.
  - split; [assumption|]. intros k x H.
    apply mapSet_In in H as [[= -> ->]|H]; [|now apply B].
    split; [exact N|]. exists n, an. now rewrite L, Q.
  - split; intros ? ? [].
Qed.

Lemma mapHas_false {V} (m : jsmap V) k : mapGet m k = None -> mapHas m k = false.
Proof. unfold mapHas. now intros ->. Qed.

Lemma existsb_single {A} (f : A -> bool) l x :
  existsb f (l ++ [x]) = existsb f l || f x.
Proof. rewrite existsb_app. cbn. now rewrite orb_false_r. Qed.

(** X14. A commit moves the selection of the current node from the
    temporary slots to the committed collections: in a session, after
    it nothing is temporarily selected at the current node, the node has
    a committed selection exactly when it had one or had a temporary
    one, and the position (current node and history) is as before. *)
Theorem commit_moves_selection (g : NodeMap) (st : Stamps) (s : EngineState) :
  reachable g s ->
  hasTempSelectionForCurrentNode (commitCurrentSelections g st s) = false
  /\ mapGet (tempIntensities (commitCurrentSelections g st s))
            (currentNodeId s) = None
  /\ hasCommittedSelectionForCurrentNode (commitCurrentSelections g st s)
     = hasCommittedSelectionForCurrentNode s || hasTempSelectionForCurrentNode s
  /\ currentNodeId (commitCurrentSelections g st s) = currentNodeId s
  /\ history (commitCurrentSelections g st s) = history s.
Proof.
  intros R.
  destruct (temp_distinctKeys g s R) as (DA & DR & DI).
  destruct (temp_sound g s R) as (SA & SR).
  split; [|split; [|split; [|split; reflexivity]]].
  - unfold hasTempSelectionForCurrentNode.
    change (mapHas (mapDelete (tempAnswers s) (currentNodeId s)) (currentNodeId s)
            || mapHas (mapDelete (tempRefinements s) (currentNodeId s))
                      (currentNodeId s) = false).
    now rewrite !mapHas_false by now apply mapGet_mapDelete_same.
  - change (mapGet (mapDelete (tempIntensities s) (currentNodeId s))
                   (currentNodeId s) = None).
    now apply mapGet_mapDelete_same.
  - unfold hasCommittedSelectionForCurrentNode, hasTempSelectionForCurrentNode, mapHas.
    change (currentNodeId (commitCurrentSelections g st s)) with (currentNodeId s).
    change (committedAnswers (commitCurrentSelections g st s))
      with (match mapGet (tempAnswers s) (currentNodeId s) with
            | Some a =>
                (committedAnswers s ++
                   [ {| sa_id := "sel-" ++ answerStamp st;
                        sa_nodeId := sa_nodeId a;
                        sa_answerId := sa_answerId a;
                        sa_label := sa_label a;
                        sa_questionText := sa_questionText a |} ])%list
            | None => committedAnswers s
            end).
    change (committedRefinements (commitCurrentSelections g st s))
      with (match mapGet (tempRefinements s) (currentNodeId s) with
            | Some r =>
                (committedRefinements s ++
                   [ {| sr_id := "sel-" ++ refinementStamp st;
                        sr_refinementId := sr_refinementId r;
                        sr_answerId := sr_answerId r;
                        sr_label := sr_label r;
                        sr_questionText := sr_questionText r |} ])%list
            | None => committedRefinements s
            end).
    destruct (mapGet (tempAnswers s) (currentNodeId s)) as [a|] eqn:GA;
      destruct (mapGet (tempRefinements s) (currentNodeId s)) as [r|] eqn:GR;
      rewrite ?existsb_single; cbn [sa_nodeId sr_refinementId];
      try (apply mapGet_In, SA in GA as [-> _]);
      try (apply mapGet_In, SR in GR as [-> _]);
      rewrite ?String.eqb_refl;
      repeat match goal with
             | |- context [existsb ?f ?l] => destruct (existsb f l)
             end; reflexivity.
Qed.

Lemma commit_moves_selection_witness :
  hasTempSelectionForCurrentNode
    (commitCurrentSelections demoGraph (stamps "1" "2") styledSelected) = false
  /\ mapGet (tempIntensities
               (commitCurrentSelections demoGraph (stamps "1" "2") styledSelected))
            (currentNodeId styledSelected) = None
  /\ hasCommittedSelectionForCurrentNode
       (commitCurrentSelections demoGraph (stamps "1" "2") styledSelected)
     = hasCommittedSelectionForCurrentNode styledSelected
       || hasTempSelectionForCurrentNode styledSelected
  /\ currentNodeId (commitCurrentSelections demoGraph (stamps "1" "2") styledSelected)
     = currentNodeId styledSelected
  /\ history (commitCurrentSelections demoGraph (stamps "1" "2") styledSelected)
     = history styledSelected.
Proof.
  apply (commit_moves_selection demoGraph (stamps "1" "2") styledSelected).
  unfold styledSelected, run. cbn [fold_left].
  repeat apply reach_step. apply reach_start.
Defined.

(** X15. Leaving a node by next, skip, previous or the plain jump
    drops what was temporarily selected there and nothing else: in a
    session, such an operation leaves the state as it is or empties the
    three temporary slots of the node that was current, and the slots of
    every other node are as before. *)
Theorem navigation_clears_temp (g : NodeMap) (op : Operation) (s : EngineState) :
  reachable g s ->
  isNavigation op = true ->
  perform g op s = s
  \/ (mapGet (tempAnswers (perform g op s)) (currentNodeId s) = None
      /\ mapGet (tempRefinements (perform g op s)) (currentNodeId s) = None
      /\ mapGet (tempIntensities (perform g op s)) (currentNodeId s) = None
      /\ forall k, k <> currentNodeId s ->
           mapGet (tempAnswers (perform g op s)) k = mapGet (tempAnswers s) k
           /\ mapGet (tempRefinements (perform g op s)) k
              = mapGet (tempRefinements s) k
           /\ mapGet (tempIntensities (perform g op s)) k
              = mapGet (tempIntensities s) k).
Proof.
  intros R N.
  destruct (temp_distinctKeys g s R) as (DA & DR & DI).
  destruct (navigation_cases g op s N) as [E|E]; [now left | right].
  apply tempSlots_eq in E as (-> & -> & ->). cbn.
  rewrite !mapGet_mapDelete_same by assumption.
  repeat split; apply mapGet_mapDelete_other; congruence.
Qed.

Lemma navigation_clears_temp_witness :
  perform demoGraph OpGoToNext styledSelected = styledSelected
  \/ (mapGet (tempAnswers (perform demoGraph OpGoToNext styledSelected))
             (currentNodeId styledSelected) = None
      /\ mapGet (tempRefinements (perform demoGraph OpGoToNext styledSelected))
                (currentNodeId styledSelected) = None
      /\ mapGet (tempIntensities (perform demoGraph OpGoToNext styledSelected))
                (currentNodeId styledSelected) = None
      /\ forall k, k <> currentNodeId styledSelected ->
           mapGet (tempAnswers (perform demoGraph OpGoToNext styledSelected)) k
           = mapGet (tempAnswers styledSelected) k
           /\ mapGet (tempRefinements (perform demoGraph OpGoToNext styledSelected)) k
              = mapGet (tempRefinements styledSelected) k
           /\ mapGet (tempIntensities (perform demoGraph OpGoToNext styledSelected)) k
              = mapGet (tempIntensities styledSelected) k).
Proof.
  apply (navigation_clears_temp demoGraph OpGoToNext styledSelected);
    [|reflexivity].
  unfold styledSelected, run. cbn [fold_left].
  repeat apply reach_step. apply reach_start.
Defined.

(* ================================================================= *)
(** ** What the operations do to the committed selections *)

Lemma committed_frame g op s :
  changesCommitted op = false ->
  committedAnswers (perform g op s) = committedAnswers s
  /\ committedRefinements (perform g op s) = committedRefinements s.
Proof.
  destruct op; try discriminate; intros _; cbn [perform];
    try (split; reflexivity).
  - unfold selectTempAnswer. destruct (mapGet g _); [destruct (findAnswer _ _)|];
      split; reflexivity.
  - unfold selectTempRefinement. destruct (mapGet g _); [destruct (findAnswer _ _)|];
      split; reflexivity.
  - destruct (goToNext_cases g s) as [E|(x & E)]; rewrite E; split; reflexivity.
  - destruct (skipToNext_cases g s) as [E|(x & E)]; rewrite E; split; reflexivity.
  - unfold previous. destruct (_ <=? _)%nat; split; reflexivity.
  - unfold jumpTo, visit. destruct (negb _); [|destruct (arrayIncludes _ _)];
      split; reflexivity.
  - unfold jumpToCategory, visit. destruct (negb _); [|destruct (arrayIncludes _ _)];
      split; reflexivity.
Qed.

Lemma weights_frame g op s :
  changesWeights op = false -> weightValues (perform g op s) = weightValues s.
Proof.
  destruct op; try discriminate; intros _; cbn [perform]; try reflexivity.
  - unfold selectTempAnswer. destruct (mapGet g _); [destruct (findAnswer _ _)|];
      reflexivity.
  - unfold selectTempRefinement. destruct (mapGet g _); [destruct (findAnswer _ _)|];
      reflexivity.
  - destruct (goToNext_cases g s) as [E|(x & E)]; rewrite E; reflexivity.
  - destruct (skipToNext_cases g s) as [E|(x & E)]; rewrite E; reflexivity.
  - unfold previous. destruct (_ <=? _)%nat; reflexivity.
  - unfold jumpTo, visit. destruct (negb _); [|destruct (arrayIncludes _ _)];
      reflexivity.
  - unfold jumpToCategory, visit. destruct (negb _); [|destruct (arrayIncludes _ _)];
      reflexivity.
Qed.

Lemma committedAnswers_commit g st s :
  committedAnswers (commitCurrentSelections g st s)
  = match mapGet (tempAnswers s) (currentNodeId s) with
    | Some a =>
        (committedAnswers s ++
           [ {| sa_id := "sel-" ++ answerStamp st;
                sa_nodeId := sa_nodeId a;
                sa_answerId := sa_answerId a;
                sa_label := sa_label a;
                sa_questionText := sa_questionText a |} ])%list
    | None => committedAnswers s
    end.
Proof. reflexivity. Qed.

Lemma committedRefinements_commit g st s :
  committedRefinements (commitCurrentSelections g st s)
  = match mapGet (tempRefinements s) (currentNodeId s) with
    | Some r =>
        (committedRefinements s ++
           [ {| sr_id := "sel-" ++ refinementStamp st;
                sr_refinementId := sr_refinementId r;
                sr_answerId := sr_answerId r;
                sr_label := sr_label r;
                sr_questionText := sr_questionText r |} ])%list
    | None => committedRefinements s
    end.
Proof. reflexivity. Qed.

(** The committed selections of a session are answers of the graph. *)
Lemma committed_sound g s : reachable g s -> committedSound g s.
Proof.
  unfold committedSound.
  induction 1 as [|s op R (A & B)]; [split; intros ? []|].
  destruct (changesCommitted op) eqn:C.
  - destruct (temp_sound g s R) as (SA & SR).
    destruct op; try discriminate; cbn [perform].
    + rewrite committedAnswers_commit, committedRefinements_commit. split.
      * destruct (mapGet (tempAnswers s) (currentNodeId s)) as [a|] eqn:G;
          [|exact A].
        intros x I. apply in_app_or in I as [I|[<-|[]]]; [now apply A|].
        apply mapGet_In, SA in G as [N G]. cbn. rewrite N.
        split; [exact G | apply startsWith_empty].
      * destruct (mapGet (tempRefinements s) (currentNodeId s)) as [r|] eqn:G;
          [|exact B].
        intros x I. apply in_app_or in I as [I|[<-|[]]]; [now apply B|].
        apply mapGet_In, SR in G as [N G]. cbn. rewrite N.
        split; [exact G | apply startsWith_empty].
    + split; intros x I; apply filter_In in I as [I _]; [now apply A | now apply B].
    + split; intros ? [].
  - destruct (committed_frame g op s C) as [-> ->]. now split.
Qed.

(** X16. Every selection of a session is an answer of the graph: a
    temporary selection is stored under the id of its node, and a
    selection, temporary or committed, names a node of the graph and
    one of its answers and carries the label of that answer and the
    question of that node; a committed one has an id that starts with
    "sel-". *)
Theorem selections_of_graph (g : NodeMap) (s : EngineState) :
  reachable g s ->
  tempAnswersSound g s /\ tempRefinementsSound g s /\ committedSound g s.
Proof.
  intros R. destruct (temp_sound g s R) as (A & B).
  split; [exact A|]. split; [exact B|]. now apply committed_sound.
Qed.

Lemma selections_of_graph_witness :
  tempAnswersSound demoGraph sliderReady
  /\ tempRefinementsSound demoGraph sliderReady
  /\ committedSound demoGraph sliderReady.
Proof.
  apply (selections_of_graph demoGraph sliderReady).
  unfold sliderReady, run. cbn [fold_left].
  repeat apply reach_step. apply reach_start.
Defined.

(** X17. The summary of a session has one row for each committed
    answer, in their order, and the question of a row, which the hook
    reads from the node map, is the question stored with the answer. *)
Theorem getSelectionSummary_rows (g : NodeMap) (s : EngineState) :
  reachable g s ->
  getSelectionSummary g s = map summaryOf (committedAnswers s).
Proof.
  intros R. destruct (committed_sound g s R) as (A & _).
  unfold getSelectionSummary.
  induction (committedAnswers s) as [|a r IH]; [reflexivity|].
  cbn [flat_map map].
  destruct (A a (or_introl eq_refl)) as ((node & answer & G & _ & _ & _ & Q) & _).
  rewrite G, IH by (intros; apply A; now right).
  unfold summaryOf. now rewrite Q.
Qed.

Lemma getSelectionSummary_rows_witness :
  getSelectionSummary demoGraph sliderReady
  = map summaryOf (committedAnswers sliderReady).
Proof.
  apply (getSelectionSummary_rows demoGraph sliderReady).
  unfold sliderReady, run. cbn [fold_left].
  repeat apply reach_step. apply reach_start.
Defined.

(* ================================================================= *)
(** ** The weights of a commit *)

Lemma commitWeight_entries s st fid fl acc wa e :
  In e (snd (commitWeight s st fid fl acc wa)) ->
  In e (snd acc)
  \/ (mapGet (enabledSliders s) (w_attrId (snd e)) = Some true
      /\ w_id (snd e) = fst e
      /\ startsWith (fst e) "weight-" = true
      /\ (w_associatedAnswerId (snd e) = None
          \/ (w_associatedAnswerId (snd e) = fid /\ truthy fid = true))).
Proof.
  destruct acc as [i m], e as [k w]. unfold commitWeight.
  destruct (mapGet (enabledSliders s) (wa_id wa)) as [[|]|] eqn:En;
    cbn [negb]; try (now left).
  destruct (negb (_ || _)); [now left|].
  destruct (truthy fid) eqn:T; cbn [andb].
  - destruct (truthy fl); cbn [snd]; intros I;
      apply mapSet_In in I as [[= -> ->]|I]; try (now left); right; cbn;
      (split; [exact En|]); (split; [reflexivity|]);
      (split; [first [reflexivity | apply startsWith_empty]|]);
      [right; now split | now left].
  - cbn [snd]. intros I. apply mapSet_In in I as [[= -> ->]|I]; [|now left].
    right; cbn. split; [exact En|]. split; [reflexivity|].
    split; [first [reflexivity | apply startsWith_empty]|].
    now left.
Qed.

Lemma commitWeights_entries s st fid fl ws : forall acc e,
  In e (snd (fold_left (commitWeight s st fid fl) ws acc)) ->
  In e (snd acc)
  \/ (mapGet (enabledSliders s) (w_attrId (snd e)) = Some true
      /\ w_id (snd e) = fst e
      /\ startsWith (fst e) "weight-" = true
      /\ (w_associatedAnswerId (snd e) = None
          \/ (w_associatedAnswerId (snd e) = fid /\ truthy fid = true))).
Proof.
  induction ws as [|wa r IH]; intros acc e I; [now left|].
  cbn [fold_left] in I. apply IH in I as [I|I]; [|now right].
  now apply commitWeight_entries in I.
Qed.

Lemma commitWeight_keys s st fid fl acc wa k :
  In k (map fst (snd acc)) ->
  In k (map fst (snd (commitWeight s st fid fl acc wa))).
Proof.
  destruct acc as [i m]. unfold commitWeight. intros I.
  destruct (negb _); [exact I|].
  destruct (negb (_ || _)); [exact I|].
  destruct (_ && _); cbn [snd]; apply mapSet_keys; now right.
Qed.

Lemma commitWeights_keys s st fid fl ws : forall acc k,
  In k (map fst (snd acc)) ->
  In k (map fst (snd (fold_left (commitWeight s st fid fl) ws acc))).
Proof.
  induction ws as [|wa r IH]; intros acc k I; [exact I|].
  cbn [fold_left]. now apply IH, commitWeight_keys.
Qed.

(** The weight map after a commit, as the source builds it. *)
Lemma weightValues_commit g st s :
  weightValues (commitCurrentSelections g st s)
  = let cur := currentNodeId s in
    let tempAnswer := mapGet (tempAnswers s) cur in
    let tempRefinement := mapGet (tempRefinements s) cur in
    let committedAnswerId :=
      match tempAnswer with
      | Some _ => Some ("sel-" ++ answerStamp st)
      | None => None
      end in
    let answerLabel :=
      let fromAnswer := option_map sa_label tempAnswer in
      match tempRefinement with
      | Some r => if truthy fromAnswer then fromAnswer else Some (sr_label r)
      | None => fromAnswer
      end in
    let weights1 :=
      if negb (cur =? "root")
         && match mapGet (enabledSliders s) "intensity" with
            | Some true => true
            | _ => false
            end
         && truthy committedAnswerId && truthy answerLabel
      then
        let intensity :=
          match mapGet (tempIntensities s) cur with Some v => v | None => 1%Q end in
        let intensityWeightId :=
          "weight-" ++ optString committedAnswerId ++ "-intensity" in
        mapSet (weightValues s) intensityWeightId
          {| w_id := intensityWeightId;
             w_attrId := "intensity";
             w_value := intensity;
             w_template := "intensity";
             w_tags := None;
             w_associatedAnswerId := committedAnswerId;
             w_answerLabel := answerLabel |}
      else weightValues s in
    match mapGet g cur with
    | None => weights1
    | Some node =>
        let nodeWeights := orEmpty (n_weights node) in
        let refinementWeights :=
          (flat_map (fun r => orEmpty (rn_weights r)) (orEmpty (n_refinements node))
           ++ (if startsWith cur "refine-" then orEmpty (n_weights node) else []))%list in
        let allWeights := (nodeWeights ++ refinementWeights)%list in
        let context :=
          match committedAnswerId with
          | Some _ => None
          | None => contextualAnswer s
          end in
        let finalAnswerId := orElse committedAnswerId (option_map fst context) in
        let finalAnswerLabel := orElse answerLabel (option_map snd context) in
        snd (fold_left (commitWeight s st finalAnswerId finalAnswerLabel)
                       allWeights (O, weights1))
    end.
Proof. reflexivity. Qed.

(** An entry of the weight map after a commit was there before, or is
    the weight of an enabled slider, bound to nothing or to the
    selection of the commit. *)
Lemma commit_entries g st s e :
  In e (weightValues (commitCurrentSelections g st s)) ->
  In e (weightValues s)
  \/ (mapGet (enabledSliders s) (w_attrId (snd e)) = Some true
      /\ w_id (snd e) = fst e
      /\ startsWith (fst e) "weight-" = true
      /\ (w_associatedAnswerId (snd e) = None
          \/ (w_associatedAnswerId (snd e) = commitBinding st s
              /\ truthy (commitBinding st s) = true))).
Proof.
  rewrite weightValues_commit. unfold commitBinding. cbv zeta.
  set (cid := match mapGet (tempAnswers s) (currentNodeId s) with
              | Some _ => Some ("sel-" ++ answerStamp st)
              | None => None
              end).
  set (fid := orElse cid _).
  assert (F : fid = match mapGet (tempAnswers s) (currentNodeId s) with
                    | Some _ => Some ("sel-" ++ answerStamp st)
                    | None => option_map fst (contextualAnswer s)
                    end).
  { subst fid cid. now destruct (mapGet (tempAnswers s) (currentNodeId s)). }
  assert (W : forall x,
             In x (if negb (currentNodeId s =? "root")
                      && match mapGet (enabledSliders s) "intensity" with
                         | Some true => true
                         | _ => false
                         end
                      && truthy cid
                      && truthy
                           match mapGet (tempRefinements s) (currentNodeId s) with
                           | Some r =>
                               if truthy (option_map sa_label
                                            (mapGet (tempAnswers s) (currentNodeId s)))
                               then option_map sa_label
                                      (mapGet (tempAnswers s) (currentNodeId s))
                               else Some (sr_label r)
                           | None =>
                               option_map sa_label
                                 (mapGet (tempAnswers s) (currentNodeId s))
                           end
                   then
                     mapSet (weightValues s)
                       ("weight-" ++ optString cid ++ "-intensity")
                       {| w_id := "weight-" ++ optString cid ++ "-intensity";
                          w_attrId := "intensity";
                          w_value :=
                            match mapGet (tempIntensities s) (currentNodeId s) with
                            | Some v => v
                            | None => 1%Q
                            end;
                          w_template := "intensity";
                          w_tags := None;
                          w_associatedAnswerId := cid;
                          w_answerLabel :=
                            match mapGet (tempRefinements s) (currentNodeId s) with
                            | Some r =>
                                if truthy (option_map sa_label
                                             (mapGet (tempAnswers s) (currentNodeId s)))
                                then option_map sa_label
                                       (mapGet (tempAnswers s) (currentNodeId s))
                                else Some (sr_label r)
                            | None =>
                                option_map sa_label
                                  (mapGet (tempAnswers s) (currentNodeId s))
                            end |}
                   else weightValues s) ->
             In x (weightValues s)
             \/ (mapGet (enabledSliders s) (w_attrId (snd x)) = Some true
                 /\ w_id (snd x) = fst x
                 /\ startsWith (fst x) "weight-" = true
                 /\ (w_associatedAnswerId (snd x) = None
                     \/ (w_associatedAnswerId (snd x) = fid /\ truthy fid = true)))).
  { intros [k w].
    destruct (negb (currentNodeId s =? "root")); cbn [andb]; [|now left].
    destruct (mapGet (enabledSliders s) "intensity") as [[|]|] eqn:En;
      cbn [andb]; try (now left).
    destruct (truthy cid) eqn:T; cbn [andb]; [|now left].
    match goal with
    | |- In _ (if ?c then _ else _) -> _ => destruct c; [|now left]
    end.
    intros I. apply mapSet_In in I as [[= -> ->]|I]; [|now left].
    right. cbn. split; [exact En|]. split; [reflexivity|].
    split; [first [reflexivity | apply startsWith_empty]|].
    right. rewrite F. subst cid.
    destruct (mapGet (tempAnswers s) (currentNodeId s)); [now split | discriminate]. }
  rewrite <- F.
  destruct (mapGet g (currentNodeId s)) as [node|]; [|apply W].
  intros I. apply commitWeights_entries in I as [I|I]; [|now right].
  now apply W.
Qed.

Lemma commit_keeps_keys g st s k :
  In k (map fst (weightValues s)) ->
  In k (map fst (weightValues (commitCurrentSelections g st s))).
Proof.
  intros I. rewrite weightValues_commit. cbv zeta.
  match goal with
  | |- context [if ?c then mapSet ?m ?key ?v else _] =>
      assert (W : In k (map fst (if c then mapSet m key v else weightValues s)))
        by (destruct c; [apply mapSet_keys; now right | exact I])
  end.
  destruct (mapGet g (currentNodeId s)); [|exact W].
  now apply commitWeights_keys.
Qed.

(** X18. A commit makes weights only for enabled sliders and deletes
    none: every entry of the weight map after a commit was there before
    or is a weight of an attribute whose slider is enabled, stored under
    its own id, which starts with "weight-"; and every key of the map
    is still a key of it. *)
Theorem commit_weights_of_enabled_sliders
    (g : NodeMap) (st : Stamps) (s : EngineState) :
  (forall key w, In (key, w) (weightValues (commitCurrentSelections g st s)) ->
     In (key, w) (weightValues s)
     \/ (mapGet (enabledSliders s) (w_attrId w) = Some true
         /\ w_id w = key /\ startsWith key "weight-" = true))
  /\ (forall key, mapHas (weightValues s) key = true ->
        mapHas (weightValues (commitCurrentSelections g st s)) key = true).
Proof.
  split.
  - intros key w I. apply commit_entries in I as [I|(E & D & P & _)];
      [now left | right; repeat split; assumption].
  - unfold mapHas. intros key H.
    destruct (mapGet (weightValues (commitCurrentSelections g st s)) key) eqn:G;
      [reflexivity|].
    apply mapGet_None in G. exfalso. apply G, commit_keeps_keys.
    destruct (mapGet (weightValues s) key) eqn:G'; [|discriminate].
    apply mapGet_In in G'. now apply (in_map fst) in G'.
Qed.

Lemma contextWalk_bound answers refinements visited i l :
  contextWalk answers refinements visited = Some (i, l) ->
  (exists a, In a answers /\ i = sa_id a)
  \/ (exists r, In r refinements /\ i = sr_id r).
Proof.
  induction visited as [|p r IH]; [discriminate|]. cbn [contextWalk].
  destruct (find _ answers) as [a|] eqn:FA.
  - intros [= <- _]. left. exists a. apply find_some in FA as [I _]. now split.
  - destruct (find _ refinements) as [x|] eqn:FR; [|exact IH].
    intros [= <- _]. right. exists x. apply find_some in FR as [I _]. now split.
Qed.

Lemma mapValues_In {V} (m : jsmap V) v : In v (mapValues m) -> exists k, In (k, v) m.
Proof.
  unfold mapValues. intros I. apply in_map_iff in I as ([k x] & E & I).
  cbn in E. subst x. now exists k.
Qed.

Lemma In_mapValues {V} (m : jsmap V) k v : In (k, v) m -> In v (mapValues m).
Proof. intros I. now apply (in_map snd) in I. Qed.

(** X19. In a session of the interface proper (every operation but the
    raw setter of the weight map), a weight that is bound to a selection
    is bound to a committed one: its associatedAnswerId is the id of a
    committed answer or of a committed refinement. Removing a selection
    takes its weights with it, and a commit binds to the answer it
    commits or to a selection the backward walk finds. *)
Theorem weights_bound_to_committed (g : NodeMap) (s : EngineState) :
  uiReachable g s -> weightsBound s.
Proof.
  unfold weightsBound.
  induction 1 as [|s op U R IH]; [intros w []|].
  destruct (changesWeights op) eqn:C.
  - destruct op; try discriminate; cbn [perform].
    + (* commit *)
      intros w I T. apply mapValues_In in I as (k & I).
      rewrite committedAnswers_commit, committedRefinements_commit.
      assert (KA : forall a, In a (committedAnswers s) ->
                 In a match mapGet (tempAnswers s) (currentNodeId s) with
                      | Some a0 =>
                          (committedAnswers s ++
                             [ {| sa_id := "sel-" ++ answerStamp st;
                                  sa_nodeId := sa_nodeId a0;
                                  sa_answerId := sa_answerId a0;
                                  sa_label := sa_label a0;
                                  sa_questionText := sa_questionText a0 |} ])%list
                      | None => committedAnswers s
                      end).
      { intros a Ia. destruct (mapGet (tempAnswers s) _); [|exact Ia].
        apply in_or_app. now left. }
      assert (KR : forall r, In r (committedRefinements s) ->
                 In r match mapGet (tempRefinements s) (currentNodeId s) with
                      | Some r0 =>
                          (committedRefinements s ++
                             [ {| sr_id := "sel-" ++ refinementStamp st;
                                  sr_refinementId := sr_refinementId r0;
                                  sr_answerId := sr_answerId r0;
                                  sr_label := sr_label r0;
                                  sr_questionText := sr_questionText r0 |} ])%list
                      | None => committedRefinements s
                      end).
      { intros r Ir. destruct (mapGet (tempRefinements s) _); [|exact Ir].
        apply in_or_app. now left. }
      apply commit_entries in I as [I|(_ & _ & _ & [N|(B & TB)])]; cbn [snd] in *.
      * apply In_mapValues in I.
        destruct (IH w I T) as [(a & Ia & E)|(r & Ir & E)];
          [left; exists a | right; exists r]; auto.
      * rewrite N in T. discriminate.
      * rewrite B. unfold commitBinding in *.
        destruct (mapGet (tempAnswers s) (currentNodeId s)) as [a0|].
        -- left. eexists. split; [apply in_or_app; right; now left | reflexivity].
        -- unfold contextualAnswer in *.
           destruct (1 <? List.length (history s))%nat; [|discriminate].
           destruct (contextWalk _ _ _) as [[i l]|] eqn:CW; [|discriminate].
           apply contextWalk_bound in CW as [(a & Ia & ->)|(r & Ir & ->)];
             [left; exists a | right; exists r]; auto.
    + (* removeSelection *)
      intros w I T. apply mapValues_In in I as (k & I).
      apply filter_In in I as [I NB]. cbn [snd] in NB.
      apply In_mapValues in I.
      unfold boundTo in NB.
      destruct (IH w I T) as [(a & Ia & E)|(r & Ir & E)]; rewrite E in NB |- *;
        cbn [optStringEq] in NB; [left; exists a | right; exists r];
        (split; [|reflexivity]); apply filter_In; now split.
    + (* setWeight *)
      intros w I T. apply IH; [|exact T].
      apply mapValues_In in I as (k & I). cbn in I.
      destruct (find _ (weightValues s)) as [[key w0]|] eqn:F.
      * apply mapSet_In in I as [[= -> ->]|I]; [|now apply In_mapValues in I].
        apply find_some in F as [_ F]. cbn in F, T.
        apply andb_prop in F as [_ F]. rewrite T in F. discriminate.
      * apply mapSet_In in I as [[= -> ->]|I]; [cbn in T; discriminate T|].
        now apply In_mapValues in I.
    + intros w [].
  - assert (CC : changesCommitted op = false) by (now destruct op).
    destruct (committed_frame g op s CC) as [-> ->].
    rewrite (weights_frame g op s C). exact IH.
Qed.

Lemma weights_bound_to_committed_witness : weightsBound afterSliderCommit.
Proof.
  apply (weights_bound_to_committed demoGraph).
  unfold afterSliderCommit, run. cbn [fold_left].
  repeat (apply ui_step; [reflexivity|]). apply ui_start.
Defined.

(* ================================================================= *)
(** ** The end of the interview *)

(** X20. At a finished interview the next button does nothing, with
    one exception: at a weight-only node of the NSFW branch, which
    counts as finished, it returns to the hub "nsfw-options" when that
    node exists. *)
Theorem goToNext_when_finished (g : NodeMap) (s : EngineState) :
  isFinished g s = true ->
  goToNext g s = if nsfwDetour g s then moveTo "nsfw-options" s else s.
Proof.
  unfold isFinished, goToNext, nsfwDetour.
  destruct (mapGet g (currentNodeId s)) as [node|]; [|reflexivity].
  destruct (isWeightOnlyNsfw node (currentNodeId s) && mapHas g "nsfw-options");
    [reflexivity|].
  destruct (hasNoAnswers node) eqn:H; [reflexivity|].
  intros F.
  assert (N : forall a, In a (orEmpty (n_answers node)) -> truthy (ans_next a) = false).
  { intros a I. destruct (startsWith (currentNodeId s) "refine-").
    - destruct (negb _); [discriminate|].
      destruct (n_answers node) as [answers|]; [|discriminate].
      rewrite forallb_forall in F. apply F in I. now apply negb_true_iff in I.
    - rewrite forallb_forall in F. apply F in I.
      apply andb_prop in I as [I _]. now apply negb_true_iff in I. }
  destruct (firstSome _ _); [|reflexivity].
  destruct (findAnswer node _) as [answer|] eqn:A; [|reflexivity].
  apply find_some in A as [A _]. now rewrite (N answer A).
Qed.

Lemma goToNext_when_finished_witness :
  goToNext demoGraph afterSliderCommit
  = if nsfwDetour demoGraph afterSliderCommit
    then moveTo "nsfw-options" afterSliderCommit
    else afterSliderCommit.
Proof.
  apply (goToNext_when_finished demoGraph afterSliderCommit).
  vm_compute. reflexivity.
Defined.

(* ================================================================= *)
(** ** The marker of a category *)

(** X21. A category is marked exactly when one of its nodes has a
    committed answer or a committed refinement: the third test of the
    hook, on the weights, finds a node only through a committed
    selection at it and never adds one. *)
Theorem categoryHasCommittedSelections_by_node
    (s : EngineState) (categoryNodes : list string) :
  categoryHasCommittedSelections s categoryNodes
  = existsb (hasCommittedAt s) categoryNodes.
Proof.
  unfold categoryHasCommittedSelections, hasCommittedAt.
  induction categoryNodes as [|nodeId r IH]; [reflexivity|].
  cbn [existsb]. rewrite IH. f_equal.
  destruct (existsb (fun a => sa_nodeId a =? nodeId) (committedAnswers s)) eqn:A;
    [reflexivity|].
  destruct (existsb (fun x => sr_refinementId x =? nodeId) (committedRefinements s))
    eqn:B; [reflexivity|].
  cbn [orb].
  match goal with |- ?c = false => destruct c eqn:C; [|reflexivity] end.
  apply existsb_exists in C as (w & _ & C).
  apply orb_prop in C as [C|C].
  - destruct (find _ (committedAnswers s)) as [a|] eqn:F; [|discriminate].
    apply find_some in F as [I _].
    assert (X : existsb (fun a => sa_nodeId a =? nodeId) (committedAnswers s) = true)
      by (apply existsb_exists; now exists a).
    congruence.
  - destruct (find _ (committedRefinements s)) as [x|] eqn:F; [|discriminate].
    apply find_some in F as [I _].
    assert (X : existsb (fun x => sr_refinementId x =? nodeId)
                        (committedRefinements s) = true)
      by (apply existsb_exists; now exists x).
    congruence.
Qed.

(* ================================================================= *)
(** ** Sliders *)

Lemma find_mapSet_none {V} (p : string * V -> bool) (m : jsmap V) k v :
  find p m = None -> p (k, v) = true -> find p (mapSet m k v) = Some (k, v).
Proof.
  intros N P. induction m as [|[k0 v0] r IH]; cbn in *; [now rewrite P|].
  destruct (p (k0, v0)) eqn:P0; [discriminate|].
  destruct (k0 =? k); cbn; [now rewrite P | rewrite P0; now apply IH].
Qed.

Lemma find_mapSet_some {V} (p : string * V -> bool) (m : jsmap V) k w v :
  find p m = Some (k, w) -> p (k, v) = true -> find p (mapSet m k v) = Some (k, v).
Proof.
  intros F P. induction m as [|[k0 v0] r IH]; cbn in *; [discriminate|].
  destruct (p (k0, v0)) eqn:P0.
  - injection F as -> ->. rewrite String.eqb_refl. cbn. now rewrite P.
  - destruct (k0 =? k); cbn; [now rewrite P | rewrite P0; now apply IH].
Qed.

(** X22. A slider move can be read back: after setWeight the first
    weight of the attribute that is bound to no selection carries the
    value, the template and the tags of the call, and the attribute is
    marked as touched. The slider itself reads the map under the id of
    the attribute: it shows the new value when that weight is stored
    there, and what it showed before when the weight is stored under
    another key (a weight committed standalone). *)
Theorem setWeight_read_back (attrId : string) (value : Q) (template : string)
    (tags : option (list string)) (s : EngineState) :
  (exists key w,
      uncommittedWeight (weightValues (setWeight attrId value template tags s)) attrId
      = Some (key, w)
      /\ w_attrId w = attrId /\ w_value w = value
      /\ w_template w = template /\ w_tags w = tags)
  /\ arrayIncludes (touchedWeights (setWeight attrId value template tags s)) attrId
     = true
  /\ (forall weight, wa_id weight = attrId ->
        activeWeight (setWeight attrId value template tags s) weight
        = match uncommittedWeight (weightValues s) attrId with
          | Some (key, _) =>
              if key =? attrId then (weight, value) else activeWeight s weight
          | None => (weight, value)
          end).
Proof.
  split; [|split].
  - unfold uncommittedWeight, setWeight. cbn [weightValues setTouchedWeights setWeightValues].
    destruct (find _ (weightValues s)) as [[key w0]|] eqn:F.
    + pose proof (find_some _ _ F) as [_ P]. cbn [snd] in P.
      apply andb_prop in P as [PA PN].
      do 2 eexists. split.
      * apply (find_mapSet_some _ _ _ _ _ F). cbn [snd w_attrId w_associatedAnswerId].
        now rewrite PA, PN.
      * cbn. apply String.eqb_eq in PA. now repeat split.
    + do 2 eexists. split.
      * apply (find_mapSet_none _ _ _ _ F). cbn. now rewrite String.eqb_refl.
      * now repeat split.
  - cbn. unfold setAdd.
    destruct (arrayIncludes (touchedWeights s) attrId) eqn:T; [exact T|].
    apply arrayIncludes_In, in_or_app. right. now left.
  - intros weight <-. unfold activeWeight, uncommittedWeight, setWeight.
    cbn [weightValues setTouchedWeights setWeightValues].
    destruct (find _ (weightValues s)) as [[key w0]|] eqn:F.
    + rewrite mapGet_mapSet. now destruct (key =? wa_id weight).
    + now rewrite mapGet_mapSet_same.
Qed.

(* ================================================================= *)
(** ** Custom elements *)

Lemma updateAt_last {A} (f : A -> A) (l : list A) x :
  updateAt f (List.length l) (l ++ [x]) = (l ++ [f x])%list.
Proof. induction l as [|y r IH]; cbn; [reflexivity | now rewrite IH]. Qed.

Lemma removeAt_last {A} (l : list A) x : removeAt (List.length l) (l ++ [x]) = l.
Proof. induction l as [|y r IH]; cbn; [reflexivity | now rewrite IH]. Qed.

Lemma updateAt_twice {A} (f : A -> A) (i : nat) (l : list A) :
  (forall x, f (f x) = x) -> updateAt f i (updateAt f i l) = l.
Proof.
  intros H. revert i. induction l as [|y r IH]; intros [|i]; cbn;
    rewrite ?H, ?IH; reflexivity.
Qed.

(** X23. A custom element enters the prompt when it is switched on,
    not when it is added: after addCustomElement the preview is the one
    before, and after the toggle of the new element (the last one) the
    text is the last part of the prompt and the negative prompt is
    still the one before. *)
Theorem addCustomElement_then_toggle
    (sanitizeTemplate : string -> list string -> string)
    (element : string) (s : EngineState) :
  getPreviewPrompt sanitizeTemplate (addCustomElement element s)
  = getPreviewPrompt sanitizeTemplate s
  /\ getPreviewPrompt sanitizeTemplate
       (toggleCustomElement (List.length (customElements s))
                            (addCustomElement element s))
     = {| prompt :=
            join ", "
              (promptParts sanitizeTemplate (committedAnswers s)
                 (committedRefinements s) (previewWeights s) (customElements s)
               ++ [element])%list;
          negativePrompt := negativePrompt (getPreviewPrompt sanitizeTemplate s) |}.
Proof.
  unfold getPreviewPrompt, previewWeights, toggleCustomElement, addCustomElement.
  cbn [committedAnswers committedRefinements weightValues customElements
       setCustomElements].
  rewrite updateAt_last.
  unfold assemblePrompt, promptParts, customPromptElements, customNegativeElements.
  rewrite !filter_app. cbn [filter ce_enabled ce_type ce_text andb negb map].
  rewrite !map_app. cbn [map ce_text negativePrompt].
  rewrite !app_nil_r, <- !app_assoc. split; reflexivity.
Qed.

(** X24. Two round trips of the custom elements: switching an element
    twice, and removing the element just added, give the state back. *)
Theorem customElements_round_trips (index : nat) (element : string)
    (s : EngineState) :
  toggleCustomElement index (toggleCustomElement index s) = s
  /\ removeCustomElement (List.length (customElements s))
                         (addCustomElement element s) = s.
Proof.
  destruct s. unfold toggleCustomElement, removeCustomElement, addCustomElement,
    setCustomElements. cbn. split; f_equal.
  - apply updateAt_twice. intros [t e ty]. cbn. now rewrite negb_involutive.
  - apply removeAt_last.
Qed.

(* ================================================================= *)
(** ** One temporary answer for a node *)

Lemma mapSet_mapSet {V} (m : jsmap V) k v v' :
  mapSet (mapSet m k v) k v' = mapSet m k v'.
Proof.
  induction m as [|[k0 v0] r IH]; cbn.
  - now rewrite String.eqb_refl.
  - destruct (k0 =? k) eqn:E; cbn; [now rewrite String.eqb_refl|].
    now rewrite E, IH.
Qed.

(** X25. A node has one temporary answer, the last one selected: a
    selection of an answer of the current node replaces the selection
    made before it, whatever that one was. *)
Theorem selectTempAnswer_replaces (g : NodeMap) (first second : string)
    (s : EngineState) (node : InterviewNode) (answer : Answer) :
  mapGet g (currentNodeId s) = Some node ->
  findAnswer node second = Some answer ->
  selectTempAnswer g second (selectTempAnswer g first s)
  = selectTempAnswer g second s.
Proof.
  intros G F.
  assert (C : currentNodeId (selectTempAnswer g first s) = currentNodeId s).
  { unfold selectTempAnswer. rewrite G. now destruct (findAnswer node first). }
  unfold selectTempAnswer at 1. rewrite C, G, F.
  unfold selectTempAnswer. rewrite G, F.
  destruct (findAnswer node first); [|reflexivity].
  unfold setTempAnswers. cbn. now rewrite mapSet_mapSet.
Qed.

Lemma selectTempAnswer_replaces_witness :
  selectTempAnswer demoGraph "styled" (selectTempAnswer demoGraph "male" initialState)
  = selectTempAnswer demoGraph "styled" initialState.
Proof.
  apply (selectTempAnswer_replaces demoGraph "male" "styled" initialState
           {| n_id := "root"; n_question := "Who is the subject?";
              n_answers := Some [ {| ans_id := "male"; ans_label := "Male";
                                     ans_next := None |};
                                  {| ans_id := "styled"; ans_label := "Styled";
                                     ans_next := Some "refine-hair" |} ];
              n_weights := None; n_refinements := None |}
           {| ans_id := "styled"; ans_label := "Styled";
              ans_next := Some "refine-hair" |});
    reflexivity.
Defined.

(* ================================================================= *)
(** ** What changes the preview *)

Lemma customElements_frame g op s :
  changesPreview op = false -> customElements (perform g op s) = customElements s.
Proof.
  destruct op; try discriminate; intros _; cbn [perform]; try reflexivity.
  - unfold selectTempAnswer. destruct (mapGet g _); [destruct (findAnswer _ _)|];
      reflexivity.
  - unfold selectTempRefinement. destruct (mapGet g _); [destruct (findAnswer _ _)|];
      reflexivity.
  - destruct (goToNext_cases g s) as [E|(x & E)]; rewrite E; reflexivity.
  - destruct (skipToNext_cases g s) as [E|(x & E)]; rewrite E; reflexivity.
  - unfold previous. destruct (_ <=? _)%nat; reflexivity.
  - unfold jumpTo, visit. destruct (negb _); [|destruct (arrayIncludes _ _)];
      reflexivity.
  - unfold jumpToCategory, visit. destruct (negb _); [|destruct (arrayIncludes _ _)];
      reflexivity.
Qed.

(** X26. The preview shows committed state only: a temporary
    selection, a move of the intensity slider, the enabling of a slider
    and every navigation (next, skip, previous, both jumps) leave both
    prompts of the preview as they are. *)
Theorem preview_changes_only_by_commit
    (sanitizeTemplate : string -> list string -> string)
    (g : NodeMap) (op : Operation) (s : EngineState) :
  changesPreview op = false ->
  getPreviewPrompt sanitizeTemplate (perform g op s)
  = getPreviewPrompt sanitizeTemplate s.
Proof.
  intros C.
  assert (CW : changesWeights op = false) by (now destruct op).
  assert (CC : changesCommitted op = false) by (now destruct op).
  unfold getPreviewPrompt, previewWeights.
  destruct (committed_frame g op s CC) as [-> ->].
  now rewrite (weights_frame g op s CW), (customElements_frame g op s C).
Qed.

Lemma preview_changes_only_by_commit_witness :
  getPreviewPrompt plainSanitizer (perform demoGraph OpGoToNext styledSelected)
  = getPreviewPrompt plainSanitizer styledSelected.
Proof.
  apply (preview_changes_only_by_commit plainSanitizer demoGraph OpGoToNext
           styledSelected).
  reflexivity.
Defined.

(* ================================================================= *)
(** ** The intensity of a committed answer *)

Lemma append_inv_head (p a b : string) : p ++ a = p ++ b -> a = b.
Proof. induction p as [|c r IH]; cbn; [auto | intros [= E]; auto]. Qed.

Lemma commitWeight_other_key s st i fl acc wa :
  truthy (Some i) = true -> truthy fl = true ->
  wa_id wa <> "intensity" ->
  mapGet (snd (commitWeight s st (Some i) fl acc wa)) ("weight-" ++ i ++ "-intensity")
  = mapGet (snd acc) ("weight-" ++ i ++ "-intensity").
Proof.
  intros T L N. destruct acc as [n m]. unfold commitWeight.
  destruct (negb _); [reflexivity|].
  destruct (negb (_ || _)); [reflexivity|].
  rewrite T, L. cbn [andb snd optString].
  apply mapGet_mapSet_other. intros E. apply N.
  apply (append_inv_head "weight-"), (append_inv_head i) in E.
  now apply (append_inv_head "-") in E.
Qed.

Lemma commitWeights_other_key s st i fl ws : forall acc,
  truthy (Some i) = true -> truthy fl = true ->
  ~ In "intensity" (map wa_id ws) ->
  mapGet (snd (fold_left (commitWeight s st (Some i) fl) ws acc))
         ("weight-" ++ i ++ "-intensity")
  = mapGet (snd acc) ("weight-" ++ i ++ "-intensity").
Proof.
  induction ws as [|wa r IH]; intros acc T L N; [reflexivity|].
  cbn [fold_left]. rewrite IH; [| assumption | assumption |].
  - apply commitWeight_other_key; try assumption.
    intros E. apply N. left. exact E.
  - intros I. apply N. now right.
Qed.

(** X27. The intensity chosen on the slider is the value of the weight
    that the commit stores: away from the root, with the intensity
    slider enabled and an answer with a label selected at the current
    node, a commit after setIntensity at that node stores, under the key
    "weight-sel-<stamp>-intensity", the intensity weight with that
    value, bound to the committed answer and carrying its label,
    provided no slider of the node is itself called "intensity". *)
Theorem commit_stores_intensity (g : NodeMap) (st : Stamps) (s : EngineState)
    (a : SelectedAnswer) (value : Q) :
  currentNodeId s <> "root" ->
  mapGet (enabledSliders s) "intensity" = Some true ->
  mapGet (tempAnswers s) (currentNodeId s) = Some a ->
  sa_label a <> "" ->
  (forall node, mapGet g (currentNodeId s) = Some node ->
     ~ In "intensity" (map wa_id (nodeSliders node (currentNodeId s)))) ->
  mapGet (weightValues
            (commitCurrentSelections g st (setIntensity (currentNodeId s) value s)))
         ("weight-sel-" ++ answerStamp st ++ "-intensity")
  = Some (committedIntensity st a value).
Proof.
  intros NR En TA L NS.
  rewrite weightValues_commit. cbv zeta.
  cbn [currentNodeId tempAnswers tempRefinements tempIntensities enabledSliders
       weightValues setIntensity setTempIntensities].
  rewrite TA, En, mapGet_mapSet_same.
  apply String.eqb_neq in NR. rewrite NR.
  assert (TL : truthy (Some (sa_label a)) = true)
    by (cbn; now rewrite (isEmpty_false _ L)).
  cbn [option_map].
  assert (AL : match mapGet (tempRefinements s) (currentNodeId s) with
               | Some r => if truthy (Some (sa_label a)) then Some (sa_label a)
                           else Some (sr_label r)
               | None => Some (sa_label a)
               end = Some (sa_label a)).
  { destruct (mapGet (tempRefinements s) (currentNodeId s)); [now rewrite TL | reflexivity]. }
  rewrite AL, TL.
  assert (TS : truthy (Some ("sel-" ++ answerStamp st)) = true) by reflexivity.
  rewrite TS. cbn [negb andb optString].
  destruct (mapGet g (currentNodeId s)) as [node|] eqn:G.
  - unfold orElse. rewrite TS, TL.
    change ("weight-sel-" ++ answerStamp st ++ "-intensity")
      with ("weight-" ++ ("sel-" ++ answerStamp st) ++ "-intensity").
    rewrite commitWeights_other_key;
      [apply mapGet_mapSet_same | exact TS | exact TL | exact (NS node eq_refl)].
  - change ("weight-sel-" ++ answerStamp st ++ "-intensity")
      with ("weight-" ++ ("sel-" ++ answerStamp st) ++ "-intensity").
    apply mapGet_mapSet_same.
Qed.

Lemma commit_stores_intensity_witness :
  mapGet (weightValues
            (commitCurrentSelections demoGraph (stamps "3" "4")
               (setIntensity (currentNodeId longSelected) (3 # 2) longSelected)))
         ("weight-sel-" ++ answerStamp (stamps "3" "4") ++ "-intensity")
  = Some (committedIntensity (stamps "3" "4")
            {| sa_id := "temp-refine-hair-long"; sa_nodeId := "refine-hair";
               sa_answerId := "long"; sa_label := "Long";
               sa_questionText := Some "What is the hair length?" |} (3 # 2)).
Proof.
  apply (commit_stores_intensity demoGraph (stamps "3" "4") longSelected);
    [ discriminate | reflexivity | reflexivity | discriminate | ].
  intros node G. vm_compute in G. injection G as <-. vm_compute. tauto.
Defined.

(* ================================================================= *)
(** ** The sliders shown *)

(** X28. At a refinement node that leads nowhere (its id starts with
    "refine-" and none of its answers has a next node) the node is its
    own current refinement, so the list of active weights holds every
    slider of the node twice: once as a slider of the node and once as
    a slider of the current refinement. *)
Theorem getActiveWeights_last_refinement (g : NodeMap) (s : EngineState)
    (node : InterviewNode) :
  mapGet g (currentNodeId s) = Some node ->
  startsWith (currentNodeId s) "refine-" = true ->
  existsb (fun a => truthy (ans_next a)) (orEmpty (n_answers node)) = false ->
  getCurrentRefinement g s = Some (asRefinement node)
  /\ getActiveWeights g s
     = (map (activeWeight s) (orEmpty (n_weights node))
        ++ map (activeWeight s) (orEmpty (n_weights node)))%list.
Proof.
  intros G R N.
  assert (C : getCurrentRefinement g s = Some (asRefinement node)).
  { unfold getCurrentRefinement. now rewrite G, R, N. }
  split; [exact C|].
  unfold getActiveWeights. now rewrite C, G.
Qed.

Lemma getActiveWeights_last_refinement_witness :
  getCurrentRefinement glossGraph atGloss
  = Some (asRefinement
            {| n_id := "refine-gloss"; n_question := "What is the finish like?";
               n_answers := Some [ {| ans_id := "matte"; ans_label := "Matte";
                                      ans_next := None |} ];
               n_weights := Some [shineWeight]; n_refinements := None |})
  /\ getActiveWeights glossGraph atGloss
     = [ (shineWeight, 1%Q); (shineWeight, 1%Q) ].
Proof.
  apply (getActiveWeights_last_refinement glossGraph atGloss
           {| n_id := "refine-gloss"; n_question := "What is the finish like?";
              n_answers := Some [ {| ans_id := "matte"; ans_label := "Matte";
                                     ans_next := None |} ];
              n_weights := Some [shineWeight]; n_refinements := None |});
    reflexivity.
Defined.
